(** * The hello-world function-calling example, embedded and verified

    Source: [examples/hello-world.py].  The script talks to a chat endpoint,
    pulls fenced code blocks out of the reply with one regular expression,
    runs the [python] blocks in a sandbox and sends the outputs back.

    The embedding has three layers:
    - [text]: Python [str] values as lists of code points;
    - [Re]: the fragment of Python's [re] used by the pattern
      [find_code_blocks], as a backtracking matcher that lists every way
      to match in the order the engine tries them;
    - the script itself ([chat], [main]) in a state-and-exception monad over
      the transcript and a trace of the calls made to the outside world.

    The chat server, the sandbox and the Unicode table are not part of the
    script: the first two are a [world] whose answers may depend on all
    that happened before, the third is a predicate [isalnum]; the theorems
    hold for every world and every table. *)

From Stdlib Require Import String Ascii.
From Stdlib Require Import List NArith ZArith Arith Lia Bool.
From Equations Require Import Equations.
Import ListNotations.

Set Implicit Arguments.
Set Warnings "-register-all".

(** ** Text *)

(** A Python [str] is a sequence of Unicode code points. *)
Definition char := N.
Definition text := list char.

Definition char_of_ascii (a : Ascii.ascii) : char := Ascii.N_of_ascii a.

(** [txt "abc"] is the text of a literal without escapes. *)
Definition txt (s : String.string) : text :=
  map char_of_ascii (String.list_ascii_of_string s).

Definition LF : char := 10%N.        (* \n *)
Definition TAB : char := 9%N.        (* \t *)
Definition SP : char := 32%N.        (* space *)
Definition TICK : char := 96%N.      (* ` *)
Definition DQ : char := 34%N.        (* double quote *)
Definition LBRACE : char := 123%N.   (* { *)
Definition RBRACE : char := 125%N.   (* } *)
Definition MINUS : char := 45%N.     (* - *)
Definition DOT : char := 46%N.       (* . *)
Definition UNDERSCORE : char := 95%N.

Definition NL : text := [LF].

Fixpoint text_eqb (a b : text) : bool :=
  match a, b with
  | [], [] => true
  | x :: a', y :: b' => N.eqb x y && text_eqb a' b'
  | _, _ => false
  end.

(** [sep.join(parts)] *)
Fixpoint join (sep : text) (parts : list text) : text :=
  match parts with
  | [] => []
  | [p] => p
  | p :: ps => p ++ sep ++ join sep ps
  end.

(** ** The regular-expression fragment *)

Module Re.

(** Members of a bracketed class: a literal character or [\w]. *)
Inductive item :=
| Lit (c : char)
| Word.

(** What one character position can be asked to match. *)
Inductive cset :=
| One (c : char)               (* a literal character *)
| Any                          (* [.] under DOTALL: every character *)
| Among (items : list item)    (* [[...]] *)
| Except (items : list item).  (* [[^...]] *)

(** Every quantifier of the pattern is applied to a single character
    position, so repetition is a constructor over [cset]. *)
Inductive regex :=
| Rep (cs : cset) (lo : nat) (hi : option nat) (greedy : bool)
| Cat (r1 r2 : regex)
| Alt (r1 r2 : regex)                 (* r1|r2 *)
| Opt (r : regex)                     (* (?:r)? *)
| Grp (name : String.string) (r : regex)     (* (?P<name>r) *)
| Ref (name : String.string)                 (* (?P=name) *)
| NotBehind (cs : cset)               (* (?<!c) *)
| NotAhead (r : regex)                (* (?!r) *)
| StartOfText                         (* \A *)
| EndOfText.                          (* \Z *)

(** A position in the subject: the text already passed (nearest character
    first), the text still ahead, and the groups captured so far. *)
Record cursor := Cursor {
  seen : text;
  rest : text;
  marks : list (String.string * text)
}.

Fixpoint lookup (name : String.string) (ms : list (String.string * text)) : option text :=
  match ms with
  | [] => None
  | (n, w) :: ms' => if String.eqb n name then Some w else lookup name ms'
  end.

Definition advance (k : nat) (c : cursor) : cursor :=
  {| seen := rev (firstn k (rest c)) ++ seen c;
     rest := skipn k (rest c);
     marks := marks c |}.

(** The text consumed between two cursors of one attempt. *)
Definition consumed (c c' : cursor) : text :=
  rev (firstn (length (seen c') - length (seen c)) (seen c')).

Definition set_mark (name : String.string) (w : text) (c : cursor) : cursor :=
  {| seen := seen c; rest := rest c; marks := (name, w) :: marks c |}.

Fixpoint starts_with (w s : text) : bool :=
  match w, s with
  | [], _ => true
  | _ :: _, [] => false
  | a :: w', b :: s' => N.eqb a b && starts_with w' s'
  end.

Section Engine.

(** [str.isalnum] on one code point, from the Unicode database of the
    Python runtime. *)
Variable isalnum : char -> bool.

(** [\w] in a [str] pattern: alphanumeric or underscore. *)
Definition is_word (c : char) : bool := isalnum c || N.eqb c UNDERSCORE.

Definition item_mem (i : item) (c : char) : bool :=
  match i with
  | Lit d => N.eqb c d
  | Word => is_word c
  end.

Definition mem (cs : cset) (c : char) : bool :=
  match cs with
  | One d => N.eqb c d
  | Any => true
  | Among items => existsb (fun i => item_mem i c) items
  | Except items => negb (existsb (fun i => item_mem i c) items)
  end.

Definition below (hi : option nat) (n : nat) : bool :=
  match hi with
  | None => true
  | Some h => n <? h
  end.

(** Length of the longest run of [cs] characters at the head of [s], cut
    at the upper bound of the quantifier. *)
Fixpoint stretch (cs : cset) (hi : option nat) (n : nat) (s : text) : nat :=
  match s with
  | c :: s' => if below hi n && mem cs c then stretch cs hi (S n) s' else n
  | [] => n
  end.

(** The repetition counts a quantifier tries, in the order it tries them:
    longest first when greedy, shortest first when lazy. *)
Definition counts (lo top : nat) (greedy : bool) : list nat :=
  let up := seq lo (S top - lo) in
  if greedy then rev up else up.

(** [ways r c]: every cursor at which [r] can finish when started at [c],
    in the order in which a backtracking engine reaches them.  The first
    element is the match the engine reports. *)
Fixpoint ways (r : regex) (c : cursor) : list cursor :=
  match r with
  | Rep cs lo hi greedy =>
      map (fun k => advance k c) (counts lo (stretch cs hi 0 (rest c)) greedy)
  | Cat r1 r2 => flat_map (ways r2) (ways r1 c)
  | Alt r1 r2 => ways r1 c ++ ways r2 c
  | Opt r1 => ways r1 c ++ [c]
  | Grp name r1 => map (fun c' => set_mark name (consumed c c') c') (ways r1 c)
  | Ref name =>
      match lookup name (marks c) with
      | Some w => if starts_with w (rest c) then [advance (length w) c] else []
      | None => []
      end
  | NotBehind cs =>
      match seen c with
      | p :: _ => if mem cs p then [] else [c]
      | [] => [c]
      end
  | NotAhead r1 =>
      match ways r1 c with
      | [] => [c]
      | _ :: _ => []
      end
  | StartOfText => match seen c with [] => [c] | _ :: _ => [] end
  | EndOfText => match rest c with [] => [c] | _ :: _ => [] end
  end.

(** A match object: its span and its groups ([None] for a group that did
    not take part). *)
Record match_object := Match {
  m_start : nat;
  m_end : nat;
  m_marks : list (String.string * text)
}.

Definition group (name : String.string) (m : match_object) : option text :=
  lookup name (m_marks m).

Definition found (c c' : cursor) : match_object :=
  {| m_start := length (seen c); m_end := length (seen c'); m_marks := marks c' |}.

(** [pattern.finditer(text)]: non-overlapping matches, leftmost first.  At
    each position the engine's first way is taken; after a match the scan
    resumes where it ended.  A match that consumes nothing is followed by a
    step of one character, which is only there for progress: the pattern of
    this script never matches the empty text. *)
Equations scan (r : regex) (before after : text) : list match_object
  by wf (length after) lt :=
  scan r before after with ways r (Cursor before after []) => {
    | c' :: _ with lt_dec (length (rest c')) (length after) => {
        | left _ => found (Cursor before after []) c' :: scan r (seen c') (rest c')
        | right _ with after => {
            | [] => [found (Cursor before after []) c']
            | x :: after' =>
                found (Cursor before after []) c' :: scan r (x :: before) after' } }
    | [] with after => {
        | [] => []
        | x :: after' => scan r (x :: before) after' } }.

Definition finditer (r : regex) (s : text) : list match_object := scan r [] s.

End Engine.

(** Notation for writing patterns in the order of the source. *)
Declare Scope re_scope.
Delimit Scope re_scope with re.
Infix "+++" := Cat (at level 60, right associativity) : re_scope.

Definition lit (c : char) : regex := Rep (One c) 1 (Some 1) true.
Definition plus (cs : cset) : regex := Rep cs 1 None true.
Definition star (cs : cset) : regex := Rep cs 0 None true.
Definition lazy_star (cs : cset) : regex := Rep cs 0 None false.

End Re.

(** ** The script's pattern *)

Import Re.
Local Open Scope re_scope.

(** Line 50, in the order of the pattern string.  The pattern is compiled
    with VERBOSE and DOTALL: every blank of the pattern sits inside a
    bracketed class and there is no [#], so VERBOSE removes nothing; DOTALL
    makes [.] match the newline too. *)

Definition blanks : regex := star (Among [Lit SP; Lit TAB]).         (* [ \t]* *)

(* (?P<code_start>[ ]{0,3}`{3,}) *)
Definition code_start : regex :=
  Grp "code_start" (Rep (Among [Lit SP]) 0 (Some 3) true +++ Rep (One TICK) 3 None true).

(* (?:[ \t]*\{(?P<code_def_a>[^\}]+)\})? *)
Definition code_def_a : regex :=
  Opt (blanks +++ lit LBRACE +++ Grp "code_def_a" (plus (Except [Lit RBRACE])) +++ lit RBRACE).

(* (?:[ \t]*\{(?P<code_def_b>[^\}]+)\}) *)
Definition code_def_b : regex :=
  blanks +++ lit LBRACE +++ Grp "code_def_b" (plus (Except [Lit RBRACE])) +++ lit RBRACE.

(* (?P<code_class>[\w\-\.]+) *)
Definition code_class : regex :=
  Grp "code_class" (plus (Among [Word; Lit MINUS; Lit DOT])).

(* (?:(?:class def_a?)|(?:def_b))? *)
Definition info : regex := Opt (Alt (code_class +++ code_def_a) code_def_b).

(* (?P<code_content>.*?) *)
Definition code_content : regex := Grp "code_content" (lazy_star Any).

(* (?P<code_all> code_start [ \t]* info? \n+ code_content \n+
                (?<!`) (?P=code_start) (?!`) ) *)
Definition code_all : regex :=
  Grp "code_all"
    (code_start +++ blanks +++ info +++ plus (One LF) +++ code_content +++
     plus (One LF) +++ NotBehind (One TICK) +++ Ref "code_start" +++
     NotAhead (lit TICK)).

(* (?:\n+|\A)? code_all (?:\n|\Z) *)
Definition find_code_blocks : regex :=
  Opt (Alt (plus (One LF)) StartOfText) +++ code_all +++ Alt (lit LF) EndOfText.

Close Scope re_scope.

(** ** Python values, exceptions and the outside world *)

(** The values the script handles: what [response.json()] can return and
    what the script builds itself.  A dict is the list of its items, each
    key once. *)
Inductive value :=
| VNone
| VBool (b : bool)
| VInt (z : Z)
| VFloat (digits exponent : Z)          (* digits * 10 ^ exponent *)
| VStr (s : text)
| VList (items : list value)
| VDict (items : list (text * value)).

Inductive exn :=
| ClientResponseError (status : Z)      (* raised by raise_for_status *)
| KeyError (key : text)
| TypeError
| Failure (what : text).                (* raised inside an outside call *)

Inductive result (A : Type) :=
| Ok (a : A)
| Err (e : exn).
Arguments Ok {A} a.
Arguments Err {A} e.

(** An HTTP response: its status and what [await response.json()] gives. *)
Record http_response := {
  status : Z;
  json : result value
}.

(** The handle returned by [sandbox.run]: [output()] and [error()]. *)
Record execution := {
  output : text;
  error : text
}.

(** One call the script makes to the outside world (or to [print]), with
    the answer it got.  A [Post] is a request of [chat] (line 20).  The
    sandbox is handed the session of the script (line 62) and talks to its
    own server through it: that traffic is inside [Start], [Run] and
    [Stop], and is no [Post]. *)
Inductive event :=
| Post (endpoint : text) (payload : value) (reply : result http_response)
| ReadJson
| Print (v : value)
| Start (reply : result unit)
| Run (code : value) (reply : result execution)
| Stop (reply : result unit)
| Close (reply : result unit).

(** The chat server, the sandbox and the HTTP session.  Each answer may
    depend on everything that happened before. *)
Record world := {
  session_post : list event -> text -> value -> result http_response;
  sandbox_start : list event -> result unit;
  sandbox_run : list event -> value -> result execution;
  sandbox_stop : list event -> result unit;
  session_close : list event -> result unit
}.

(** The program state: the one list object [messages], shared by [main],
    [chat] and every payload, and the trace of calls made so far. *)
Record state := {
  messages : list value;
  trace : list event
}.

Inductive outcome (A : Type) :=
| Return (a : A)
| Raise (e : exn).
Arguments Return {A} a.
Arguments Raise {A} e.

Definition M (A : Type) : Type := state -> outcome A * state.

Definition ret {A} (a : A) : M A := fun st => (Return a, st).

Definition raise {A} (e : exn) : M A := fun st => (Raise e, st).

Definition bind {A B} (m : M A) (k : A -> M B) : M B :=
  fun st =>
    match m st with
    | (Return a, st') => k a st'
    | (Raise e, st') => (Raise e, st')
    end.

Declare Scope py_scope.
Delimit Scope py_scope with py.
Notation "x <- m ;; k" := (bind m (fun x => k))
  (at level 61, m at next level, right associativity) : py_scope.
Notation "m ;; k" := (bind m (fun _ => k))
  (at level 61, right associativity) : py_scope.
Local Open Scope py_scope.

Definition lift {A} (r : result A) : M A :=
  match r with
  | Ok a => ret a
  | Err e => raise e
  end.

Definition emit (e : event) : M unit :=
  fun st => (Return tt, {| messages := messages st; trace := trace st ++ [e] |}).

Definition get_messages : M (list value) := fun st => (Return (messages st), st).

(** [messages = [...]] *)
Definition set_messages (l : list value) : M unit :=
  fun st => (Return tt, {| messages := l; trace := trace st |}).

(** [messages.append(m)] *)
Definition append_message (m : value) : M unit :=
  fun st => (Return tt, {| messages := messages st ++ [m]; trace := trace st |}).

Definition get_trace : M (list event) := fun st => (Return (trace st), st).

Fixpoint dict_get (key : text) (items : list (text * value)) : option value :=
  match items with
  | [] => None
  | (k, v) :: items' => if text_eqb k key then Some v else dict_get key items'
  end.

(** [v[key]] with a [str] key: only a dict that holds the key answers. *)
Definition getitem (v : value) (key : text) : result value :=
  match v with
  | VDict items =>
      match dict_get key items with
      | Some x => Ok x
      | None => Err (KeyError key)
      end
  | _ => Err TypeError
  end.

(** [{"role": role, "content": content}] *)
Definition message (role : text) (content : value) : value :=
  VDict [(txt "role", VStr role); (txt "content", content)].

Definition role_of (m : value) : option value :=
  match m with VDict items => dict_get (txt "role") items | _ => None end.

Definition content_of (m : value) : option value :=
  match m with VDict items => dict_get (txt "content") items | _ => None end.

(** ** The script *)

Definition quoted (s : string) : text := [DQ] ++ txt s ++ [DQ].

(* line 34 *)
Definition instruction : text :=
  txt "You are a helpful assistant to me, the user. You have access to " ++
  txt "programmatic functions that you can call to better assist me. You " ++
  txt "are encouraged to call functions to help the user. You can only " ++
  txt "use the functions given to you. Do not make up your own functions." ++
  NL ++ NL ++
  txt "You can call these functions by producing a python-style function " ++
  txt "call in plain text only, passing all the parameters as named " ++
  txt "arguments. For example, to call a function named `do_something`, " ++
  txt "with the parameter `wait_for_it` set to `true` you must produce " ++
  txt "the following output:" ++
  NL ++ NL ++
  txt "```python" ++ NL ++
  txt "do_something(wait_for_it=True)" ++ NL ++
  txt "```" ++
  NL ++ NL ++
  txt "The output of the function will be returned in the next message " ++
  txt "from the user. You must use the output of the function to " ++
  txt "generate a helpful natural language response for the user. Your " ++
  txt "response must satisfy the user's original question.".

(* line 35 *)
Definition discovery : text :=
  txt "When I ask for the current weather for a particular place, you " ++
  txt "can call the `fetch_weather` function and pass the `place` " ++
  txt "parameter (a string) with the place I mention. The place can be " ++
  txt "the name of a city or famous landmark, or an airport code. The " ++
  txt "function will produce a JSON object containing information about " ++
  txt "the weather condition, temperature and winds for the given place.".

(* line 36 *)
Definition task : text := txt "What is the weather in Pune right now?".

(* line 59 *)
Definition function_code : text :=
  join NL [
    txt "import requests";
    txt "def fetch_weather(place: str) -> dict:";
    txt "    url = f" ++ quoted "https://wttr.in/{place}?format=j1";
    txt "    response = requests.get(url)";
    txt "    response.raise_for_status()";
    txt "    data = response.json()";
    txt "    data = data['current_condition'][0]";
    txt "    return {";
    txt "        " ++ quoted "units" ++ txt ": " ++ quoted "metric" ++ txt ",";
    txt "        " ++ quoted "condition" ++ txt ": data['weatherDesc'][0]['value'],";
    txt "        " ++ quoted "temperature" ++ txt ": int(data['temp_C']),";
    txt "        " ++ quoted "feels_like" ++ txt ": int(data['FeelsLikeC']),";
    txt "        " ++ quoted "wind_speed" ++ txt ": int(data['windspeedKmph'])";
    txt "    }" ].

(* line 32 *)
Definition model_name : text := txt "gemma3:27b".

Definition user : text := txt "user".
Definition assistant : text := txt "assistant".
Definition python : text := txt "python".

(** Default of the [server] parameter of [chat]. *)
Definition default_server : text := txt "http://localhost:11434".

(** The dict built on lines 10-18. *)
Definition payload (model : text) (history : list value) : value :=
  VDict [
    (txt "model", VStr model);
    (txt "messages", VList history);
    (txt "stream", VBool false);
    (txt "options", VDict [
       (txt "num_ctx", VInt 8192);
       (txt "top_p", VFloat 95 (-2)) ]) ].

(** [match.group(name)] as a Python value. *)
Definition group_value (name : string) (m : match_object) : value :=
  match group name m with
  | Some s => VStr s
  | None => VNone
  end.

(** [v == "python"] *)
Definition equals_str (v : value) (s : text) : bool :=
  match v with
  | VStr t => text_eqb t s
  | _ => false
  end.

(** Truth value of a [str]: non-empty. *)
Definition truthy (s : text) : bool :=
  match s with
  | [] => false
  | _ :: _ => true
  end.

(** aiohttp's [response.ok]: the status is below 400. *)
Definition ok (r : http_response) : bool := (status r <? 400)%Z.

(** The list built on lines 38-42. *)
Definition initial_messages : list value :=
  [ message user (VStr instruction);
    message user (VStr discovery);
    message user (VStr task) ].

Section Script.

Variable isalnum : char -> bool.
Variable w : world.

(** [session.post(endpoint, json=payload)] entered by [async with]. *)
Definition post (endpoint : text) (body : value) : M http_response :=
  tr <- get_trace ;;
  let reply := session_post w tr endpoint body in
  emit (Post endpoint body reply) ;;
  lift reply.

Definition raise_for_status (r : http_response) : M unit :=
  if ok r then ret tt else raise (ClientResponseError (status r)).

Definition read_json (r : http_response) : M value :=
  emit ReadJson ;;
  lift (json r).

Definition print (v : value) : M unit := emit (Print v).

Definition start : M unit :=
  tr <- get_trace ;;
  let reply := sandbox_start w tr in
  emit (Start reply) ;; lift reply.

Definition run (code : value) : M execution :=
  tr <- get_trace ;;
  let reply := sandbox_run w tr code in
  emit (Run code reply) ;; lift reply.

Definition stop : M unit :=
  tr <- get_trace ;;
  let reply := sandbox_stop w tr in
  emit (Stop reply) ;; lift reply.

Definition close : M unit :=
  tr <- get_trace ;;
  let reply := session_close w tr in
  emit (Close reply) ;; lift reply.

(** Lines 8-29.  [messages] is the list object of the state. *)
Definition chat (model : text) (server : text) : M value :=
  let endpoint := server ++ txt "/api/chat" in
  history <- get_messages ;;
  response <- post endpoint (payload model history) ;;
  raise_for_status response ;;
  response <- read_json response ;;
  msg <- lift (getitem response (txt "message")) ;;
  content <- lift (getitem msg (txt "content")) ;;
  append_message (message assistant content) ;;
  ret content.

(** Lines 51-56: [finditer] needs a [str]; the loop keeps the content of
    the matches whose [code_class] is ["python"]. *)
Definition code_blocks (response : value) : M (list match_object) :=
  match response with
  | VStr s => ret (finditer isalnum find_code_blocks s)
  | _ => raise TypeError
  end.

Definition function_calls_of (matches : list match_object) : list value :=
  map (group_value "code_content")
      (filter (fun m => equals_str (group_value "code_class" m) python) matches).

(** Lines 67-74. *)
Fixpoint run_calls (calls : list value) (responses : list text) : M (list text) :=
  match calls with
  | [] => ret responses
  | call :: calls' =>
      runner <- run call ;;
      let output := output runner in
      let errors := error runner in
      run_calls calls' (responses ++ [if truthy errors then errors else output])
  end.

(** Lines 31-84. *)
Definition main : M unit :=
  let model := model_name in
  set_messages initial_messages ;;
  response <- chat model default_server ;;
  print response ;;
  matches <- code_blocks response ;;
  let function_calls := function_calls_of matches in
  print (VList function_calls) ;;
  start ;;
  run (VStr function_code) ;;
  responses <- run_calls function_calls [] ;;
  let outputs := join (NL ++ NL) responses in
  print (VStr outputs) ;;
  append_message (message user (VStr outputs)) ;;
  response <- chat model default_server ;;
  print response ;;
  stop ;;
  close.

End Script.

(** The state in which the script starts. *)
Definition initial : state := {| messages := []; trace := [] |}.

Definition final (isalnum : char -> bool) (w : world) : state :=
  snd (main isalnum w initial).

Definition ending (isalnum : char -> bool) (w : world) : outcome unit :=
  fst (main isalnum w initial).

(** ** Reading a trace and a transcript *)

(** The requests [chat] sent, the codes run and the handles obtained, in
    order. *)
Definition posts (tr : list event) : list (text * value) :=
  flat_map (fun e => match e with Post ep p _ => [(ep, p)] | _ => [] end) tr.

Definition runs (tr : list event) : list value :=
  flat_map (fun e => match e with Run c _ => [c] | _ => [] end) tr.

Definition executions (tr : list event) : list execution :=
  flat_map (fun e => match e with Run _ (Ok ex) => [ex] | _ => [] end) tr.

(** The content a reply carries at [["message"]["content"]]. *)
Definition reply_content (r : http_response) : result value :=
  match json r with
  | Ok body =>
      match getitem body (txt "message") with
      | Ok msg => getitem msg (txt "content")
      | Err e => Err e
      end
  | Err e => Err e
  end.

Definition chat_endpoint (server : text) : text := server ++ txt "/api/chat".

(** The request [chat] sends from [main] for a given history. *)
Definition asked (history : list value) (reply : result http_response) : event :=
  Post (chat_endpoint default_server) (payload model_name history) reply.

(** The string the loop keeps for one execution (line 74). *)
Definition collected (ex : execution) : text :=
  if truthy (error ex) then error ex else output ex.

(** The events of a loop over [calls] whose runs all succeeded. *)
Definition served (calls : list value) (exs : list execution) : list event :=
  map (fun ce => Run (fst ce) (Ok (snd ce))) (combine calls exs).

Definition calls_in (isalnum : char -> bool) (s : text) : list value :=
  function_calls_of (finditer isalnum find_code_blocks s).

Definition outputs_of (exs : list execution) : text :=
  join (NL ++ NL) (map collected exs).

(** The text of the first reply, read back from the trace. *)
Definition first_reply (tr : list event) : option value :=
  match tr with
  | Post _ _ (Ok r) :: _ =>
      match reply_content r with
      | Ok v => Some v
      | Err _ => None
      end
  | _ => None
  end.

Definition extracted (isalnum : char -> bool) (tr : list event) : list value :=
  match first_reply tr with
  | Some (VStr s) => calls_in isalnum s
  | _ => []
  end.

(** The kinds of calls, for stating the order of a trace. *)
Inductive step :=
| SPost
| SReadJson
| SPrint
| SStart
| SRun (code : value)
| SStop
| SClose.

Definition step_of (e : event) : step :=
  match e with
  | Post _ _ _ => SPost
  | ReadJson => SReadJson
  | Print _ => SPrint
  | Start _ => SStart
  | Run code _ => SRun code
  | Stop _ => SStop
  | Close _ => SClose
  end.

(** The order of calls of a complete run that executes [calls]. *)
Definition pipeline (calls : list value) : list step :=
  [SPost; SReadJson; SPrint; SPrint; SStart; SRun (VStr function_code)] ++
  map SRun calls ++
  [SPrint; SPost; SReadJson; SPrint; SStop; SClose].

(** ** The runs of the script *)

(** How a call of [chat] can fail, given the server's reply: the exception
    and the events that follow the request. *)
Inductive chat_fails : result http_response -> exn -> list event -> Prop :=
| fails_no_reply e : chat_fails (Err e) e []
| fails_status r :
    ok r = false -> chat_fails (Ok r) (ClientResponseError (status r)) []
| fails_content r e :
    ok r = true -> reply_content r = Err e -> chat_fails (Ok r) e [ReadJson].

Definition chat_gives (r : http_response) (content : value) : Prop :=
  ok r = true /\ reply_content r = Ok content.

(** The end of the script: [sandbox.stop()] then [session.close()]. *)
Inductive closing : outcome unit -> list event -> Prop :=
| closing_stop_raises e : closing (Raise e) [Stop (Err e)]
| closing_close_raises e : closing (Raise e) [Stop (Ok tt); Close (Err e)]
| closing_done : closing (Return tt) [Stop (Ok tt); Close (Ok tt)].

(** Every way a run of [main] can end: the exception or return, the final
    transcript and the complete trace. *)
Inductive main_run (isalnum : char -> bool) : outcome unit -> state -> Prop :=
| ends_in_first_chat reply e evs :
    chat_fails reply e evs ->
    main_run isalnum (Raise e)
      {| messages := initial_messages;
         trace := asked initial_messages reply :: evs |}
| ends_not_text r r1 :
    chat_gives r r1 -> (forall s, r1 <> VStr s) ->
    main_run isalnum (Raise TypeError)
      {| messages := initial_messages ++ [message assistant r1];
         trace := [asked initial_messages (Ok r); ReadJson; Print r1] |}
| ends_in_start r s e :
    chat_gives r (VStr s) ->
    main_run isalnum (Raise e)
      {| messages := initial_messages ++ [message assistant (VStr s)];
         trace := [asked initial_messages (Ok r); ReadJson; Print (VStr s);
                   Print (VList (calls_in isalnum s)); Start (Err e)] |}
| ends_in_setup r s e :
    chat_gives r (VStr s) ->
    main_run isalnum (Raise e)
      {| messages := initial_messages ++ [message assistant (VStr s)];
         trace := [asked initial_messages (Ok r); ReadJson; Print (VStr s);
                   Print (VList (calls_in isalnum s)); Start (Ok tt);
                   Run (VStr function_code) (Err e)] |}
| ends_in_call r s ex0 done exs c later e :
    chat_gives r (VStr s) ->
    calls_in isalnum s = done ++ c :: later -> length exs = length done ->
    main_run isalnum (Raise e)
      {| messages := initial_messages ++ [message assistant (VStr s)];
         trace := [asked initial_messages (Ok r); ReadJson; Print (VStr s);
                   Print (VList (calls_in isalnum s)); Start (Ok tt);
                   Run (VStr function_code) (Ok ex0)] ++
                  served done exs ++ [Run c (Err e)] |}
| ends_in_second_chat r s ex0 exs reply e evs :
    chat_gives r (VStr s) -> length exs = length (calls_in isalnum s) ->
    chat_fails reply e evs ->
    let history := initial_messages ++
                   [message assistant (VStr s);
                    message user (VStr (outputs_of exs))] in
    main_run isalnum (Raise e)
      {| messages := history;
         trace := [asked initial_messages (Ok r); ReadJson; Print (VStr s);
                   Print (VList (calls_in isalnum s)); Start (Ok tt);
                   Run (VStr function_code) (Ok ex0)] ++
                  served (calls_in isalnum s) exs ++
                  [Print (VStr (outputs_of exs)); asked history reply] ++ evs |}
| ends_after_second_chat r s ex0 exs r' answer last out :
    chat_gives r (VStr s) -> length exs = length (calls_in isalnum s) ->
    chat_gives r' answer ->
    closing out last ->
    let history := initial_messages ++
                   [message assistant (VStr s);
                    message user (VStr (outputs_of exs))] in
    main_run isalnum out
      {| messages := history ++ [message assistant answer];
         trace := [asked initial_messages (Ok r); ReadJson; Print (VStr s);
                   Print (VList (calls_in isalnum s)); Start (Ok tt);
                   Run (VStr function_code) (Ok ex0)] ++
                  served (calls_in isalnum s) exs ++
                  [Print (VStr (outputs_of exs)); asked history (Ok r');
                   ReadJson; Print answer] ++ last |}.

(** ** The shape of a match of the pattern *)

(** [w] lies between two cursors of one attempt. *)
Definition span (c : cursor) (w : text) (c' : cursor) : Prop :=
  rest c = w ++ rest c' /\ seen c' = rev w ++ seen c.

Definition all_in (isalnum : char -> bool) (cs : cset) (w : text) : Prop :=
  Forall (fun x => mem isalnum cs x = true) w.

Definition newlines (w : text) : Prop := w <> [] /\ Forall (eq LF) w.

(** A fence: up to three spaces, then three or more backticks. *)
Definition fence_text (f : text) : Prop :=
  exists sp ticks, f = sp ++ ticks /\
    Forall (eq SP) sp /\ length sp <= 3 /\
    Forall (eq TICK) ticks /\ 3 <= length ticks.

Definition blank (w : text) : Prop := Forall (fun x => x = SP \/ x = TAB) w.

(** Characters of a tag: [[\w\-\.]]. *)
Definition tag_chars (isalnum : char -> bool) (t : text) : Prop :=
  Forall (fun x => is_word isalnum x = true \/ x = MINUS \/ x = DOT) t.

Definition tag_text (isalnum : char -> bool) (t : text) : Prop :=
  t <> [] /\ tag_chars isalnum t.

(** Blanks, then a non-empty text without closing brace, in braces. *)
Definition braces (a x : text) : Prop :=
  exists bl, blank bl /\ x <> [] /\ ~ In RBRACE x /\ a = bl ++ [LBRACE] ++ x ++ [RBRACE].

(** The rest of the opening line, with the groups it sets (latest first). *)
Inductive info_line (isalnum : char -> bool) : list (string * text) -> text -> Prop :=
| info_none : info_line isalnum [] []
| info_class t :
    tag_text isalnum t -> info_line isalnum [("code_class"%string, t)] t
| info_class_def t a x :
    tag_text isalnum t -> braces a x ->
    info_line isalnum [("code_def_a"%string, x); ("code_class"%string, t)] (t ++ a)
| info_def a x :
    braces a x -> info_line isalnum [("code_def_b"%string, x)] a.

(** The rest of the opening line as the group [code_class] tells it. *)
Definition tagged (isalnum : char -> bool) (tag : option text) (line : text) : Prop :=
  match tag with
  | Some t => tag_text isalnum t /\ (line = t \/ exists a x, braces a x /\ line = t ++ a)
  | None => line = [] \/ exists x, braces line x
  end.

(** What follows a closing fence: a newline, or the end of the text. *)
Definition line_end (tail post : text) : Prop :=
  tail = [LF] \/ (tail = [] /\ post = []).

(** A match [m] of the pattern inside the text [s]. *)
Definition block_at (isalnum : char -> bool) (s : text) (m : match_object) : Prop :=
  exists pre lead fence bl line ms nl1 body nl2 tail post,
    let all := fence ++ bl ++ line ++ nl1 ++ body ++ nl2 ++ fence in
    s = pre ++ lead ++ all ++ tail ++ post /\
    m_start m = length pre /\
    m_end m = length (pre ++ lead ++ all ++ tail) /\
    Forall (eq LF) lead /\
    fence_text fence /\ blank bl /\ info_line isalnum ms line /\
    newlines nl1 /\ newlines nl2 /\ line_end tail post /\
    m_marks m =
      ("code_all"%string, all) :: ("code_content"%string, body) ::
      ms ++ [("code_start"%string, fence)].

(** The way a backtracking engine reports: the first one. *)
Definition first_way (isalnum : char -> bool) (r : regex) (c c' : cursor) : Prop :=
  exists l, ways isalnum r c = c' :: l.

(** The text stops a run of [cs]: it is empty or starts outside [cs]. *)
Definition stops (isalnum : char -> bool) (cs : cset) (v : text) : Prop :=
  match v with
  | [] => True
  | x :: _ => mem isalnum cs x = false
  end.

(** What the Unicode table says of four ASCII characters: newline, space,
    tab and backtick are not alphanumeric. *)
Definition plain_table (isalnum : char -> bool) : Prop :=
  isalnum LF = false /\ isalnum SP = false /\
  isalnum TAB = false /\ isalnum TICK = false.

(** The body of a block in its simplest form: not empty, without backtick,
    and without newline at either end. *)
Definition plain_body (body : text) : Prop :=
  body <> [] /\ ~ In TICK body /\ hd LF body <> LF /\ last body LF <> LF.

(** The marks set by the tag of a block. *)
Definition tag_marks (tag : text) : list (string * text) :=
  match tag with
  | [] => []
  | _ :: _ => [("code_class"%string, tag)]
  end.

(** ** The claims in the words of the specification *)

Module Spec.

(** A fenced block of the text [s]: an opening run of three or more
    backticks, an optional language tag on the same line, the body, and the
    same run of backticks closing it.  The runs are whole: no backtick
    stands before the opening one or after the closing one. *)
Definition fenced_block (s tag body : text) : Prop :=
  exists pre ticks post,
    s = pre ++ ticks ++ tag ++ NL ++ body ++ NL ++ ticks ++ post /\
    3 <= length ticks /\ Forall (eq TICK) ticks /\
    Forall (fun c => c <> TICK /\ c <> LF) tag /\
    (forall p, pre <> p ++ [TICK]) /\ (forall q, post <> TICK :: q).

(** The bodies extracted from [s] are exactly the bodies of its fenced
    blocks. *)
Definition extraction_exact (isalnum : char -> bool) (s : text) : Prop :=
  forall body,
    (exists tag, fenced_block s tag body) <->
    In (VStr body)
       (map (group_value "code_content") (finditer isalnum find_code_blocks s)).

(** Every block the pattern extracts from the first reply is run in the
    sandbox, in the order of the reply: the codes run after the function
    definitions, in a run that returns, are the contents of all the
    matches. *)
Definition runs_every_block (isalnum : char -> bool) (w : world) : Prop :=
  forall s,
    first_reply (trace (final isalnum w)) = Some (VStr s) ->
    ending isalnum w = Return tt ->
    tl (runs (trace (final isalnum w))) =
      map (group_value "code_content") (finditer isalnum find_code_blocks s).

(** The string kept for a run: stderr when it is non-empty, stdout otherwise. *)
Definition collects (ex : execution) (s : text) : Prop :=
  (error ex <> [] /\ s = error ex) \/ (error ex = [] /\ s = output ex).

(** A message whose content is non-empty text. *)
Definition nonempty_content (m : value) : Prop :=
  exists s, content_of m = Some (VStr s) /\ s <> [].

(** A message whose role is one of the two roles. *)
Definition known_role (m : value) : Prop :=
  role_of m = Some (VStr user) \/ role_of m = Some (VStr assistant).

End Spec.

(** ** Concrete worlds, for evaluating the script *)

(** [str.isalnum] on ASCII; no other character occurs in the examples. *)
Definition ascii_alnum (c : char) : bool :=
  ((48 <=? c) && (c <=? 57) || (65 <=? c) && (c <=? 90) ||
   (97 <=? c) && (c <=? 122))%N.

Definition reply_with (code : Z) (content : value) : result http_response :=
  Ok {| status := code;
        json := Ok (VDict [
          (txt "model", VStr model_name);
          (txt "message", VDict [(txt "role", VStr assistant);
                                 (txt "content", content)]);
          (txt "done", VBool true) ]) |}.

Definition weather_call : text :=
  txt "fetch_weather(place=" ++ quoted "Pune" ++ txt ")".

Definition weather_block : text :=
  txt "```python" ++ NL ++ weather_call ++ NL ++ txt "```".

Definition first_answer : text :=
  txt "I will look that up." ++ NL ++ NL ++ weather_block.

Definition weather_report : text :=
  txt "{'units': 'metric', 'condition': 'Sunny', 'temperature': 31}".

Definition last_answer : text := txt "It is sunny in Pune, 31 degrees.".

(** A server that asks for one function call and then answers; a sandbox
    that prints the weather. *)
Definition demo_world : world := {|
  session_post := fun tr _ _ =>
    match posts tr with
    | [] => reply_with 200 (VStr first_answer)
    | _ :: _ => reply_with 200 (VStr last_answer)
    end;
  sandbox_start := fun _ => Ok tt;
  sandbox_run := fun tr _ =>
    match runs tr with
    | [] => Ok {| output := []; error := [] |}
    | _ :: _ => Ok {| output := weather_report; error := [] |}
    end;
  sandbox_stop := fun _ => Ok tt;
  session_close := fun _ => Ok tt
|}.

(** A server that answers in plain words, without any code block. *)
Definition plain_world : world := {|
  session_post := fun _ _ _ => reply_with 200 (VStr (txt "Pune is usually warm."));
  sandbox_start := fun _ => Ok tt;
  sandbox_run := fun _ _ => Ok {| output := []; error := [] |};
  sandbox_stop := fun _ => Ok tt;
  session_close := fun _ => Ok tt
|}.

(** A server that answers every request with status 500. *)
Definition failing_world : world := {|
  session_post := fun _ _ _ => reply_with 500 (VStr (txt "Internal Server Error"));
  sandbox_start := fun _ => Ok tt;
  sandbox_run := fun _ _ => Ok {| output := []; error := [] |};
  sandbox_stop := fun _ => Ok tt;
  session_close := fun _ => Ok tt
|}.

(** The weather block with a blank after its closing fence. *)
Definition trailing_blank : text := weather_block ++ [SP].

(** An answer with the weather block and a block in another language. *)
Definition mixed_answer : text :=
  weather_block ++ NL ++
  txt "```js" ++ NL ++ txt "alert(1)" ++ NL ++ txt "```".

(** The demo world with that answer as first reply. *)
Definition mixed_world : world := {|
  session_post := fun tr _ _ =>
    match posts tr with
    | [] => reply_with 200 (VStr mixed_answer)
    | _ :: _ => reply_with 200 (VStr last_answer)
    end;
  sandbox_start := sandbox_start demo_world;
  sandbox_run := sandbox_run demo_world;
  sandbox_stop := sandbox_stop demo_world;
  session_close := session_close demo_world
|}.

(** Tag and body of every match, for the examples. *)
Definition tags_and_bodies (s : text) : list (option text * option text) :=
  map (fun m => (group "code_class" m, group "code_content" m))
      (finditer ascii_alnum find_code_blocks s).

(** The match of the pattern in [first_answer]. *)
Definition weather_match : match_object :=
  Eval vm_compute in
    hd (Match 0 0 []) (finditer ascii_alnum find_code_blocks first_answer).

(** ** Failed calls, and the answers of the world *)

(** The exception an outside call answered with, if it did. *)
Definition failure_of (ev : event) : option exn :=
  match ev with
  | Post _ _ (Err e) => Some e
  | Start (Err e) => Some e
  | Run _ (Err e) => Some e
  | Stop (Err e) => Some e
  | Close (Err e) => Some e
  | _ => None
  end.

(** The event [ev], made after the events [before], carries the answer of
    the world [w]. *)
Definition answer_of (w : world) (before : list event) (ev : event) : Prop :=
  match ev with
  | Post ep body reply => reply = session_post w before ep body
  | Start reply => reply = sandbox_start w before
  | Run code reply => reply = sandbox_run w before code
  | Stop reply => reply = sandbox_stop w before
  | Close reply => reply = session_close w before
  | ReadJson => True
  | Print _ => True
  end.

(** The events [evs], made after the events [before], each carry the
    answer of the world. *)
Fixpoint answered (w : world) (before evs : list event) : Prop :=
  match evs with
  | [] => True
  | ev :: evs' => answer_of w before ev /\ answered w (before ++ [ev]) evs'
  end.

(** A computation only adds events, each with the answer of the world. *)
Definition extends (w : world) {A} (m : M A) : Prop :=
  forall st, exists evs,
    trace (snd (m st)) = trace st ++ evs /\ answered w (trace st) evs.

(** No outside call of the trace failed. *)
Definition quiet (tr : list event) : Prop :=
  Forall (fun ev => failure_of ev = None) tr.

(** The last event of the trace is an outside call that failed with [e],
    and no call before it failed. *)
Inductive fails_last (e : exn) : list event -> Prop :=
| fails_here ev : failure_of ev = Some e -> fails_last e [ev]
| fails_later ev tr :
    failure_of ev = None -> fails_last e tr -> fails_last e (ev :: tr).

(** ** The parts of the pattern, and the text around a block *)

(** The matches [ms] lie one after the other between the positions [from]
    and [upto], each at least eight characters long. *)
Fixpoint laid_out (from : nat) (ms : list match_object) (upto : nat) : Prop :=
  match ms with
  | [] => from <= upto
  | m :: ms' =>
      from <= m_start m /\ m_start m + 8 <= m_end m /\ laid_out (m_end m) ms' upto
  end.

(** The text [v] closes a block opened by [fence]: newlines, the fence
    again, then a newline or the end of the text. *)
Definition closes (fence v : text) : Prop :=
  exists nl tail post,
    v = nl ++ fence ++ tail ++ post /\ newlines nl /\ line_end tail post.

(** How often the character [c] occurs in a text. *)
Definition occurrences (c : char) (s : text) : nat := @count_occ char N.eq_dec s c.

(** What follows the content in the pattern. *)
Definition closing_fence : regex :=
  Cat (plus (One LF))
      (Cat (NotBehind (One TICK)) (Cat (Ref "code_start") (NotAhead (lit TICK)))).

(** What follows the block in the pattern. *)
Definition block_end : regex := Alt (lit LF) EndOfText.

(** What stands before the block in the pattern. *)
Definition block_lead : regex := Opt (Alt (plus (One LF)) StartOfText).

(** The inside of the group [code_all]. *)
Definition block_inside : regex :=
  Cat code_start (Cat blanks (Cat info (Cat (plus (One LF))
    (Cat code_content closing_fence)))).

(** The end of the pattern after one way through [code_all] from [c1]. *)
Definition block_end_after (isalnum : char -> bool) (c1 x : cursor) : list cursor :=
  ways isalnum block_end (set_mark "code_all" (consumed c1 x) x).

(** The text after a block: nothing, or a new line. *)
Definition starts_line (outro : text) : Prop :=
  outro = [] \/ exists o, outro = LF :: o.

(** The text before a block: nothing, or lines that end. *)
Definition ends_line (intro : text) : Prop :=
  intro = [] \/ exists i, intro = i ++ [LF].

(** ** Texts made of blocks *)

(** One block of a text with the lines before it: [gap], then a fence of
    [ticks] backticks, the tag, the body on lines of its own, and the same
    fence. *)
Record fenced := {
  b_gap : text;
  b_ticks : nat;
  b_tag : text;
  b_body : text
}.

Definition block_text (b : fenced) : text :=
  repeat TICK (b_ticks b) ++ b_tag b ++ LF :: b_body b ++
  LF :: repeat TICK (b_ticks b).

(** The text made of the blocks [bs], each on lines of its own, and the
    text [outro] after the last. *)
Fixpoint document (bs : list fenced) (outro : text) : text :=
  match bs with
  | [] => outro
  | b :: bs' =>
      b_gap b ++ block_text b ++
      match bs' with
      | [] => outro
      | _ :: _ => LF :: document bs' outro
      end
  end.

(** A block in its simplest form after lines without backtick. *)
Definition simple_block (isalnum : char -> bool) (b : fenced) : Prop :=
  ~ In TICK (b_gap b) /\ ends_line (b_gap b) /\ 3 <= b_ticks b /\
  tag_chars isalnum (b_tag b) /\ plain_body (b_body b).

(** The tag of a block as the group [code_class] gives it. *)
Definition class_of (b : fenced) : option text :=
  match b_tag b with
  | [] => None
  | _ :: _ => Some (b_tag b)
  end.

(** The match [m] has the tag and the body of the block [b]. *)
Definition matches_block (m : match_object) (b : fenced) : Prop :=
  group "code_start" m = Some (repeat TICK (b_ticks b)) /\
  group "code_class" m = class_of b /\
  group "code_content" m = Some (b_body b).

(** Two calls and a block in another language between them. *)
Definition three_blocks : list fenced :=
  [ {| b_gap := txt "First:" ++ NL; b_ticks := 3; b_tag := python;
       b_body := txt "a()" |};
    {| b_gap := []; b_ticks := 4; b_tag := txt "js"; b_body := txt "b()" |};
    {| b_gap := txt "Then:" ++ NL ++ NL; b_ticks := 3; b_tag := python;
       b_body := txt "c(1)" ++ NL ++ txt "d(2)" |} ].

(** ** More worlds *)

(** A server whose reply has no ["message"]. *)
Definition keyless_world : world := {|
  session_post := fun _ _ _ =>
    Ok {| status := 200;
          json := Ok (VDict [(txt "error", VStr (txt "model not loaded"))]) |};
  sandbox_start := fun _ => Ok tt;
  sandbox_run := fun _ _ => Ok {| output := []; error := [] |};
  sandbox_stop := fun _ => Ok tt;
  session_close := fun _ => Ok tt
|}.

(** A server whose reply has [null] as content. *)
Definition null_world : world := {|
  session_post := fun _ _ _ => reply_with 200 VNone;
  sandbox_start := fun _ => Ok tt;
  sandbox_run := fun _ _ => Ok {| output := []; error := [] |};
  sandbox_stop := fun _ => Ok tt;
  session_close := fun _ => Ok tt
|}.

(** The demo server with a sandbox that cannot be started. *)
Definition no_sandbox_world : world := {|
  session_post := session_post demo_world;
  sandbox_start := fun _ => Err (Failure (txt "sandbox server not reachable"));
  sandbox_run := sandbox_run demo_world;
  sandbox_stop := sandbox_stop demo_world;
  session_close := session_close demo_world
|}.

(** * Facts *)

Ltac splits := repeat match goal with |- _ /\ _ => split end.

Lemma text_eqb_eq a b : text_eqb a b = true <-> a = b.
Proof.
  revert b. induction a as [|x a IH]; intros [|y b]; simpl;
    try (split; [discriminate|discriminate]); try tauto.
  rewrite andb_true_iff, N.eqb_eq, IH. split.
  - intros [-> ->]. reflexivity.
  - intros [= -> ->]. auto.
Qed.

(** ** The matcher *)

Section RegexFacts.

Variable isalnum : char -> bool.
Local Abbreviation ways := (ways isalnum).
Local Abbreviation all_in := (all_in isalnum).

Lemma span_refl c : span c [] c.
Proof. split; reflexivity. Qed.

Lemma span_trans c1 c2 c3 u v : span c1 u c2 -> span c2 v c3 -> span c1 (u ++ v) c3.
Proof.
  intros [H1 H2] [H3 H4]. split.
  - rewrite H1, H3. now rewrite app_assoc.
  - rewrite H4, H2, rev_app_distr. now rewrite app_assoc.
Qed.

Lemma span_set_mark c w c' n x : span c w c' -> span c w (set_mark n x c').
Proof. intros [H1 H2]. split; assumption. Qed.

Lemma span_consumed c w c' : span c w c' -> consumed c c' = w.
Proof.
  intros [_ H]. unfold consumed. rewrite H, length_app.
  replace (length (rev w) + length (seen c) - length (seen c))
    with (length (rev w) + 0) by lia.
  rewrite firstn_app_2. simpl. rewrite app_nil_r. apply rev_involutive.
Qed.

Lemma span_advance k c : k <= length (rest c) -> span c (firstn k (rest c)) (advance k c).
Proof.
  intros _. split; simpl.
  - symmetry. apply firstn_skipn.
  - reflexivity.
Qed.

Lemma stretch_spec cs hi s n :
  exists j, stretch isalnum cs hi n s = n + j /\ j <= length s /\
            all_in cs (firstn j s) /\
            (forall h, hi = Some h -> n <= h -> n + j <= h).
Proof.
  revert n. induction s as [|x s IH]; intros n; simpl.
  - exists 0. repeat split; auto; try lia. constructor.
  - destruct (below hi n && mem isalnum cs x) eqn:E.
    + apply andb_true_iff in E. destruct E as [Eb Em].
      destruct (IH (S n)) as (j & Hj & Hl & Ha & Hh).
      exists (S j). repeat split.
      * lia.
      * lia.
      * simpl. constructor; assumption.
      * intros h -> Hn. simpl in Eb. apply Nat.ltb_lt in Eb.
        specialize (Hh h eq_refl). lia.
    + exists 0. repeat split; try lia. constructor.
Qed.

Lemma in_counts k lo top g : In k (counts lo top g) -> lo <= k <= top.
Proof.
  unfold counts. intros H.
  assert (In k (seq lo (S top - lo))) as H'.
  { destruct g; [apply in_rev in H|]; assumption. }
  apply in_seq in H'. lia.
Qed.

Lemma all_in_firstn cs (s : text) :
  forall k j, k <= j -> all_in cs (firstn j s) -> all_in cs (firstn k s).
Proof.
  induction s as [|x s IH]; intros k j Hk H.
  - rewrite firstn_nil. constructor.
  - destruct k as [|k]; [constructor|].
    destruct j as [|j]; [lia|]. simpl in *.
    inversion H; subst. constructor; [assumption|].
    apply IH with (j := j); [lia|assumption].
Qed.

Lemma ways_rep cs lo hi g c c' :
  In c' (ways (Rep cs lo hi g) c) ->
  exists w, span c w c' /\ marks c' = marks c /\ all_in cs w /\
            lo <= length w /\ (forall h, hi = Some h -> length w <= h).
Proof.
  simpl. intros H. apply in_map_iff in H. destruct H as (k & <- & Hk).
  apply in_counts in Hk.
  destruct (stretch_spec cs hi (rest c) 0) as (j & Hj & Hl & Ha & Hh).
  simpl in Hj. rewrite Hj in Hk.
  exists (firstn k (rest c)). repeat split.
  - simpl. symmetry. apply firstn_skipn.
  - eapply all_in_firstn; [|eassumption]. lia.
  - rewrite length_firstn. lia.
  - intros h Hhi. rewrite length_firstn. specialize (Hh h Hhi). lia.
Qed.

Lemma ways_cat r1 r2 c c' :
  In c' (ways (Cat r1 r2) c) -> exists m, In m (ways r1 c) /\ In c' (ways r2 m).
Proof. simpl. intros H. apply in_flat_map in H. exact H. Qed.

Lemma ways_alt r1 r2 c c' :
  In c' (ways (Alt r1 r2) c) -> In c' (ways r1 c) \/ In c' (ways r2 c).
Proof. simpl. intros H. apply in_app_or in H. exact H. Qed.

Lemma ways_opt r c c' : In c' (ways (Opt r) c) -> In c' (ways r c) \/ c' = c.
Proof.
  simpl. intros H. apply in_app_or in H. destruct H as [H|[H|[]]]; auto.
Qed.

Lemma ways_grp n r c c' :
  In c' (ways (Grp n r) c) ->
  exists m, In m (ways r c) /\ c' = set_mark n (consumed c m) m.
Proof.
  simpl. intros H. apply in_map_iff in H. destruct H as (m & <- & Hm). eauto.
Qed.

Lemma starts_with_app w s : starts_with w s = true -> exists t, s = w ++ t.
Proof.
  revert s. induction w as [|a w IH]; intros s H.
  - exists s. reflexivity.
  - destruct s as [|b s]; simpl in H; [discriminate|].
    apply andb_true_iff in H. destruct H as [Hab H].
    apply N.eqb_eq in Hab. subst b.
    destruct (IH _ H) as (t & ->). exists t. reflexivity.
Qed.

Lemma ways_ref n c c' :
  In c' (ways (Ref n) c) ->
  exists w, lookup n (marks c) = Some w /\ span c w c' /\ marks c' = marks c.
Proof.
  simpl. destruct (lookup n (marks c)) as [w|]; [|intros []].
  destruct (starts_with w (rest c)) eqn:E; [|intros []].
  intros [<-|[]]. exists w. destruct (starts_with_app _ _ E) as (t & Ht).
  assert (firstn (length w) (rest c) = w) as Hf.
  { rewrite Ht. rewrite <- (Nat.add_0_r (length w)), firstn_app_2.
    simpl. apply app_nil_r. }
  repeat split; simpl.
  - rewrite <- Hf at 1. symmetry. apply firstn_skipn.
  - now rewrite Hf.
Qed.

Lemma ways_not_behind cs c c' :
  In c' (ways (NotBehind cs) c) ->
  c' = c /\ forall p q, seen c = p :: q -> mem isalnum cs p = false.
Proof.
  simpl. destruct (seen c) as [|p q].
  - intros [<-|[]]. split; [reflexivity|discriminate].
  - destruct (mem isalnum cs p) eqn:E; [intros []|].
    intros [<-|[]]. split; [reflexivity|]. intros ? ? [= <- <-]. exact E.
Qed.

Lemma ways_not_ahead r c c' :
  In c' (ways (NotAhead r) c) -> c' = c /\ ways r c = [].
Proof.
  simpl. destruct (ways r c); [|intros []]. intros [<-|[]]. auto.
Qed.

Lemma ways_start c c' : In c' (ways StartOfText c) -> c' = c /\ seen c = [].
Proof. simpl. destruct (seen c); [|intros []]. intros [<-|[]]. auto. Qed.

Lemma ways_end c c' : In c' (ways EndOfText c) -> c' = c /\ rest c = [].
Proof. simpl. destruct (rest c); [|intros []]. intros [<-|[]]. auto. Qed.

(** Every way of every pattern only moves forward. *)
Lemma ways_span r : forall c c', In c' (ways r c) -> exists w, span c w c'.
Proof.
  induction r; intros c c' H.
  - apply ways_rep in H. destruct H as (w & ? & _). eauto.
  - apply ways_cat in H. destruct H as (m & H1 & H2).
    destruct (IHr1 _ _ H1) as (u & ?), (IHr2 _ _ H2) as (v & ?).
    exists (u ++ v). eapply span_trans; eauto.
  - apply ways_alt in H. destruct H; eauto.
  - apply ways_opt in H. destruct H as [H| ->]; eauto. exists []. apply span_refl.
  - apply ways_grp in H. destruct H as (m & H & ->).
    destruct (IHr _ _ H) as (u & ?). exists u. now apply span_set_mark.
  - apply ways_ref in H. destruct H as (u & _ & ? & _). eauto.
  - apply ways_not_behind in H. destruct H as [-> _]. exists []. apply span_refl.
  - apply ways_not_ahead in H. destruct H as [-> _]. exists []. apply span_refl.
  - apply ways_start in H. destruct H as [-> _]. exists []. apply span_refl.
  - apply ways_end in H. destruct H as [-> _]. exists []. apply span_refl.
Qed.


(** ** The pattern *)

Lemma all_in_one x w : all_in (One x) w -> Forall (eq x) w.
Proof.
  unfold all_in. apply Forall_impl. intros a H. simpl in H.
  apply N.eqb_eq in H. congruence.
Qed.

Lemma ways_lit x c c' :
  In c' (ways (lit x) c) -> span c [x] c' /\ marks c' = marks c.
Proof.
  intros H. apply ways_rep in H. destruct H as (w & Hs & Hm & Ha & Hlo & Hhi).
  specialize (Hhi 1 eq_refl). apply all_in_one in Ha.
  destruct w as [|a [|b w]]; simpl in *; try lia.
  inversion Ha; subst. auto.
Qed.

Lemma ways_newlines c c' :
  In c' (ways (plus (One LF)) c) ->
  exists w, span c w c' /\ marks c' = marks c /\ newlines w.
Proof.
  intros H. apply ways_rep in H. destruct H as (w & Hs & Hm & Ha & Hlo & _).
  exists w. splits; auto. split.
  - intros ->. simpl in Hlo. lia.
  - now apply all_in_one.
Qed.

Lemma ways_blanks c c' :
  In c' (ways blanks c) -> exists w, span c w c' /\ marks c' = marks c /\ blank w.
Proof.
  intros H. apply ways_rep in H. destruct H as (w & Hs & Hm & Ha & _).
  exists w. splits; auto.
  revert Ha. apply Forall_impl. intros a Ha. simpl in Ha.
  rewrite orb_false_r in Ha. apply orb_true_iff in Ha.
  destruct Ha as [Ha|Ha]; apply N.eqb_eq in Ha; auto.
Qed.

Lemma ways_code_start c c' :
  In c' (ways code_start c) ->
  exists f, span c f c' /\ fence_text f /\
            marks c' = ("code_start"%string, f) :: marks c.
Proof.
  intros H. apply ways_grp in H. destruct H as (m & H & ->).
  apply ways_cat in H. destruct H as (m1 & H1 & H2).
  apply ways_rep in H1. destruct H1 as (sp & Hs1 & Hm1 & Ha1 & _ & Hhi1).
  apply ways_rep in H2. destruct H2 as (tk & Hs2 & Hm2 & Ha2 & Hlo2 & _).
  pose proof (span_trans Hs1 Hs2) as Hs.
  exists (sp ++ tk). rewrite (span_consumed Hs). splits.
  - exact Hs.
  - exists sp, tk. splits; auto.
    + revert Ha1. apply Forall_impl. intros a Ha. simpl in Ha.
      rewrite orb_false_r in Ha. apply N.eqb_eq in Ha. congruence.
    + now apply all_in_one.
  - simpl. congruence.
Qed.

Lemma ways_braces name c c' :
  In c' (ways (Cat blanks (Cat (lit LBRACE)
               (Cat (Grp name (plus (Except [Lit RBRACE]))) (lit RBRACE)))) c) ->
  exists a x, span c a c' /\ braces a x /\ marks c' = (name, x) :: marks c.
Proof.
  intros H.
  apply ways_cat in H. destruct H as (c1 & H1 & H).
  apply ways_cat in H. destruct H as (c2 & H2 & H).
  apply ways_cat in H. destruct H as (c3 & H3 & H4).
  apply ways_blanks in H1. destruct H1 as (bl & Hs1 & Hm1 & Hbl).
  apply ways_lit in H2. destruct H2 as (Hs2 & Hm2).
  apply ways_grp in H3. destruct H3 as (m & H3 & ->).
  apply ways_rep in H3. destruct H3 as (x & Hs3 & Hm3 & Ha3 & Hlo3 & _).
  apply ways_lit in H4. destruct H4 as (Hs4 & Hm4).
  rewrite (span_consumed Hs3) in *.
  pose proof (span_set_mark name x Hs3) as Hs3'.
  pose proof (span_trans Hs1 (span_trans Hs2 (span_trans Hs3' Hs4))) as Hs.
  exists (bl ++ [LBRACE] ++ x ++ [RBRACE]), x. splits.
  - exact Hs.
  - exists bl. splits; auto.
    + intros ->. simpl in Hlo3. lia.
    + intros Hin. unfold all_in in Ha3. rewrite Forall_forall in Ha3.
      specialize (Ha3 _ Hin). vm_compute in Ha3. discriminate.
  - rewrite Hm4. simpl. congruence.
Qed.

Lemma ways_code_class c c' :
  In c' (ways code_class c) ->
  exists t, span c t c' /\ tag_text isalnum t /\
            marks c' = ("code_class"%string, t) :: marks c.
Proof.
  intros H. apply ways_grp in H. destruct H as (m & H & ->).
  apply ways_rep in H. destruct H as (t & Hs & Hm & Ha & Hlo & _).
  exists t. rewrite (span_consumed Hs). splits.
  - exact Hs.
  - split.
    + intros ->. simpl in Hlo. lia.
    + revert Ha. apply Forall_impl. intros a Ha. simpl in Ha.
    rewrite orb_false_r in Ha.
      apply orb_true_iff in Ha. destruct Ha as [Ha|Ha]; auto.
      apply orb_true_iff in Ha. destruct Ha as [Ha|Ha]; apply N.eqb_eq in Ha; auto.
  - simpl. congruence.
Qed.

Lemma ways_info c c' :
  In c' (ways info c) ->
  exists line ms, span c line c' /\ info_line isalnum ms line /\
                  marks c' = ms ++ marks c.
Proof.
  intros H. apply ways_opt in H. destruct H as [H| ->].
  - apply ways_alt in H. destruct H as [H|H].
    + apply ways_cat in H. destruct H as (c1 & H1 & H2).
      apply ways_code_class in H1. destruct H1 as (t & Hs1 & Ht & Hm1).
      apply ways_opt in H2. destruct H2 as [H2| ->].
      * apply ways_braces in H2. destruct H2 as (a & x & Hs2 & Hb & Hm2).
        exists (t ++ a), [("code_def_a"%string, x); ("code_class"%string, t)].
        splits.
        -- exact (span_trans Hs1 Hs2).
        -- now constructor.
        -- simpl. congruence.
      * exists t, [("code_class"%string, t)]. splits.
        -- exact Hs1.
        -- now constructor.
        -- simpl. congruence.
    + apply ways_braces in H. destruct H as (a & x & Hs & Hb & Hm).
      exists a, [("code_def_b"%string, x)]. splits.
      * exact Hs.
      * now constructor.
      * simpl. congruence.
  - exists [], []. splits.
    + apply span_refl.
    + constructor.
    + reflexivity.
Qed.

Lemma info_line_keeps_start ms line tail :
  info_line isalnum ms line ->
  lookup "code_start" (ms ++ tail) = lookup "code_start" tail.
Proof. intros H. destruct H; reflexivity. Qed.

Lemma ways_code_content c c' :
  In c' (ways code_content c) ->
  exists body, span c body c' /\
               marks c' = ("code_content"%string, body) :: marks c.
Proof.
  intros H. apply ways_grp in H. destruct H as (m & H & ->).
  apply ways_rep in H. destruct H as (t & Hs & Hm & _).
  exists t. rewrite (span_consumed Hs). splits.
  - exact Hs.
  - simpl. congruence.
Qed.

(** What one way of [code_all] has read and captured. *)
Lemma ways_code_all c c' :
  In c' (ways code_all c) ->
  exists fence bl line ms nl1 body nl2,
    let all := fence ++ bl ++ line ++ nl1 ++ body ++ nl2 ++ fence in
    span c all c' /\
    fence_text fence /\ blank bl /\ info_line isalnum ms line /\
    newlines nl1 /\ newlines nl2 /\
    marks c' =
      ("code_all"%string, all) :: ("code_content"%string, body) ::
      ms ++ ("code_start"%string, fence) :: marks c.
Proof.
  intros H. apply ways_grp in H. destruct H as (m & H & ->).
  apply ways_cat in H. destruct H as (c1 & H1 & H).
  apply ways_cat in H. destruct H as (c2 & H2 & H).
  apply ways_cat in H. destruct H as (c3 & H3 & H).
  apply ways_cat in H. destruct H as (c4 & H4 & H).
  apply ways_cat in H. destruct H as (c5 & H5 & H).
  apply ways_cat in H. destruct H as (c6 & H6 & H).
  apply ways_cat in H. destruct H as (c7 & H7 & H).
  apply ways_cat in H. destruct H as (c8 & H8 & H9).
  apply ways_code_start in H1. destruct H1 as (fence & Hs1 & Hf & Hm1).
  apply ways_blanks in H2. destruct H2 as (bl & Hs2 & Hm2 & Hbl).
  apply ways_info in H3. destruct H3 as (line & ms & Hs3 & Hi & Hm3).
  apply ways_newlines in H4. destruct H4 as (nl1 & Hs4 & Hm4 & Hn1).
  apply ways_code_content in H5. destruct H5 as (body & Hs5 & Hm5).
  apply ways_newlines in H6. destruct H6 as (nl2 & Hs6 & Hm6 & Hn2).
  apply ways_not_behind in H7. destruct H7 as (-> & _).
  apply ways_ref in H8. destruct H8 as (f' & Hl & Hs8 & Hm8).
  apply ways_not_ahead in H9. destruct H9 as (-> & _).
  assert (f' = fence) as ->.
  { rewrite Hm6, Hm5, Hm4, Hm3, Hm2, Hm1 in Hl. simpl in Hl.
    rewrite (info_line_keeps_start _ Hi) in Hl. simpl in Hl. congruence. }
  pose proof (span_trans Hs1 (span_trans Hs2 (span_trans Hs3 (span_trans Hs4
               (span_trans Hs5 (span_trans Hs6 Hs8)))))) as Hs.
  exists fence, bl, line, ms, nl1, body, nl2. cbv zeta.
  rewrite (span_consumed Hs). splits; auto.
  simpl. rewrite Hm8, Hm6, Hm5, Hm4, Hm3, Hm2, Hm1. reflexivity.
Qed.


Lemma ways_find_code_blocks c c' :
  marks c = [] ->
  In c' (ways find_code_blocks c) ->
  exists lead fence bl line ms nl1 body nl2 tail,
    let all := fence ++ bl ++ line ++ nl1 ++ body ++ nl2 ++ fence in
    span c (lead ++ all ++ tail) c' /\
    Forall (eq LF) lead /\
    fence_text fence /\ blank bl /\ info_line isalnum ms line /\
    newlines nl1 /\ newlines nl2 /\ line_end tail (rest c') /\
    marks c' =
      ("code_all"%string, all) :: ("code_content"%string, body) ::
      ms ++ [("code_start"%string, fence)].
Proof.
  intros Hc H.
  apply ways_cat in H. destruct H as (c1 & H1 & H).
  apply ways_cat in H. destruct H as (c2 & H2 & H3).
  assert (exists lead, span c lead c1 /\ marks c1 = marks c /\ Forall (eq LF) lead)
    as (lead & Hs1 & Hm1 & Hlead).
  { apply ways_opt in H1. destruct H1 as [H1| ->].
    - apply ways_alt in H1. destruct H1 as [H1|H1].
      + apply ways_newlines in H1. destruct H1 as (w & ? & ? & ? & ?). eauto.
      + apply ways_start in H1. destruct H1 as (-> & _).
        exists []. splits; auto. apply span_refl.
    - exists []. splits; auto. apply span_refl. }
  apply ways_code_all in H2.
  destruct H2 as (fence & bl & line & ms & nl1 & body & nl2 & H2).
  cbv zeta in H2. destruct H2 as (Hs2 & Hf & Hbl & Hi & Hn1 & Hn2 & Hm2).
  assert (exists tail, span c2 tail c' /\ marks c' = marks c2 /\ line_end tail (rest c'))
    as (tail & Hs3 & Hm3 & Htail).
  { apply ways_alt in H3. destruct H3 as [H3|H3].
    - apply ways_lit in H3. destruct H3 as (? & ?). exists [LF]. splits; auto.
      now left.
    - apply ways_end in H3. destruct H3 as (-> & ?). exists []. splits; auto.
      + apply span_refl.
      + now right. }
  exists lead, fence, bl, line, ms, nl1, body, nl2, tail. cbv zeta.
  splits; auto.
  - exact (span_trans Hs1 (span_trans Hs2 Hs3)).
  - rewrite Hm3, Hm2, Hm1, Hc. reflexivity.
Qed.

(** A way of the pattern always reads something. *)
Lemma find_code_blocks_progress c c' :
  marks c = [] -> In c' (ways find_code_blocks c) -> length (rest c') < length (rest c).
Proof.
  intros Hc H. apply ways_find_code_blocks in H; [|exact Hc].
  destruct H as (lead & fence & bl & line & ms & nl1 & body & nl2 & tail & H).
  cbv zeta in H. destruct H as ((Hr & _) & _ & Hf & _).
  destruct Hf as (sp & tk & -> & _ & _ & _ & Htk).
  rewrite Hr. repeat rewrite length_app. lia.
Qed.

(** Every match reported by [finditer] is the first way of the pattern at
    some position of the text. *)
Lemma scan_first r before after m :
  In m (scan isalnum r before after) ->
  exists skipped ahead c',
    after = skipped ++ ahead /\
    hd_error (ways r (Cursor (rev skipped ++ before) ahead [])) = Some c' /\
    m = found (Cursor (rev skipped ++ before) ahead []) c'.
Proof.
  funelim (scan isalnum r before after); intros Hin.
  - destruct Hin.
  - apply H in Hin. destruct Hin as (sk & ah & c' & -> & Hw & ->).
    exists (x :: sk), ah, c'. simpl. rewrite <- app_assoc. simpl. auto.
  - destruct Hin as [<-|Hin].
    + exists [], after, c'. simpl. rewrite Heq0. auto.
    + apply H in Hin. destruct Hin as (sk & ah & c2 & Hr & Hw & ->).
      destruct (@ways_span r (Cursor before after []) c') as (u & Hu1 & Hu2).
      { rewrite Heq0. now left. }
      simpl in Hu1, Hu2. rewrite Hu2 in *.
      exists (u ++ sk), ah, c2. rewrite rev_app_distr, <- !app_assoc.
      splits; auto. rewrite Hu1, Hr. reflexivity.
  - destruct Hin as [<-|[]]. exists [], [], c'. simpl. rewrite Heq0. auto.
  - destruct Hin as [<-|Hin].
    + exists [], (x :: after'), c'. simpl. rewrite Heq0. auto.
    + apply H in Hin. destruct Hin as (sk & ah & c2 & -> & Hw & ->).
      exists (x :: sk), ah, c2. simpl. rewrite <- app_assoc. simpl. auto.
Qed.

(** The shape of every match of the script's pattern. *)
Lemma finditer_block_at s m :
  In m (finditer isalnum find_code_blocks s) -> block_at isalnum s m.
Proof.
  unfold finditer. intros H. apply scan_first in H.
  destruct H as (pre & ahead & c' & -> & Hw & ->).
  rewrite app_nil_r in Hw.
  assert (In c' (ways find_code_blocks (Cursor (rev pre) ahead []))) as Hin.
  { destruct (ways find_code_blocks (Cursor (rev pre) ahead [])); [discriminate|].
    injection Hw as ->. now left. }
  apply ways_find_code_blocks in Hin; [|reflexivity].
  destruct Hin as (lead & fence & bl & line & ms & nl1 & body & nl2 & tail & Hin).
  cbv zeta in Hin.
  destruct Hin as ((Hr & Hseen) & Hlead & Hf & Hbl & Hi & Hn1 & Hn2 & Hend & Hm).
  simpl in Hr, Hseen.
  exists pre, lead, fence, bl, line, ms, nl1, body, nl2, tail, (rest c').
  cbv zeta. splits; auto.
  - rewrite Hr. now rewrite <- !app_assoc.
  - simpl. rewrite app_nil_r. apply length_rev.
  - simpl. rewrite Hseen, length_app, !length_rev.
    rewrite (length_app pre). rewrite <- !app_assoc. lia.
Qed.

(** ** The first way *)

Lemma scan_step r before after :
  scan isalnum r before after =
  match ways r (Cursor before after []) with
  | c' :: _ =>
      if lt_dec (length (rest c')) (length after)
      then found (Cursor before after []) c' :: scan isalnum r (seen c') (rest c')
      else match after with
           | [] => [found (Cursor before after []) c']
           | x :: after' =>
               found (Cursor before after []) c' :: scan isalnum r (x :: before) after'
           end
  | [] => match after with
          | [] => []
          | x :: after' => scan isalnum r (x :: before) after'
          end
  end.
Proof.
  funelim (scan isalnum r before after).
  all: try rewrite Heq0; try rewrite Heq; reflexivity.
Qed.

Lemma first_cat r1 r2 c c1 c2 :
  first_way isalnum r1 c c1 -> first_way isalnum r2 c1 c2 ->
  first_way isalnum (Cat r1 r2) c c2.
Proof.
  intros [l1 H1] [l2 H2]. unfold first_way. simpl.
  rewrite H1. simpl. rewrite H2. simpl. eauto.
Qed.

Lemma flat_map_none A B (f : A -> list B) l :
  (forall p, In p l -> f p = []) -> flat_map f l = [].
Proof.
  induction l as [|p l IH]; intros H; [reflexivity|].
  simpl. rewrite H by now left. apply IH. intros q Hq. apply H. now right.
Qed.

(** Backtracking: the ways of [r1] that [r2] cannot continue are passed. *)
Lemma first_cat_after r1 r2 c failed c1 l c2 :
  ways r1 c = failed ++ c1 :: l ->
  (forall p, In p failed -> ways r2 p = []) ->
  first_way isalnum r2 c1 c2 -> first_way isalnum (Cat r1 r2) c c2.
Proof.
  intros H1 Hf [l2 H2]. unfold first_way. simpl. rewrite H1.
  rewrite flat_map_app, (flat_map_none _ _ Hf). simpl. rewrite H2.
  simpl. eauto.
Qed.

Lemma first_alt_left r1 r2 c c' :
  first_way isalnum r1 c c' -> first_way isalnum (Alt r1 r2) c c'.
Proof. intros [l H]. unfold first_way. simpl. rewrite H. simpl. eauto. Qed.

Lemma first_alt_right r1 r2 c c' :
  ways r1 c = [] -> first_way isalnum r2 c c' -> first_way isalnum (Alt r1 r2) c c'.
Proof. intros H1 [l H]. unfold first_way. simpl. rewrite H1, H. simpl. eauto. Qed.

Lemma first_opt r c c' : first_way isalnum r c c' -> first_way isalnum (Opt r) c c'.
Proof. intros [l H]. unfold first_way. simpl. rewrite H. simpl. eauto. Qed.

Lemma first_opt_skip r c : ways r c = [] -> first_way isalnum (Opt r) c c.
Proof. intros H. unfold first_way. simpl. rewrite H. simpl. eauto. Qed.

Lemma first_grp n r c c' :
  first_way isalnum r c c' -> first_way isalnum (Grp n r) c (set_mark n (consumed c c') c').
Proof. intros [l H]. unfold first_way. simpl. rewrite H. simpl. eauto. Qed.

Lemma no_cat_left r1 r2 c : ways r1 c = [] -> ways (Cat r1 r2) c = [].
Proof. intros H. simpl. now rewrite H. Qed.

Lemma no_cat_right r1 r2 c c1 :
  ways r1 c = [c1] -> ways r2 c1 = [] -> ways (Cat r1 r2) c = [].
Proof. intros H1 H2. simpl. rewrite H1. simpl. now rewrite H2. Qed.

Lemma stretch_stops cs hi k v : stops isalnum cs v -> stretch isalnum cs hi k v = k.
Proof.
  destruct v as [|x v]; simpl; [reflexivity|]. intros ->.
  now rewrite andb_false_r.
Qed.

Lemma stretch_exact cs u v :
  all_in cs u -> stops isalnum cs v ->
  forall k, stretch isalnum cs None k (u ++ v) = k + length u.
Proof.
  intros Hu Hv. induction Hu as [|x u Hx Hu IH]; intros k; simpl.
  - rewrite stretch_stops by assumption. lia.
  - rewrite Hx. simpl. rewrite IH. lia.
Qed.

Lemma counts_greedy lo top : lo <= top -> exists l, counts lo top true = top :: l.
Proof.
  intros H. unfold counts. replace (S top - lo) with (S (top - lo)) by lia.
  rewrite seq_S, rev_app_distr. simpl.
  replace (lo + (top - lo)) with top by lia. eauto.
Qed.

Lemma advance_exact u v sn mk :
  advance (length u) (Cursor sn (u ++ v) mk) = Cursor (rev u ++ sn) v mk.
Proof.
  unfold advance. simpl.
  rewrite <- (Nat.add_0_r (length u)) at 1. rewrite firstn_app_2. simpl.
  rewrite app_nil_r. now rewrite skipn_app, skipn_all, Nat.sub_diag.
Qed.

Lemma ways_rep_eq cs lo hi g c :
  ways (Rep cs lo hi g) c =
  map (fun k => advance k c) (counts lo (stretch isalnum cs hi 0 (rest c)) g).
Proof. reflexivity. Qed.

(** A greedy unbounded repetition first takes the whole run. *)
Lemma first_rep cs lo u v sn mk :
  all_in cs u -> stops isalnum cs v -> lo <= length u ->
  first_way isalnum (Rep cs lo None true) (Cursor sn (u ++ v) mk) (Cursor (rev u ++ sn) v mk).
Proof.
  intros Hu Hv Hlo. unfold first_way. rewrite ways_rep_eq. cbn [rest].
  rewrite stretch_exact by assumption. cbn [Nat.add].
  destruct (counts_greedy Hlo) as (l & ->). cbn [map].
  rewrite advance_exact. eauto.
Qed.

(** Where no character of the class is ahead, a repetition that needs one
    has no way, and one that needs none stays. *)
Lemma no_rep cs lo hi g sn v mk :
  stops isalnum cs v -> 1 <= lo -> ways (Rep cs lo hi g) (Cursor sn v mk) = [].
Proof.
  intros Hv Hlo. rewrite ways_rep_eq. cbn [rest].
  rewrite stretch_stops by assumption.
  unfold counts. replace (1 - lo) with 0 by lia. simpl. now destruct g.
Qed.

Lemma rep_stays cs hi sn v mk :
  stops isalnum cs v -> ways (Rep cs 0 hi true) (Cursor sn v mk) = [Cursor sn v mk].
Proof.
  intros Hv. rewrite ways_rep_eq. cbn [rest].
  rewrite stretch_stops by assumption. reflexivity.
Qed.

Lemma stretch_any k s : stretch isalnum Any None k s = k + length s.
Proof.
  rewrite <- (app_nil_r s) at 1. apply stretch_exact; [|exact I].
  apply Forall_forall. reflexivity.
Qed.

Lemma ways_grp_eq name r c :
  ways (Grp name r) c = map (fun c' => set_mark name (consumed c c') c') (ways r c).
Proof. reflexivity. Qed.

Lemma starts_with_self w t : starts_with w (w ++ t) = true.
Proof.
  induction w as [|x w IH]; simpl; [reflexivity|]. now rewrite N.eqb_refl.
Qed.

(** A back-reference reads the text of its group. *)
Lemma ref_way name w t sn mk :
  lookup name mk = Some w ->
  ways (Ref name) (Cursor sn (w ++ t) mk) = [Cursor (rev w ++ sn) t mk].
Proof.
  intros H. simpl. rewrite H, starts_with_self, advance_exact. reflexivity.
Qed.

End RegexFacts.

(** ** A text that is one block *)

Lemma last_of_app (a b : text) d : b <> [] -> last (a ++ b) d = last b d.
Proof.
  intros Hb. induction a as [|x a IH]; [reflexivity|].
  simpl. rewrite IH. destruct (a ++ b) eqn:E; [|reflexivity].
  apply app_eq_nil in E. destruct E. contradiction.
Qed.

(** A run of newlines that starts inside a text whose last character is not
    a newline ends inside it. *)
Lemma newline_run_inside (w r f : text) :
  forall b, b <> [] -> last b LF <> LF -> Forall (eq LF) w ->
  w ++ r = b ++ LF :: f -> exists y r', r = y :: r' /\ In y b.
Proof.
  induction w as [|x w IH]; intros b Hb Hlast Hw H.
  - destruct b as [|y b]; [contradiction|]. simpl in H. subst r.
    exists y, (b ++ LF :: f). split; [reflexivity|now left].
  - inversion Hw; subst. destruct b as [|y b]; [contradiction|].
    simpl in H. injection H as <- H.
    destruct b as [|z b].
    + simpl in Hlast. contradiction.
    + destruct (IH (z :: b)) as (y' & r' & -> & Hin); auto; try discriminate.
      exists y', r'. split; [reflexivity|now right].
Qed.

Section Canonical.
Variable isalnum : char -> bool.
Local Abbreviation ways := (ways isalnum).

Hypothesis Htable : plain_table isalnum.

Variable n : nat.
Variables tag body : text.
Hypothesis Hn : 3 <= n.
Hypothesis Htag : tag_chars isalnum tag.
Hypothesis Hbody : plain_body body.

Let fence : text := repeat TICK n.

Lemma fence_ticks : all_in isalnum (One TICK) fence.
Proof.
  unfold fence, all_in. apply Forall_forall. intros x Hx.
  apply repeat_spec in Hx. subst x. reflexivity.
Qed.

Lemma fence_head : exists f, fence = TICK :: f.
Proof. unfold fence. destruct n as [|k]; [lia|]. simpl. eauto. Qed.

Lemma tag_char x :
  In x tag -> x <> LF /\ x <> SP /\ x <> TAB /\ x <> TICK.
Proof.
  intros Hx. pose proof Htag as Ht. unfold tag_chars in Ht.
  rewrite Forall_forall in Ht. specialize (Ht _ Hx).
  destruct Htable as (H1 & H2 & H3 & H4).
  repeat split; intros ->; unfold is_word in Ht;
    rewrite ?H1, ?H2, ?H3, ?H4 in Ht;
    destruct Ht as [Hw|[Hw|Hw]]; discriminate.
Qed.

Lemma tag_in_class : all_in isalnum (Among [Word; Lit MINUS; Lit DOT]) tag.
Proof.
  unfold all_in. pose proof Htag as Ht. revert Ht. apply Forall_impl.
  intros x Hx. simpl.
  destruct Hx as [->|[->| ->]]; try reflexivity.
  - rewrite orb_true_r. reflexivity.
  - rewrite !orb_true_r. reflexivity.
Qed.

(** The text after the opening fence. *)
Let after_fence : text := tag ++ LF :: body ++ LF :: fence.

Lemma after_fence_head cs :
  mem isalnum cs LF = false ->
  (forall x, x <> LF -> x <> SP -> x <> TAB -> x <> TICK -> mem isalnum cs x = false) ->
  stops isalnum cs after_fence.
Proof.
  intros HLF Hcs. unfold after_fence. pose proof tag_char as Hc.
  destruct tag as [|x t]; simpl; auto.
  destruct (Hc x) as (? & ? & ? & ?); [now left|]. auto.
Qed.

Lemma first_of_single r c c' : ways r c = [c'] -> first_way isalnum r c c'.
Proof. intros H. exists []. exact H. Qed.

Lemma no_grp name r c : ways r c = [] -> ways (Grp name r) c = [].
Proof. intros H. simpl. now rewrite H. Qed.

Lemma no_alt r1 r2 c : ways r1 c = [] -> ways r2 c = [] -> ways (Alt r1 r2) c = [].
Proof. intros H1 H2. simpl. now rewrite H1, H2. Qed.

Lemma first_code_start sn mk :
  first_way isalnum code_start
    (Cursor sn (fence ++ after_fence) mk)
    (Cursor (rev fence ++ sn) after_fence (("code_start"%string, fence) :: mk)).
Proof.
  set (c := Cursor sn (fence ++ after_fence) mk).
  set (c1 := Cursor (rev fence ++ sn) after_fence mk).
  assert (first_way isalnum
            (Cat (Rep (Among [Lit SP]) 0 (Some 3) true) (Rep (One TICK) 3 None true))
            c c1) as H.
  { apply first_cat with (c1 := c).
    - apply first_of_single. apply rep_stays.
      destruct fence_head as (f & ->). reflexivity.
    - apply first_rep.
      + apply fence_ticks.
      + apply after_fence_head; [reflexivity|].
        intros x _ _ _ Hx. simpl. now apply N.eqb_neq.
      + unfold fence. rewrite repeat_length. exact Hn. }
  apply first_grp with (n := "code_start"%string) in H.
  rewrite (@span_consumed c fence c1) in H by (split; reflexivity).
  exact H.
Qed.

Lemma blanks_stay sn mk :
  ways blanks (Cursor sn after_fence mk) = [Cursor sn after_fence mk].
Proof.
  apply rep_stays. apply after_fence_head; [reflexivity|].
  intros x _ Hsp Htab _. simpl.
  apply N.eqb_neq in Hsp, Htab. now rewrite Hsp, Htab.
Qed.

(** No braced attribute starts at a newline. *)
Lemma no_braces name sn v mk :
  ways (Cat blanks (Cat (lit LBRACE)
          (Cat (Grp name (plus (Except [Lit RBRACE]))) (lit RBRACE))))
       (Cursor sn (LF :: v) mk) = [].
Proof.
  apply no_cat_right with (c1 := Cursor sn (LF :: v) mk).
  - apply rep_stays. reflexivity.
  - apply no_cat_left. apply no_rep; [reflexivity|lia].
Qed.

Lemma newline_outside_class :
  mem isalnum (Among [Word; Lit MINUS; Lit DOT]) LF = false.
Proof.
  destruct Htable as (H & _). simpl. unfold is_word. rewrite H. reflexivity.
Qed.

Lemma first_info sn mk :
  first_way isalnum info
    (Cursor sn after_fence mk)
    (Cursor (rev tag ++ sn) (LF :: body ++ LF :: fence) (tag_marks tag ++ mk)).
Proof.
  unfold info, after_fence. pose proof tag_in_class as Hclass.
  destruct tag as [|x t]; cbn [app rev tag_marks].
  - apply first_opt_skip, no_alt.
    + apply no_cat_left, no_grp, no_rep; [|lia].
      apply newline_outside_class.
    + apply no_braces.
  - apply first_opt, first_alt_left.
    set (c := Cursor sn ((x :: t) ++ LF :: body ++ LF :: fence) mk).
    set (c1 := Cursor (rev (x :: t) ++ sn) (LF :: body ++ LF :: fence) mk).
    assert (first_way isalnum code_class c (set_mark "code_class" (x :: t) c1)) as H.
    { rewrite <- (@span_consumed c (x :: t) c1) by (split; reflexivity).
      apply first_grp. apply first_rep.
      - exact Hclass.
      - apply newline_outside_class.
      - simpl. lia. }
    eapply first_cat; [exact H|].
    apply first_opt_skip. apply no_braces.
Qed.

Lemma first_newline sn v mk :
  stops isalnum (One LF) v ->
  first_way isalnum (plus (One LF)) (Cursor sn (LF :: v) mk) (Cursor (LF :: sn) v mk).
Proof.
  intros Hv. apply (@first_rep isalnum (One LF) 1 [LF] v sn mk); auto.
  repeat constructor.
Qed.

Lemma body_head_stops : stops isalnum (One LF) (body ++ LF :: fence).
Proof.
  destruct Hbody as (Hne & _ & Hhd & _). destruct body as [|b0 b]; [contradiction|].
  simpl in *. now apply N.eqb_neq.
Qed.

(** What follows the content: newlines, the closing fence, no backtick. *)
Let closing_part : regex :=
  Cat (plus (One LF))
      (Cat (NotBehind (One TICK)) (Cat (Ref "code_start") (NotAhead (lit TICK)))).

Lemma first_closing sn mk :
  lookup "code_start" mk = Some fence ->
  first_way isalnum closing_part
    (Cursor sn (LF :: fence) mk) (Cursor (rev fence ++ LF :: sn) [] mk).
Proof.
  intros Hmk. unfold closing_part.
  eapply first_cat.
  { apply first_newline. destruct fence_head as (f & ->). reflexivity. }
  eapply first_cat.
  { apply first_of_single. reflexivity. }
  eapply first_cat.
  { apply first_of_single.
    pose proof (@ref_way isalnum "code_start" fence [] (LF :: sn) mk Hmk) as R.
    rewrite app_nil_r in R. exact R. }
  apply first_of_single. reflexivity.
Qed.

(** A shorter content cannot be closed: the closing fence is not there. *)
Lemma no_closing_inside sn mk k :
  lookup "code_start" mk = Some fence ->
  k < length body ->
  ways closing_part
    (set_mark "code_content"
       (consumed (Cursor sn (body ++ LF :: fence) mk)
                 (advance k (Cursor sn (body ++ LF :: fence) mk)))
       (advance k (Cursor sn (body ++ LF :: fence) mk))) = [].
Proof.
  intros Hmk Hk.
  match goal with |- ways _ ?p = [] => set (p0 := p) end.
  destruct (ways closing_part p0) as [|q l] eqn:E; [reflexivity|exfalso].
  assert (In q (ways closing_part p0)) as Hq by (rewrite E; now left).
  unfold closing_part in Hq.
  apply ways_cat in Hq. destruct Hq as (q1 & H1 & Hq).
  apply ways_cat in Hq. destruct Hq as (q2 & H2 & Hq).
  apply ways_cat in Hq. destruct Hq as (q3 & H3 & _).
  apply ways_newlines in H1. destruct H1 as (w & (Hrest & _) & Hm1 & _ & Hw).
  apply ways_not_behind in H2. destruct H2 as (-> & _).
  apply ways_ref in H3. destruct H3 as (f' & Hl & (Hr3 & _) & _).
  rewrite Hm1 in Hl. simpl in Hl. rewrite Hmk in Hl. injection Hl as <-.
  simpl in Hrest. rewrite skipn_app in Hrest.
  replace (k - length body) with 0 in Hrest by lia. simpl in Hrest.
  destruct Hbody as (_ & Hticks & _ & Hlast).
  destruct (@newline_run_inside w (rest q1) fence (skipn k body)) as (y & r' & Hy & Hin).
  - intros Hnil. apply (f_equal (@length char)) in Hnil.
    rewrite length_skipn in Hnil. simpl in Hnil. lia.
  - rewrite <- (firstn_skipn k body) in Hlast.
    rewrite last_of_app in Hlast; [exact Hlast|].
    intros Hnil. apply (f_equal (@length char)) in Hnil.
    rewrite length_skipn in Hnil. simpl in Hnil. lia.
  - exact Hw.
  - symmetry. exact Hrest.
  - rewrite Hr3 in Hy. destruct fence_head as (f & Hf). rewrite Hf in Hy.
    injection Hy as <- _. apply Hticks.
    rewrite <- (firstn_skipn k body). apply in_or_app. now right.
Qed.

Lemma tag_marks_keep_start mk :
  lookup "code_start" (tag_marks tag ++ ("code_start"%string, fence) :: mk) = Some fence.
Proof. destruct tag; reflexivity. Qed.

Lemma first_content sn mk :
  lookup "code_start" mk = Some fence ->
  first_way isalnum (Cat code_content closing_part)
    (Cursor sn (body ++ LF :: fence) mk)
    (Cursor (rev fence ++ LF :: rev body ++ sn) []
            (("code_content"%string, body) :: mk)).
Proof.
  intros Hmk.
  set (c := Cursor sn (body ++ LF :: fence) mk).
  set (g := fun k => set_mark "code_content" (consumed c (advance k c)) (advance k c)).
  set (L := length (body ++ LF :: fence)).
  assert (ways code_content c = map g (seq 0 (S L))) as Hways.
  { unfold code_content, lazy_star.
    rewrite ways_grp_eq, ways_rep_eq, map_map, stretch_any.
    unfold counts. cbn [Nat.add rest c].
    replace (S (length (body ++ LF :: fence)) - 0) with (S L) by (unfold L; lia).
    reflexivity. }
  assert (S L = length body + S (L - length body)) as HL.
  { unfold L. rewrite length_app. simpl. lia. }
  rewrite HL, seq_app, map_app in Hways. cbn [Nat.add seq map] in Hways.
  eapply first_cat_after; [exact Hways| |].
  - intros p Hp. apply in_map_iff in Hp. destruct Hp as (k & <- & Hk).
    apply in_seq in Hk. apply no_closing_inside; [exact Hmk|lia].
  - unfold g. unfold c at 2 3. rewrite advance_exact.
    rewrite (@span_consumed c body (Cursor (rev body ++ sn) (LF :: fence) mk))
      by (split; reflexivity).
    apply (@first_closing (rev body ++ sn) (("code_content"%string, body) :: mk)).
    simpl. exact Hmk.
Qed.

(** The first way of the pattern through a text that is one block. *)
Lemma first_find_code_blocks :
  exists c',
    first_way isalnum find_code_blocks
      (Cursor [] (fence ++ after_fence) []) c' /\
    rest c' = [] /\
    exists all,
      marks c' = ("code_all"%string, all) :: ("code_content"%string, body) ::
                 tag_marks tag ++ [("code_start"%string, fence)].
Proof.
  set (c0 := Cursor [] (fence ++ after_fence) []).
  set (mk := tag_marks tag ++ [("code_start"%string, fence)]).
  set (c9 := Cursor (rev fence ++ LF :: rev body ++ LF :: rev tag ++ rev fence ++ [])
                    [] (("code_content"%string, body) :: mk)).
  assert (first_way isalnum
            (Cat code_start (Cat blanks (Cat info (Cat (plus (One LF))
               (Cat code_content closing_part))))) c0 c9) as H.
  { eapply first_cat; [apply first_code_start|].
    eapply first_cat; [apply first_of_single, blanks_stay|].
    eapply first_cat; [apply first_info|].
    eapply first_cat; [apply first_newline, body_head_stops|].
    apply first_content. apply tag_marks_keep_start. }
  apply first_grp with (n := "code_all"%string) in H.
  exists (set_mark "code_all" (consumed c0 c9) c9). split; [|split].
  - unfold find_code_blocks. eapply first_cat.
    { apply first_opt, first_alt_right.
      - apply no_rep; [|lia]. destruct fence_head as (f & ->). reflexivity.
      - apply first_of_single. reflexivity. }
    eapply first_cat; [exact H|].
    apply first_alt_right.
    + apply (@no_rep isalnum (One LF) 1 (Some 1) true _ [] _); [exact I|lia].
    + apply first_of_single. reflexivity.
  - reflexivity.
  - exists (consumed c0 c9). reflexivity.
Qed.

(** From a text that is exactly one block in its simplest form, [finditer]
    returns exactly one match: that block. *)
Lemma single_block_found :
  exists m,
    finditer isalnum find_code_blocks (fence ++ tag ++ LF :: body ++ LF :: fence) = [m] /\
    group "code_start" m = Some fence /\
    group "code_class" m = match tag with [] => None | _ :: _ => Some tag end /\
    group "code_content" m = Some body.
Proof.
  destruct first_find_code_blocks as (c' & Hfirst & Hrest & all & Hmarks).
  destruct Hfirst as (l & Hways).
  exists (found (Cursor [] (fence ++ after_fence) []) c').
  split; [|split; [|split]].
  - unfold finditer. fold after_fence. rewrite scan_step, Hways.
    destruct (lt_dec (length (rest c')) (length (fence ++ after_fence))) as [_|Hge].
    + f_equal. rewrite Hrest, scan_step.
      destruct (ways find_code_blocks (Cursor (seen c') [] [])) as [|q l'] eqn:E;
        [reflexivity|exfalso].
      assert (length (rest q) < length (@nil char)) as Hlt.
      { apply (@find_code_blocks_progress isalnum (Cursor (seen c') [] []) q);
          [reflexivity|]. rewrite E. now left. }
      simpl in Hlt. lia.
    + exfalso. apply Hge. rewrite Hrest. destruct fence_head as (f & ->).
      simpl. lia.
  - unfold group, found. cbn [m_marks]. rewrite Hmarks. cbn.
    destruct tag; reflexivity.
  - unfold group, found. cbn [m_marks]. rewrite Hmarks.
    destruct tag; reflexivity.
  - unfold group, found. cbn [m_marks]. rewrite Hmarks. reflexivity.
Qed.

End Canonical.

(** ** The script *)

Section ScriptFacts.

Variable isalnum : char -> bool.
Variable w : world.

(** [chat] as one case analysis on the server's reply. *)
Lemma chat_eq model server st :
  chat w model server st =
  let ep := server ++ txt "/api/chat" in
  let body := payload model (messages st) in
  let reply := session_post w (trace st) ep body in
  let sent := trace st ++ [Post ep body reply] in
  match reply with
  | Err e => (Raise e, {| messages := messages st; trace := sent |})
  | Ok r =>
      if ok r then
        match reply_content r with
        | Ok content =>
            (Return content,
             {| messages := messages st ++ [message assistant content];
                trace := sent ++ [ReadJson] |})
        | Err e =>
            (Raise e, {| messages := messages st; trace := sent ++ [ReadJson] |})
        end
      else (Raise (ClientResponseError (status r)),
            {| messages := messages st; trace := sent |})
  end.
Proof.
  cbv zeta. unfold chat, post, bind, get_messages, get_trace, emit. simpl.
  destruct (session_post w (trace st) (server ++ txt "/api/chat")
              (payload model (messages st))) as [r|e]; simpl; [|reflexivity].
  unfold raise_for_status, reply_content, read_json, bind, emit.
  destruct (ok r); simpl; [|reflexivity].
  destruct (json r) as [body|e]; simpl; [|reflexivity].
  destruct (getitem body (txt "message")) as [msg|e]; simpl; [|reflexivity].
  destruct (getitem msg (txt "content")) as [content|e]; simpl; reflexivity.
Qed.

Lemma run_calls_cons c calls acc st :
  run_calls w (c :: calls) acc st =
  match sandbox_run w (trace st) c with
  | Ok ex =>
      run_calls w calls (acc ++ [collected ex])
        {| messages := messages st; trace := trace st ++ [Run c (Ok ex)] |}
  | Err e =>
      (Raise e, {| messages := messages st; trace := trace st ++ [Run c (Err e)] |})
  end.
Proof.
  cbn [run_calls]. unfold bind, run, bind, get_trace, emit. cbn [trace messages].
  destruct (sandbox_run w (trace st) c); reflexivity.
Qed.

(** The loop runs the calls in order until one raises; [done] are the calls
    that ran, [exs] their executions. *)
Lemma run_calls_spec calls :
  forall acc st out st',
  run_calls w calls acc st = (out, st') ->
  exists done exs extra,
    length exs = length done /\
    st' = {| messages := messages st;
             trace := trace st ++ served done exs ++ extra |} /\
    match out with
    | Return rs => done = calls /\ extra = [] /\ rs = acc ++ map collected exs
    | Raise e => exists c later, calls = done ++ c :: later /\ extra = [Run c (Err e)]
    end.
Proof.
  induction calls as [|c calls IH]; intros acc st out st' H.
  - injection H as <- <-. exists [], [], []. cbn. rewrite !app_nil_r.
    destruct st; auto.
  - rewrite run_calls_cons in H.
    destruct (sandbox_run w (trace st) c) as [ex|e].
    + apply IH in H. destruct H as (done & exs & extra & Hlen & -> & Hout).
      cbn [messages trace] in *.
      exists (c :: done), (ex :: exs), extra. cbn [length served combine map fst snd].
      rewrite <- !app_assoc. cbn [app].
      split; [lia|]. split; [reflexivity|].
      destruct out as [rs|e].
      * destruct Hout as (-> & -> & ->). repeat split.
        rewrite <- app_assoc. reflexivity.
      * destruct Hout as (c' & later & -> & ->). exists c', later. split; reflexivity.
    + injection H as <- <-.
      exists [], [], [Run c (Err e)]. cbn. split; [reflexivity|]. split; [reflexivity|].
      exists c, calls. split; reflexivity.
Qed.

Lemma chat_run model server st :
  let ep := server ++ txt "/api/chat" in
  let body := payload model (messages st) in
  let reply := session_post w (trace st) ep body in
  (exists e evs, chat_fails reply e evs /\
     chat w model server st =
       (Raise e, {| messages := messages st;
                    trace := trace st ++ Post ep body reply :: evs |})) \/
  (exists r content, reply = Ok r /\ chat_gives r content /\
     chat w model server st =
       (Return content,
        {| messages := messages st ++ [message assistant content];
           trace := trace st ++ [Post ep body reply; ReadJson] |})).
Proof.
  cbv zeta. rewrite chat_eq. cbv zeta.
  destruct (session_post w (trace st) (server ++ txt "/api/chat")
              (payload model (messages st))) as [r|e].
  - destruct (ok r) eqn:Hok.
    + destruct (reply_content r) as [content|e] eqn:Hc.
      * right. exists r, content. rewrite <- app_assoc. repeat split; auto.
      * left. exists e, [ReadJson]. rewrite <- app_assoc.
        split; [now constructor|reflexivity].
    + left. exists (ClientResponseError (status r)), [].
      split; [now constructor|reflexivity].
  - left. exists e, []. split; [constructor|reflexivity].
Qed.

Lemma bind_eq A B (m : M A) (k : A -> M B) st :
  bind m k st =
  match m st with
  | (Return a, st') => k a st'
  | (Raise e, st') => (Raise e, st')
  end.
Proof. reflexivity. Qed.

(** One outside call: the event carries the reply, an error reply raises. *)
Lemma start_eq st :
  start w st =
  let reply := sandbox_start w (trace st) in
  (match reply with Ok a => Return a | Err e => Raise e end,
   {| messages := messages st; trace := trace st ++ [Start reply] |}).
Proof.
  unfold start, bind, get_trace, emit. cbn.
  destruct (sandbox_start w (trace st)); reflexivity.
Qed.

Lemma run_eq code st :
  run w code st =
  let reply := sandbox_run w (trace st) code in
  (match reply with Ok a => Return a | Err e => Raise e end,
   {| messages := messages st; trace := trace st ++ [Run code reply] |}).
Proof.
  unfold run, bind, get_trace, emit. cbn.
  destruct (sandbox_run w (trace st) code); reflexivity.
Qed.

Lemma stop_eq st :
  stop w st =
  let reply := sandbox_stop w (trace st) in
  (match reply with Ok a => Return a | Err e => Raise e end,
   {| messages := messages st; trace := trace st ++ [Stop reply] |}).
Proof.
  unfold stop, bind, get_trace, emit. cbn.
  destruct (sandbox_stop w (trace st)); reflexivity.
Qed.

Lemma close_eq st :
  close w st =
  let reply := session_close w (trace st) in
  (match reply with Ok a => Return a | Err e => Raise e end,
   {| messages := messages st; trace := trace st ++ [Close reply] |}).
Proof.
  unfold close, bind, get_trace, emit. cbn.
  destruct (session_close w (trace st)); reflexivity.
Qed.

Lemma print_eq v st :
  print v st = (Return tt, {| messages := messages st; trace := trace st ++ [Print v] |}).
Proof. reflexivity. Qed.

#[local] Opaque chat start run stop close print run_calls.
#[local] Opaque default_server txt initial_messages message payload model_name.

Ltac next H := rewrite bind_eq in H; cbn [app messages trace initial] in H.

Lemma main_runs out st :
  main isalnum w initial = (out, st) -> main_run isalnum out st.
Proof.
  intros H. unfold main in H.
  cbv zeta in H. next H. cbn [set_messages initial messages trace] in H. next H.
  match type of H with context [chat w ?m ?s ?st] =>
    destruct (chat_run m s st) as [(e & evs & Hf & Heq)|(r & r1 & Hr & Hg & Heq)];
    cbv zeta in *; rewrite Heq in H; clear Heq; cbn [app messages trace] in * end.
  { injection H as <- <-. now constructor. }
  rewrite Hr in *. clear Hr.
  next H. rewrite print_eq in H. next H.
  destruct r1 as [| | | |s| |];
    try (cbn [code_blocks raise] in H; injection H as <- <-;
         apply ends_not_text; [assumption|discriminate]).
  cbn [code_blocks ret] in H. next H. rewrite print_eq in H. next H.
  fold (calls_in isalnum s) in H.
  rewrite start_eq in H. cbv zeta in H. cbn [app messages trace] in H.
  match type of H with context [sandbox_start ?w ?t] =>
    destruct (sandbox_start w t) as [[]|e] end.
  2: { injection H as <- <-. now apply ends_in_start. }
  next H. rewrite run_eq in H. cbv zeta in H. cbn [app messages trace] in H.
  match type of H with context [sandbox_run ?w ?t ?c] =>
    destruct (sandbox_run w t c) as [ex0|e] end.
  2: { injection H as <- <-. now apply ends_in_setup. }
  next H.
  match type of H with context [run_calls w ?c ?a ?s] =>
    destruct (run_calls w c a s) as [o st1] eqn:Hloop end.
  apply run_calls_spec in Hloop.
  destruct Hloop as (done & exs & extra & Hlen & -> & Hout).
  cbn [app messages trace] in *.
  destruct o as [rs|e].
  2: { destruct Hout as (c & later & Hc & ->). injection H as <- <-.
       eapply ends_in_call; eauto. }
  destruct Hout as (-> & -> & ->). cbn [app] in H. rewrite app_nil_r in H.
  fold (outputs_of exs) in H.
  next H. rewrite print_eq in H. next H.
  cbn [append_message messages trace] in H. next H.
  match type of H with context [chat w ?m ?s ?st] =>
    destruct (chat_run m s st) as [(e & evs & Hf & Heq)|(r' & r2 & Hr & Hg' & Heq)];
    cbv zeta in *; rewrite Heq in H; clear Heq; cbn [app messages trace] in * end.
  { injection H as <- <-. repeat (rewrite <- app_assoc; cbn [app]).
    apply ends_in_second_chat with (evs := evs); auto. }
  rewrite Hr in *. clear Hr.
  next H. rewrite print_eq in H. next H.
  rewrite stop_eq in H. cbv zeta in H. cbn [app messages trace] in H.
  match type of H with context [sandbox_stop ?w ?t] =>
    destruct (sandbox_stop w t) as [[]|e] end.
  2: { injection H as <- <-. repeat (rewrite <- app_assoc; cbn [app]).
       apply ends_after_second_chat with (last := [Stop (Err e)]); auto.
       constructor. }
  rewrite close_eq in H. cbv zeta in H. cbn [app messages trace] in H.
  match type of H with context [session_close ?w ?t] =>
    destruct (session_close w t) as [[]|e] end.
  - injection H as <- <-. repeat (rewrite <- app_assoc; cbn [app]).
    apply ends_after_second_chat with (last := [Stop (Ok tt); Close (Ok tt)]); auto.
    constructor.
  - injection H as <- <-. repeat (rewrite <- app_assoc; cbn [app]).
    apply ends_after_second_chat with (last := [Stop (Ok tt); Close (Err e)]); auto.
    constructor.
Qed.

End ScriptFacts.

(** ** Reading traces and transcripts *)

Lemma posts_app a b : posts (a ++ b) = posts a ++ posts b.
Proof. apply flat_map_app. Qed.

Lemma runs_app a b : runs (a ++ b) = runs a ++ runs b.
Proof. apply flat_map_app. Qed.

Lemma executions_app a b : executions (a ++ b) = executions a ++ executions b.
Proof. apply flat_map_app. Qed.

Lemma served_cons c calls ex exs :
  served (c :: calls) (ex :: exs) = Run c (Ok ex) :: served calls exs.
Proof. reflexivity. Qed.

Lemma posts_served calls exs : posts (served calls exs) = [].
Proof.
  revert exs. induction calls as [|c calls IH]; intros [|ex exs]; try reflexivity.
  rewrite served_cons. cbn. apply IH.
Qed.

Lemma runs_served calls : forall exs,
  length exs = length calls -> runs (served calls exs) = calls.
Proof.
  induction calls as [|c calls IH]; intros [|ex exs] H; try discriminate.
  - reflexivity.
  - rewrite served_cons. cbn. f_equal. apply IH. simpl in H. lia.
Qed.

Lemma executions_served calls : forall exs,
  length exs = length calls -> executions (served calls exs) = exs.
Proof.
  induction calls as [|c calls IH]; intros [|ex exs] H; try discriminate.
  - reflexivity.
  - rewrite served_cons. cbn. f_equal. apply IH. simpl in H. lia.
Qed.

Lemma steps_served calls : forall exs,
  length exs = length calls -> map step_of (served calls exs) = map SRun calls.
Proof.
  induction calls as [|c calls IH]; intros [|ex exs] H; try discriminate.
  - reflexivity.
  - rewrite served_cons. cbn. f_equal. apply IH. simpl in H. lia.
Qed.

Lemma role_of_message r c : role_of (message r c) = Some (VStr r).
Proof. reflexivity. Qed.

Lemma content_of_message r c : content_of (message r c) = Some c.
Proof. reflexivity. Qed.

Lemma payload_messages model history :
  getitem (payload model history) (txt "messages") = Ok (VList history).
Proof. reflexivity. Qed.

Lemma collected_collects ex : Spec.collects ex (collected ex).
Proof.
  unfold Spec.collects, collected. destruct (error ex); simpl.
  - right. auto.
  - left. split; [discriminate|reflexivity].
Qed.

Lemma collects_all exs : Forall2 Spec.collects exs (map collected exs).
Proof.
  induction exs; simpl; constructor; auto using collected_collects.
Qed.

Lemma user_is_not_assistant : user <> assistant.
Proof. vm_compute. discriminate. Qed.

Lemma assistant_message_not_user c :
  role_of (message assistant c) <> Some (VStr user).
Proof.
  rewrite role_of_message. intros H. apply user_is_not_assistant. congruence.
Qed.

Lemma initial_messages_nonempty : Forall Spec.nonempty_content initial_messages.
Proof.
  unfold initial_messages. repeat constructor.
  - exists instruction. split; [reflexivity|]. vm_compute. discriminate.
  - exists discovery. split; [reflexivity|]. vm_compute. discriminate.
  - exists task. split; [reflexivity|]. vm_compute. discriminate.
Qed.

Lemma equals_str_group n m t :
  equals_str (group_value n m) t = true <-> group n m = Some t.
Proof.
  unfold group_value. destruct (group n m) as [u|]; simpl.
  - rewrite text_eqb_eq. split; congruence.
  - split; discriminate.
Qed.

Section Calls.
Variable isalnum : char -> bool.

(** The function calls of a reply are the contents of its matches whose
    [code_class] is ["python"]. *)
Lemma calls_in_python s code :
  In code (calls_in isalnum s) <->
  exists m, In m (finditer isalnum find_code_blocks s) /\
            group "code_class" m = Some python /\
            code = group_value "code_content" m.
Proof.
  unfold calls_in, function_calls_of. rewrite in_map_iff. split.
  - intros (m & <- & Hm). apply filter_In in Hm. destruct Hm as [Hm Hp].
    apply equals_str_group in Hp. eauto.
  - intros (m & Hm & Hp & ->). exists m. split; [reflexivity|].
    apply filter_In. split; [assumption|]. now apply equals_str_group.
Qed.

(** The groups of a match, read from its shape. *)
Lemma block_groups s m :
  block_at isalnum s m ->
  exists pre lead fence bl line nl1 body nl2 tail post,
    s = pre ++ lead ++ fence ++ bl ++ line ++ nl1 ++ body ++ nl2 ++ fence ++
        tail ++ post /\
    Forall (eq LF) lead /\ fence_text fence /\ blank bl /\
    tagged isalnum (group "code_class" m) line /\
    newlines nl1 /\ newlines nl2 /\ line_end tail post /\
    group "code_start" m = Some fence /\
    group "code_content" m = Some body /\
    m_start m = length pre /\ m_end m + length post = length s.
Proof.
  intros (pre & lead & fence & bl & line & ms & nl1 & body & nl2 & tail & post & H).
  cbv zeta in H.
  destruct H as (Hs & Hst & Hen & Hlead & Hf & Hbl & Hi & Hn1 & Hn2 & He & Hm).
  exists pre, lead, fence, bl, line, nl1, body, nl2, tail, post.
  unfold group. rewrite Hm. splits; auto.
  - rewrite Hs. now rewrite <- !app_assoc.
  - destruct Hi; cbn.
    + now left.
    + split; [assumption|now left].
    + split; [assumption|right; eauto].
    + right. eauto.
  - destruct Hi; reflexivity.
  - rewrite Hen, Hs. rewrite !length_app. lia.
Qed.

End Calls.


Section Ends.


Variable isalnum : char -> bool.
Variable w : world.

Lemma main_total : main_run isalnum (ending isalnum w) (final isalnum w).
Proof.
  apply main_runs with (w := w). unfold ending, final.
  destruct (main isalnum w initial). reflexivity.
Qed.

Lemma extracted_asked r s evs :
  chat_gives r (VStr s) ->
  extracted isalnum (asked initial_messages (Ok r) :: evs) = calls_in isalnum s.
Proof.
  intros [_ H]. unfold extracted, first_reply, asked. now rewrite H.
Qed.

Lemma extracted_asked_app r s evs more :
  chat_gives r (VStr s) ->
  extracted isalnum ((asked initial_messages (Ok r) :: evs) ++ more) =
  calls_in isalnum s.
Proof. apply extracted_asked. Qed.

End Ends.

(** Case analysis on how a run ended. *)
Ltac main_cases isalnum w :=
  destruct (main_total isalnum w) as
    [reply e evs Hf | r r1 Hg Hn | r s e Hg | r s e Hg
    | r s ex0 done exs c later e Hg Hc Hlen
    | r s ex0 exs reply e evs Hg Hlen Hf
    | r s ex0 exs r' answer last out Hg Hlen Hg' Hlast ];
  repeat match goal with h := _ |- _ => subst h end;
  cbn [trace messages].

Lemma posts_closing out last : closing out last -> posts last = [].
Proof. intros []; reflexivity. Qed.

Lemma runs_closing out last : closing out last -> runs last = [].
Proof. intros []; reflexivity. Qed.

Lemma executions_closing out last : closing out last -> executions last = [].
Proof. intros []; reflexivity. Qed.

Lemma posts_fails reply e evs : chat_fails reply e evs -> posts evs = [].
Proof. intros []; reflexivity. Qed.

Lemma runs_fails reply e evs : chat_fails reply e evs -> runs evs = [].
Proof. intros []; reflexivity. Qed.

Lemma executions_fails reply e evs : chat_fails reply e evs -> executions evs = [].
Proof. intros []; reflexivity. Qed.

Lemma nth_initial k l :
  nth_error (initial_messages ++ l) (3 + k) = nth_error l k.
Proof. reflexivity. Qed.

Lemma nth_initial_only k : nth_error initial_messages (3 + k) = None.
Proof. destruct k; reflexivity. Qed.

(** ** The answers of the world *)

Lemma answered_app w before a b :
  answered w before (a ++ b) <-> answered w before a /\ answered w (before ++ a) b.
Proof.
  revert before. induction a as [|x a IH]; intros before; simpl.
  - rewrite app_nil_r. tauto.
  - rewrite IH, <- app_assoc. simpl. tauto.
Qed.

Section Extends.
Variable isalnum : char -> bool.
Variable w : world.

Lemma extends_ret A (a : A) : extends w (ret a).
Proof. intros st. exists []. simpl. now rewrite app_nil_r. Qed.

Lemma extends_raise A e : extends w (@raise A e).
Proof. intros st. exists []. simpl. now rewrite app_nil_r. Qed.

Lemma extends_bind A B (m : M A) (k : A -> M B) :
  extends w m -> (forall a, extends w (k a)) -> extends w (bind m k).
Proof.
  intros Hm Hk st. unfold bind. destruct (Hm st) as (evs & He & Ha).
  destruct (m st) as [[a|e] st1]; simpl in *.
  - destruct (Hk a st1) as (evs2 & He2 & Ha2).
    exists (evs ++ evs2). rewrite He2, He, <- app_assoc. split; [reflexivity|].
    apply answered_app. rewrite He in Ha2. auto.
  - exists evs. auto.
Qed.

Lemma extends_silent A (m : M A) :
  (forall st, trace (snd (m st)) = trace st) -> extends w m.
Proof. intros H st. exists []. rewrite H, app_nil_r. simpl. auto. Qed.

Lemma extends_start : extends w (start w).
Proof.
  intros st. rewrite start_eq. cbv zeta. simpl. eexists. split; [reflexivity|].
  simpl. auto.
Qed.

Lemma extends_run code : extends w (run w code).
Proof.
  intros st. rewrite run_eq. cbv zeta. simpl. eexists. split; [reflexivity|].
  simpl. auto.
Qed.

Lemma extends_stop : extends w (stop w).
Proof.
  intros st. rewrite stop_eq. cbv zeta. simpl. eexists. split; [reflexivity|].
  simpl. auto.
Qed.

Lemma extends_close : extends w (close w).
Proof.
  intros st. rewrite close_eq. cbv zeta. simpl. eexists. split; [reflexivity|].
  simpl. auto.
Qed.

Lemma extends_print v : extends w (print v).
Proof. intros st. exists [Print v]. simpl. auto. Qed.

Lemma extends_chat model server : extends w (chat w model server).
Proof.
  intros st. rewrite chat_eq. cbv zeta.
  destruct (session_post w (trace st) (server ++ txt "/api/chat")
              (payload model (messages st))) as [r|e] eqn:E.
  - destruct (ok r).
    + destruct (reply_content r); simpl; rewrite <- app_assoc;
        eexists; (split; [reflexivity|]); simpl; auto.
    + simpl. eexists; (split; [reflexivity|]); simpl; auto.
  - simpl. eexists; (split; [reflexivity|]); simpl; auto.
Qed.

Lemma extends_run_calls calls : forall acc, extends w (run_calls w calls acc).
Proof.
  induction calls as [|c calls IH]; intros acc.
  - apply extends_ret.
  - cbn [run_calls]. apply extends_bind; [apply extends_run|].
    intros ex. apply IH.
Qed.

Lemma extends_code_blocks v : extends w (code_blocks isalnum v).
Proof. destruct v; first [apply extends_ret | apply extends_raise]. Qed.

Lemma extends_main : extends w (main isalnum w).
Proof.
  unfold main. cbv zeta.
  repeat first
    [ apply extends_chat | apply extends_print | apply extends_code_blocks
    | apply extends_start | apply extends_run_calls | apply extends_run
    | apply extends_stop | apply extends_close
    | apply extends_silent; reflexivity
    | apply extends_bind; [|intros ?] ].
Qed.

(** Every event of a run carries the answer the world gave at that moment. *)
Lemma final_answered : answered w [] (trace (final isalnum w)).
Proof.
  destruct (extends_main initial) as (evs & He & Ha).
  unfold final. rewrite He. exact Ha.
Qed.

End Extends.

(** ** Failed calls *)

Lemma quiet_app a b : quiet (a ++ b) <-> quiet a /\ quiet b.
Proof. apply Forall_app. Qed.

Lemma quiet_served calls exs : quiet (served calls exs).
Proof.
  unfold quiet, served. apply Forall_forall. intros ev H.
  apply in_map_iff in H. destruct H as ([c ex] & <- & _). reflexivity.
Qed.

Lemma fails_last_app e a b : quiet a -> fails_last e b -> fails_last e (a ++ b).
Proof.
  intros Ha Hb. induction Ha as [|x a Hx Ha IH]; [exact Hb|].
  simpl. now apply fails_later.
Qed.

Lemma quiet_nth tr k ev e :
  quiet tr -> nth_error tr k = Some ev -> failure_of ev = Some e -> False.
Proof.
  intros Hq Hk He. apply nth_error_In in Hk.
  unfold quiet in Hq. rewrite Forall_forall in Hq. apply Hq in Hk. congruence.
Qed.

Lemma fails_last_nth e tr :
  fails_last e tr ->
  forall k ev e', nth_error tr k = Some ev -> failure_of ev = Some e' ->
                  S k = length tr /\ e' = e.
Proof.
  induction 1 as [ev0 H0|ev0 tr H0 Hl IH]; intros k ev e' Hk He.
  - destruct k as [|k]; simpl in Hk.
    + injection Hk as <-. split; [reflexivity|congruence].
    + destruct k; discriminate.
  - destruct k as [|k]; simpl in Hk.
    + injection Hk as <-. congruence.
    + destruct (IH _ _ _ Hk He) as [H1 H2]. simpl. split; [lia|assumption].
Qed.

Lemma in_served ev calls exs :
  In ev (served calls exs) -> exists c ex, ev = Run c (Ok ex).
Proof.
  unfold served. intros H. apply in_map_iff in H.
  destruct H as ([c ex] & <- & _). eauto.
Qed.

Section RunFacts.
Variable isalnum : char -> bool.
Variable w : world.

Lemma quiet_closing out last :
  closing out last ->
  match out with
  | Return _ => quiet last
  | Raise e => fails_last e last
  end.
Proof.
  intros []; repeat first [ apply Forall_nil | apply Forall_cons; [reflexivity|]
                          | apply fails_here; reflexivity
                          | apply fails_later; [reflexivity|] ].
Qed.

Lemma quiet_fails reply e evs :
  chat_fails reply e evs ->
  forall h, quiet (asked h reply :: evs) \/ fails_last e (asked h reply :: evs).
Proof.
  intros [] h.
  - right. apply fails_here. reflexivity.
  - left. repeat constructor.
  - left. repeat constructor.
Qed.

(** Either no outside call of the run failed, or the last event is the one
    that failed and its exception is how the run ended. *)
Lemma run_failures :
  quiet (trace (final isalnum w)) \/
  exists e, ending isalnum w = Raise e /\ fails_last e (trace (final isalnum w)).
Proof.
  assert (forall r h, failure_of (asked h (Ok r)) = None) as Hasked by reflexivity.
  main_cases isalnum w.
  - destruct (quiet_fails Hf initial_messages) as [H|H]; eauto.
  - left. repeat constructor.
  - right. exists e. split; [reflexivity|].
    repeat first [ apply fails_here; reflexivity | apply fails_later; [reflexivity|] ].
  - right. exists e. split; [reflexivity|].
    repeat first [ apply fails_here; reflexivity | apply fails_later; [reflexivity|] ].
  - right. exists e. split; [reflexivity|].
    apply fails_last_app; [repeat constructor|].
    apply fails_last_app; [apply quiet_served|].
    apply fails_here. reflexivity.
  - assert (quiet ([asked initial_messages (Ok r); ReadJson; Print (VStr s);
                    Print (VList (calls_in isalnum s)); Start (Ok tt);
                    Run (VStr function_code) (Ok ex0)] ++
                   served (calls_in isalnum s) exs ++ [Print (VStr (outputs_of exs))]))
      as Hq.
    { apply quiet_app. split; [repeat constructor|].
      apply quiet_app. split; [apply quiet_served|repeat constructor]. }
    match goal with |- context [asked ?h reply] =>
      destruct (quiet_fails Hf h) as [H|H];
      match goal with |- quiet ?t \/ _ =>
        replace t with
          (([asked initial_messages (Ok r); ReadJson; Print (VStr s);
             Print (VList (calls_in isalnum s)); Start (Ok tt);
             Run (VStr function_code) (Ok ex0)] ++
            served (calls_in isalnum s) exs ++ [Print (VStr (outputs_of exs))]) ++
           asked h reply :: evs)
          by (rewrite <- !app_assoc; reflexivity)
      end
    end.
    + left. apply quiet_app. auto.
    + right. exists e. split; [reflexivity|]. now apply fails_last_app.
  - assert (quiet ([asked initial_messages (Ok r); ReadJson; Print (VStr s);
                    Print (VList (calls_in isalnum s)); Start (Ok tt);
                    Run (VStr function_code) (Ok ex0)] ++
                   served (calls_in isalnum s) exs ++
                   [Print (VStr (outputs_of exs));
                    asked (initial_messages ++
                           [message assistant (VStr s);
                            message user (VStr (outputs_of exs))]) (Ok r');
                    ReadJson; Print answer]))
      as Hq.
    { apply quiet_app. split; [repeat constructor|].
      apply quiet_app. split; [apply quiet_served|repeat constructor]. }
    pose proof (quiet_closing Hlast) as Hc.
    destruct out as [[]|e].
    + left. rewrite !app_assoc. apply quiet_app. split; [|exact Hc].
      rewrite <- !app_assoc. exact Hq.
    + right. exists e. split; [reflexivity|].
      rewrite !app_assoc. apply fails_last_app; [|exact Hc].
      rewrite <- !app_assoc. exact Hq.
Qed.

End RunFacts.

Section Answers.
Variable isalnum : char -> bool.
Variable w : world.

(** The first event of every run is the first request, with the answer of
    the world. *)
Lemma first_request :
  exists evs,
    trace (final isalnum w) =
      asked initial_messages
        (session_post w [] (chat_endpoint default_server)
           (payload model_name initial_messages)) :: evs.
Proof.
  pose proof (final_answered isalnum w) as Ha. revert Ha.
  main_cases isalnum w; cbn [app answered]; unfold asked at 1; cbn [answer_of];
    intros [-> _]; eexists; reflexivity.
Qed.

(** The run in a world where every outside call succeeds and every reply
    carries text. *)
Lemma complete_run :
  (forall tr ep body,
     exists r s, session_post w tr ep body = Ok r /\ (status r < 400)%Z /\
                 reply_content r = Ok (VStr s)) ->
  (forall tr, sandbox_start w tr = Ok tt) ->
  (forall tr code, exists ex, sandbox_run w tr code = Ok ex) ->
  (forall tr, sandbox_stop w tr = Ok tt) ->
  (forall tr, session_close w tr = Ok tt) ->
  exists r s ex0 exs r' answer,
    session_post w [] (chat_endpoint default_server)
                 (payload model_name initial_messages) = Ok r /\
    reply_content r = Ok (VStr s) /\
    length exs = length (calls_in isalnum s) /\
    ending isalnum w = Return tt /\
    final isalnum w =
      {| messages := (initial_messages ++
                      [message assistant (VStr s);
                       message user (VStr (outputs_of exs))]) ++
                     [message assistant answer];
         trace := [asked initial_messages (Ok r); ReadJson; Print (VStr s);
                   Print (VList (calls_in isalnum s)); Start (Ok tt);
                   Run (VStr function_code) (Ok ex0)] ++
                  served (calls_in isalnum s) exs ++
                  [Print (VStr (outputs_of exs));
                   asked (initial_messages ++
                          [message assistant (VStr s);
                           message user (VStr (outputs_of exs))]) (Ok r');
                   ReadJson; Print answer] ++
                  [Stop (Ok tt); Close (Ok tt)] |}.
Proof.
  intros Hpost Hstart Hrun Hstop Hclose.
  assert (forall reply e evs before ep body,
            chat_fails reply e evs -> reply = session_post w before ep body -> False)
    as Hchat.
  { intros reply e evs before ep body Hf ->.
    destruct (Hpost before ep body) as (r & s & Hr & Hst & Hc).
    rewrite Hr in Hf. apply Z.ltb_lt in Hst. fold (ok r) in Hst.
    inversion Hf; subst; congruence. }
  pose proof (final_answered isalnum w) as Ha. revert Ha.
  main_cases isalnum w; unfold asked; intros Ha.
  - exfalso. destruct Ha as [Ha _]. eapply Hchat; eauto.
  - exfalso. destruct Ha as [Ha _]. cbn [answer_of] in Ha.
    match type of Ha with _ = session_post w ?b ?ep ?p =>
      destruct (Hpost b ep p) as (r0 & s & Hr & _ & Hc) end.
    rewrite Hr in Ha. injection Ha as ->. destruct Hg as [_ Hg].
    rewrite Hc in Hg. injection Hg as <-. now destruct (Hn s).
  - exfalso. destruct Ha as (_ & _ & _ & _ & Ha & _). cbn [answer_of] in Ha.
    rewrite Hstart in Ha. discriminate.
  - exfalso. destruct Ha as (_ & _ & _ & _ & _ & Ha & _). cbn [answer_of] in Ha.
    match type of Ha with _ = sandbox_run w ?b ?c =>
      destruct (Hrun b c) as (ex & Hex) end.
    rewrite Hex in Ha. discriminate.
  - exfalso. apply answered_app in Ha. destruct Ha as [_ Ha].
    apply answered_app in Ha. destruct Ha as [_ [Ha _]]. cbn [answer_of] in Ha.
    match type of Ha with _ = sandbox_run w ?b ?c =>
      destruct (Hrun b c) as (ex & Hex) end.
    rewrite Hex in Ha. discriminate.
  - exfalso. apply answered_app in Ha. destruct Ha as [_ Ha].
    apply answered_app in Ha. destruct Ha as [_ Ha].
    cbn [app answered] in Ha. destruct Ha as (_ & Ha & _). cbn [answer_of] in Ha.
    eapply Hchat; eauto.
  - pose proof Ha as Hfirst. cbn [app answered] in Hfirst.
    destruct Hfirst as [Hfirst _]. cbn [answer_of] in Hfirst.
    apply answered_app in Ha. destruct Ha as [_ Ha].
    apply answered_app in Ha. destruct Ha as [_ Ha].
    apply answered_app in Ha. destruct Ha as [_ Ha].
    assert (out = Return tt /\ last = [Stop (Ok tt); Close (Ok tt)]) as [-> ->].
    { destruct Hlast; cbn [answered answer_of] in Ha.
      - destruct Ha as [Ha _]. rewrite Hstop in Ha. discriminate.
      - destruct Ha as (_ & Ha & _). rewrite Hclose in Ha. discriminate.
      - auto. }
    exists r, s, ex0, exs, r', answer. splits; auto.
    apply Hg.
Qed.

End Answers.

(** ** The layout of the matches *)

Lemma laid_out_from a b ms upto : a <= b -> laid_out b ms upto -> laid_out a ms upto.
Proof. destruct ms; simpl; intros; [lia|]. intuition lia. Qed.

Section Layout.
Variable isalnum : char -> bool.

Lemma match_length c c' :
  marks c = [] -> In c' (ways isalnum find_code_blocks c) ->
  exists w, span c w c' /\ 8 <= length w.
Proof.
  intros Hc H. apply ways_find_code_blocks in H; [|exact Hc].
  destruct H as (lead & fence & bl & line & ms & nl1 & body & nl2 & tail & H).
  cbv zeta in H. destruct H as (Hs & _ & Hf & _ & _ & Hn1 & Hn2 & _).
  eexists. split; [exact Hs|].
  destruct Hf as (sp & tk & -> & _ & _ & _ & Htk).
  destruct Hn1 as [Hn1 _], Hn2 as [Hn2 _].
  destruct nl1; [contradiction|]. destruct nl2; [contradiction|].
  repeat rewrite length_app. simpl. repeat rewrite length_app. simpl. lia.
Qed.

Lemma scan_laid_out n : forall before after,
  length after <= n ->
  laid_out (length before) (scan isalnum find_code_blocks before after)
           (length before + length after).
Proof.
  induction n as [|n IH]; intros before after Hn; rewrite scan_step.
  - destruct after; [|simpl in Hn; lia].
    destruct (ways isalnum find_code_blocks (Cursor before [] [])) as [|c' l] eqn:E.
    + simpl. lia.
    + exfalso.
      destruct (@match_length (Cursor before [] []) c' eq_refl) as (w & [Hw _] & Hl).
      { rewrite E. now left. }
      simpl in Hw. destruct w; [simpl in Hl; lia|discriminate].
  - destruct (ways isalnum find_code_blocks (Cursor before after [])) as [|c' l] eqn:E.
    + destruct after as [|x after']; [simpl; lia|].
      apply laid_out_from with (b := length (x :: before)); [simpl; lia|].
      replace (length before + length (x :: after'))
        with (length (x :: before) + length after') by (simpl; lia).
      apply IH. simpl in Hn. lia.
    + destruct (@match_length (Cursor before after []) c' eq_refl) as (w & [Hw Hs] & Hl).
      { rewrite E. now left. }
      simpl in Hw, Hs.
      assert (length after = length w + length (rest c')) as Hlen
        by (rewrite Hw; apply length_app).
      destruct (lt_dec (length (rest c')) (length after)) as [_|Hge]; [|lia].
      cbn [laid_out found m_start m_end seen].
      assert (length (seen c') = length before + length w) as Hseen.
      { rewrite Hs, length_app, length_rev. lia. }
      split; [lia|]. split; [lia|].
      replace (length before + length after)
        with (length (seen c') + length (rest c')) by lia.
      apply IH. lia.
Qed.

End Layout.

(** ** Backticks *)

Lemma count_run (x : char) (w : text) :
  Forall (eq x) w -> @count_occ char N.eq_dec w x = length w.
Proof.
  induction 1 as [|y w Hy _ IH]; [reflexivity|]. subst y. simpl.
  destruct (N.eq_dec x x); [now rewrite IH|contradiction].
Qed.

Lemma occurrences_app c a b :
  occurrences c (a ++ b) = occurrences c a + occurrences c b.
Proof. apply count_occ_app. Qed.

Lemma fence_backticks f : fence_text f -> 3 <= occurrences TICK f.
Proof.
  intros (sp & tk & -> & _ & _ & Htk & Hlen).
  rewrite occurrences_app. unfold occurrences at 2. rewrite (count_run Htk). lia.
Qed.

Lemma newlines_count nl : newlines nl -> 1 <= occurrences LF nl.
Proof.
  intros [Hne Hall]. unfold occurrences. rewrite (count_run Hall).
  destruct nl; [contradiction|simpl; lia].
Qed.

(** ** The first way through a concatenation *)

Lemma hd_flat_map A B (f : A -> list B) l h :
  hd_error (flat_map f l) = Some h ->
  exists l1 x l2,
    l = l1 ++ x :: l2 /\ (forall y, In y l1 -> f y = []) /\ hd_error (f x) = Some h.
Proof.
  induction l as [|a l IH]; simpl; [discriminate|].
  destruct (f a) as [|b fb] eqn:E; simpl.
  - intros H. destruct (IH H) as (l1 & x & l2 & -> & Hn & Hx).
    exists (a :: l1), x, l2. split; [reflexivity|]. split; [|assumption].
    intros y [<-|Hy]; auto.
  - intros [= <-]. exists [], a, l. split; [reflexivity|].
    split; [intros y []|]. now rewrite E.
Qed.

Lemma flat_map_comp A B C (f : A -> list B) (g : B -> list C) l :
  flat_map g (flat_map f l) = flat_map (fun x => flat_map g (f x)) l.
Proof.
  induction l as [|a l IH]; [reflexivity|]. simpl.
  now rewrite flat_map_app, IH.
Qed.

Lemma flat_map_of_map A B C (f : A -> B) (g : B -> list C) l :
  flat_map g (map f l) = flat_map (fun x => g (f x)) l.
Proof. induction l as [|a l IH]; [reflexivity|]. simpl. now rewrite IH. Qed.

Lemma flat_map_some A B (f : A -> list B) l x :
  In x l -> f x <> [] -> flat_map f l <> [].
Proof.
  intros Hx Hf H. apply Hf.
  destruct (f x) as [|b fb] eqn:E; [reflexivity|].
  assert (In b (flat_map f l)) as Hb.
  { apply in_flat_map. exists x. split; [assumption|]. rewrite E. now left. }
  rewrite H in Hb. destruct Hb.
Qed.

Lemma hd_error_in A (l : list A) h : hd_error l = Some h -> In h l.
Proof. destruct l; [discriminate|]. intros [= <-]. now left. Qed.

Lemma seq_split a n s1 k s2 :
  seq a n = s1 ++ k :: s2 -> k = a + length s1 /\ s1 = seq a (length s1) /\ k < a + n.
Proof.
  revert a s1. induction n as [|n IH]; intros a s1 H.
  - destruct s1; discriminate.
  - destruct s1 as [|x s1]; simpl in H.
    + injection H as <- _. simpl. split; [lia|]. split; [reflexivity|lia].
    + injection H as <- H. destruct (IH _ _ H) as (-> & Hs & Hlt).
      simpl. split; [lia|]. split; [now f_equal|lia].
Qed.

Section First.
Variable isalnum : char -> bool.
Local Abbreviation ways := (ways isalnum).

(** The first way through [r1 r2 ...]: the first way of [r1] that the rest
    can continue. *)
Lemma first_through_cat r1 r2 (K : cursor -> list cursor) c h :
  hd_error (flat_map K (ways (Cat r1 r2) c)) = Some h ->
  exists l1 m l2,
    ways r1 c = l1 ++ m :: l2 /\
    (forall m', In m' l1 -> flat_map K (ways r2 m') = []) /\
    hd_error (flat_map K (ways r2 m)) = Some h.
Proof.
  cbn [Re.ways]. rewrite flat_map_comp. apply hd_flat_map.
Qed.

(** *** Repetitions *)

Lemma stretch_rest cs s : forall n j,
  stretch isalnum cs None n s = n + j -> stops isalnum cs (skipn j s).
Proof.
  induction s as [|x s IH]; intros n j H; simpl in H.
  - destruct j; exact I.
  - destruct (mem isalnum cs x) eqn:E.
    + destruct j as [|j].
      * exfalso. destruct (stretch_spec isalnum cs None s (S n)) as (i & Hi & _).
        rewrite Hi in H. lia.
      * simpl. apply (IH (S n)). rewrite H. lia.
    + assert (j = 0) as -> by lia. simpl. exact E.
Qed.

Lemma stretch_reaches cs u v :
  all_in isalnum cs u -> length u <= stretch isalnum cs None 0 (u ++ v).
Proof.
  intros Hu.
  assert (forall n, n + length u <= stretch isalnum cs None n (u ++ v)) as H.
  { induction Hu as [|x u Hx Hu IH]; intros n.
    - simpl. destruct (stretch_spec isalnum cs None v n) as (j & -> & _). lia.
    - simpl. rewrite Hx. specialize (IH (S n)). simpl in *. lia. }
  apply (H 0).
Qed.

Lemma in_counts_between k lo top g : lo <= k <= top -> In k (counts lo top g).
Proof.
  intros H. unfold counts.
  assert (In k (seq lo (S top - lo))) as Hin by (apply in_seq; lia).
  destruct g; [now apply in_rev in Hin|assumption].
Qed.

Lemma in_ways_rep cs lo g c k :
  lo <= k <= stretch isalnum cs None 0 (rest c) ->
  In (advance k c) (ways (Rep cs lo None g) c).
Proof.
  intros H. cbn [Re.ways]. apply (in_map (fun k => advance k c)).
  now apply in_counts_between.
Qed.

End First.

Lemma pattern_parts :
  find_code_blocks = Cat block_lead (Cat (Grp "code_all" block_inside) block_end).
Proof. reflexivity. Qed.

Lemma newlines_rev nl : newlines nl -> exists r, rev nl = LF :: r.
Proof.
  intros [Hne Hall]. destruct (rev nl) as [|x r] eqn:E.
  - apply (f_equal (@rev char)) in E. rewrite rev_involutive in E. contradiction.
  - exists r. f_equal. symmetry.
    rewrite Forall_forall in Hall. apply Hall. apply in_rev. rewrite E. now left.
Qed.

Section Closing.
Variable isalnum : char -> bool.
Local Abbreviation ways := (ways isalnum).

Lemma in_ways_cat r1 r2 c m c' :
  In m (ways r1 c) -> In c' (ways r2 m) -> In c' (ways (Cat r1 r2) c).
Proof. intros H1 H2. cbn [Re.ways]. apply in_flat_map. eauto. Qed.

Lemma not_ahead_way r c : ways r c = [] -> ways (NotAhead r) c = [c].
Proof. intros H. cbn [Re.ways]. now rewrite H. Qed.

Lemma lead_sound c c1 :
  In c1 (ways block_lead c) ->
  exists lead, span c lead c1 /\ marks c1 = marks c /\ Forall (eq LF) lead.
Proof.
  intros H1. apply ways_opt in H1. destruct H1 as [H1| ->].
  - apply ways_alt in H1. destruct H1 as [H1|H1].
    + apply ways_newlines in H1. destruct H1 as (w & ? & ? & ? & ?). eauto.
    + apply ways_start in H1. destruct H1 as (-> & _).
      exists []. splits; auto. apply span_refl.
  - exists []. splits; auto. apply span_refl.
Qed.

Lemma closing_sound t x :
  In x (ways closing_fence t) ->
  exists nl f,
    newlines nl /\ lookup "code_start" (marks t) = Some f /\
    span t (nl ++ f) x /\ marks x = marks t.
Proof.
  intros H. unfold closing_fence in H.
  apply ways_cat in H. destruct H as (q1 & H1 & H).
  apply ways_cat in H. destruct H as (q2 & H2 & H).
  apply ways_cat in H. destruct H as (q3 & H3 & H4).
  apply ways_newlines in H1. destruct H1 as (nl & Hs1 & Hm1 & Hnl).
  apply ways_not_behind in H2. destruct H2 as (-> & _).
  apply ways_ref in H3. destruct H3 as (f & Hl & Hs3 & Hm3).
  apply ways_not_ahead in H4. destruct H4 as (-> & _).
  exists nl, f. splits; auto.
  - now rewrite <- Hm1.
  - exact (span_trans Hs1 Hs3).
  - congruence.
Qed.

Lemma block_end_sound y h :
  In h (ways block_end y) ->
  exists tail, span y tail h /\ line_end tail (rest h) /\ marks h = marks y.
Proof.
  intros H3. unfold block_end in H3. apply ways_alt in H3. destruct H3 as [H3|H3].
  - apply ways_lit in H3. destruct H3 as (? & ?). exists [LF]. splits; auto.
    now left.
  - apply ways_end in H3. destruct H3 as (-> & ?). exists []. splits; auto.
    + apply span_refl.
    + now right.
Qed.

Lemma line_end_stops tail post :
  line_end tail post -> stops isalnum (One TICK) (tail ++ post).
Proof. intros [->|[-> ->]]; reflexivity. Qed.

Lemma closing_complete q f nl tail post :
  lookup "code_start" (marks q) = Some f ->
  rest q = nl ++ f ++ tail ++ post -> newlines nl -> line_end tail post ->
  exists x, In x (ways closing_fence q) /\ rest x = tail ++ post.
Proof.
  destruct q as [sn rs mk]. cbn [rest marks]. intros Hf -> Hnl Hend.
  set (q := Cursor sn (nl ++ f ++ tail ++ post) mk).
  set (q1 := Cursor (rev nl ++ sn) (f ++ tail ++ post) mk).
  set (x := Cursor (rev f ++ rev nl ++ sn) (tail ++ post) mk).
  exists x. split; [|reflexivity].
  unfold closing_fence. apply in_ways_cat with (m := q1).
  { replace q1 with (advance (length nl) q) by apply advance_exact.
    apply (@in_ways_rep isalnum (One LF) 1 true q (length nl)). split.
    - destruct Hnl as [Hne _]. destruct nl; [contradiction|simpl; lia].
    - apply stretch_reaches. destruct Hnl as [_ Hall].
      revert Hall. apply Forall_impl. intros a <-. reflexivity. }
  apply in_ways_cat with (m := q1).
  { destruct (newlines_rev Hnl) as (r & Hr). unfold q1. cbn [Re.ways seen]. rewrite Hr.
    now left. }
  apply in_ways_cat with (m := x).
  { unfold q1, x. rewrite (@ref_way isalnum "code_start" f (tail ++ post)
                             (rev nl ++ sn) mk Hf). now left. }
  unfold x. rewrite not_ahead_way; [now left|].
  apply no_rep; [now apply line_end_stops|lia].
Qed.

Lemma block_end_complete y tail post :
  line_end tail post -> rest y = tail ++ post -> ways block_end y <> [].
Proof.
  destruct y as [sn rs mk]. cbn [rest]. intros [->|[-> ->]] ->.
  - unfold block_end, lit. cbn [Re.ways rest app stretch below mem].
    change (0 <? 1) with true. change (N.eqb LF LF) with true. cbn [andb].
    destruct post; cbn; discriminate.
  - cbn. discriminate.
Qed.

(** The pattern can be finished from the end of a content exactly when the
    text ahead closes the block. *)
Lemma closes_continues c1 q f :
  lookup "code_start" (marks q) = Some f ->
  (flat_map (block_end_after isalnum c1) (ways closing_fence q) <> [] <->
   closes f (rest q)).
Proof.
  intros Hf. split.
  - intros H.
    destruct (flat_map (block_end_after isalnum c1) (ways closing_fence q))
      as [|h l] eqn:E; [contradiction|].
    assert (In h (flat_map (block_end_after isalnum c1) (ways closing_fence q)))
      as Hin by (rewrite E; now left).
    apply in_flat_map in Hin. destruct Hin as (x & Hx & Hh).
    apply closing_sound in Hx. destruct Hx as (nl & f' & Hnl & Hf' & [Hr _] & _).
    rewrite Hf in Hf'. injection Hf' as <-.
    apply block_end_sound in Hh. destruct Hh as (tail & [Hr' _] & Hend & _).
    cbn [rest set_mark] in Hr'.
    exists nl, tail, (rest h). splits; auto.
    rewrite Hr, Hr', <- app_assoc. reflexivity.
  - intros (nl & tail & post & Hr & Hnl & Hend).
    destruct (closing_complete q Hf Hr Hnl Hend) as (x & Hx & Hrx).
    apply flat_map_some with (x := x); [assumption|].
    unfold block_end_after. apply block_end_complete with (tail := tail) (post := post);
      assumption.
Qed.

End Closing.

Lemma seq_tail a n s1 k s2 :
  seq a n = s1 ++ k :: s2 -> s2 = seq (S k) (a + n - S k).
Proof.
  revert a s1. induction n as [|n IH]; intros a s1 H.
  - destruct s1; discriminate.
  - destruct s1 as [|x s1]; simpl in H.
    + injection H as <- <-. f_equal. lia.
    + injection H as <- H. rewrite (IH _ _ H). f_equal. lia.
Qed.

Section FirstBlock.
Variable isalnum : char -> bool.
Local Abbreviation ways := (ways isalnum).
Local Abbreviation after := (block_end_after isalnum).

(** The way the engine reports, step by step: at the two places where the
    pattern can give back (the newlines before the content and the lazy
    content), every earlier choice could not be finished. *)
Lemma first_block c h :
  hd_error (ways find_code_blocks c) = Some h ->
  exists c1 a b i N1 n N2 T1 t T2,
    In c1 (ways block_lead c) /\ In a (ways code_start c1) /\
    In b (ways blanks a) /\ In i (ways info b) /\
    ways (plus (One LF)) i = N1 ++ n :: N2 /\
    (forall n', In n' N1 ->
       flat_map (after c1) (ways (Cat code_content closing_fence) n') = []) /\
    ways code_content n = T1 ++ t :: T2 /\
    (forall t', In t' T1 -> flat_map (after c1) (ways closing_fence t') = []) /\
    hd_error (flat_map (after c1) (ways closing_fence t)) = Some h.
Proof.
  rewrite pattern_parts. intros H.
  change (ways (Cat block_lead (Cat (Grp "code_all" block_inside) block_end)) c)
    with (flat_map (ways (Cat (Grp "code_all" block_inside) block_end))
            (ways block_lead c)) in H.
  apply hd_flat_map in H. destruct H as (l1 & c1 & l2 & Hc1 & _ & H).
  change (ways (Cat (Grp "code_all" block_inside) block_end) c1)
    with (flat_map (ways block_end)
            (map (fun x => set_mark "code_all" (consumed c1 x) x)
                 (ways block_inside c1))) in H.
  rewrite flat_map_of_map in H. fold (after c1) in H.
  unfold block_inside in H.
  apply first_through_cat in H. destruct H as (A1 & a & A2 & Ha & _ & H).
  apply first_through_cat in H. destruct H as (B1 & b & B2 & Hb & _ & H).
  apply first_through_cat in H. destruct H as (I1 & i & I2 & Hi & _ & H).
  apply first_through_cat in H. destruct H as (N1 & n & N2 & Hn & HN1 & H).
  apply first_through_cat in H. destruct H as (T1 & t & T2 & Ht & HT1 & H).
  exists c1, a, b, i, N1, n, N2, T1, t, T2. splits; auto.
  - rewrite Hc1. apply in_elt.
  - rewrite Ha. apply in_elt.
  - rewrite Hb. apply in_elt.
  - rewrite Hi. apply in_elt.
Qed.

Lemma content_ways n :
  ways code_content n =
  map (fun k => set_mark "code_content" (consumed n (advance k n)) (advance k n))
      (seq 0 (S (length (rest n)))).
Proof.
  unfold code_content, lazy_star.
  rewrite ways_grp_eq, ways_rep_eq, map_map, stretch_any.
  unfold counts. cbn [Nat.add]. now rewrite Nat.sub_0_r.
Qed.

Lemma newline_ways i :
  ways (plus (One LF)) i =
  map (fun k => advance k i)
      (rev (seq 1 (stretch isalnum (One LF) None 0 (rest i)))).
Proof.
  unfold plus. rewrite ways_rep_eq. unfold counts.
  now rewrite Nat.sub_succ, Nat.sub_0_r.
Qed.

(** What the first way tells about the text and the groups. *)
Lemma first_block_shape c h :
  marks c = [] ->
  hd_error (ways find_code_blocks c) = Some h ->
  exists before fence body behind,
    rest c = before ++ body ++ behind /\
    lookup "code_start" (marks h) = Some fence /\
    lookup "code_content" (marks h) = Some body /\
    closes fence behind /\
    (forall b, body <> LF :: b) /\
    (forall b1 b2, body = b1 ++ b2 -> b2 <> [] -> ~ closes fence (b2 ++ behind)).
Proof.
  intros Hc H. apply first_block in H.
  destruct H as (c1 & a & b & i & N1 & n & N2 & T1 & t & T2 &
                 Hc1 & Ha & Hb & Hi & Hn & HN1 & Ht & HT1 & Hh).
  apply lead_sound in Hc1. destruct Hc1 as (lead & Hs0 & Hm0 & _).
  apply ways_code_start in Ha. destruct Ha as (f & Hs1 & Hf & Hm1).
  apply ways_blanks in Hb. destruct Hb as (bl & Hs2 & Hm2 & _).
  apply ways_info in Hi. destruct Hi as (line & ms & Hs3 & Hline & Hm3).
  assert (In n (ways (plus (One LF)) i)) as Hn' by (rewrite Hn; apply in_elt).
  apply ways_newlines in Hn'. destruct Hn' as (nl1 & Hs4 & Hm4 & Hnl1).
  assert (In t (ways code_content n)) as Ht' by (rewrite Ht; apply in_elt).
  apply ways_code_content in Ht'. destruct Ht' as (body & Hs5 & Hm5).
  assert (lookup "code_start" (marks n) = Some f) as Hstart.
  { rewrite Hm4, Hm3, (info_line_keeps_start _ Hline), Hm2, Hm1. reflexivity. }
  assert (flat_map (after c1) (ways closing_fence t) <> []) as Hgo.
  { intros E. rewrite E in Hh. discriminate. }
  assert (lookup "code_start" (marks t) = Some f) as Hstart_t.
  { rewrite Hm5. exact Hstart. }
  apply (closes_continues isalnum c1 t Hstart_t) in Hgo.
  apply hd_error_in, in_flat_map in Hh. destruct Hh as (x & Hx & Hh).
  apply closing_sound in Hx. destruct Hx as (nl2 & f' & _ & _ & _ & Hmx).
  apply block_end_sound in Hh. destruct Hh as (tail & _ & _ & Hmh).
  cbn [marks set_mark] in Hmh.
  pose proof (span_trans Hs0 (span_trans Hs1 (span_trans Hs2 (span_trans Hs3 Hs4))))
    as [Hrn _].
  destruct Hs5 as [Hrt Hst].
  set (before := lead ++ f ++ bl ++ line ++ nl1) in *.
  exists before, f, body, (rest t). splits.
  - rewrite Hrn, Hrt. unfold before. now rewrite <- !app_assoc.
  - rewrite Hmh, Hmx, Hm5, Hm4, Hm3. cbn [lookup String.eqb Ascii.eqb Bool.eqb].
    rewrite (info_line_keeps_start _ Hline), Hm2, Hm1. reflexivity.
  - rewrite Hmh, Hmx, Hm5. reflexivity.
  - exact Hgo.
  - (* the newlines before the content were taken to the full *)
    intros b0 ->.
    rewrite newline_ways in Hn.
    apply map_eq_app in Hn. destruct Hn as (r1 & r2' & Hrev & HN1' & Hr2).
    apply map_eq_cons in Hr2. destruct Hr2 as (kn & r2 & -> & Hkn & _).
    subst N1. apply (f_equal (@rev nat)) in Hrev.
    rewrite rev_involutive, rev_app_distr in Hrev. cbn [rev] in Hrev.
    rewrite <- app_assoc in Hrev. cbn [app] in Hrev.
    set (top := stretch isalnum (One LF) None 0 (rest i)) in *.
    pose proof (seq_split _ _ _ _ _ Hrev) as (Hk1 & _ & Hk2).
    pose proof (seq_tail _ _ _ _ _ Hrev) as Hr1.
    assert (rest n = skipn kn (rest i)) as Hrest_n by (rewrite <- Hkn; reflexivity).
    assert (kn < top) as Hlt.
    { destruct (Nat.eq_dec kn top) as [E|E]; [|lia]. exfalso.
      pose proof (@stretch_rest isalnum (One LF) (rest i) 0 top eq_refl) as Hstop.
      rewrite <- E, <- Hrest_n, Hrt in Hstop. simpl in Hstop. discriminate. }
    assert (In (S kn) r1) as Hin.
    { apply in_rev. rewrite Hr1. apply in_seq. lia. }
    set (n' := advance (S kn) i).
    assert (In n' (map (fun k => advance k i) r1)) as Hn1
      by (apply (in_map (fun k => advance k i)); exact Hin).
    specialize (HN1 _ Hn1).
    assert (rest n' = b0 ++ rest t) as Hrn'.
    { unfold n'. cbn [rest advance].
      replace (S kn) with (1 + kn) by lia. rewrite <- skipn_skipn.
      rewrite <- Hrest_n, Hrt. reflexivity. }
    set (t' := set_mark "code_content" (consumed n' (advance (length b0) n'))
                 (advance (length b0) n')).
    assert (In t' (ways code_content n')) as Ht'.
    { rewrite content_ways.
      apply (in_map (fun k => set_mark "code_content"
                                (consumed n' (advance k n')) (advance k n'))).
      apply in_seq. rewrite Hrn', length_app. lia. }
    assert (flat_map (after c1) (ways closing_fence t') <> []) as Hgo'.
    { apply (closes_continues isalnum c1 t') with (f := f).
      - unfold t'. cbn [marks set_mark advance]. rewrite <- Hkn in Hstart.
        exact Hstart.
      - unfold t'. cbn [rest set_mark advance]. fold (rest n'). rewrite Hrn'.
        rewrite skipn_app, skipn_all, Nat.sub_diag. exact Hgo. }
    apply Hgo'. cbn [Re.ways] in HN1. rewrite flat_map_comp in HN1.
    destruct (flat_map (after c1) (ways closing_fence t')) as [|y l] eqn:E;
      [reflexivity|exfalso].
    revert HN1. apply flat_map_some with (x := t'); [exact Ht'|].
    rewrite E. discriminate.
  - (* the content is the shortest that can be closed *)
    intros b1 b2 -> Hb2 Hcl.
    rewrite content_ways in Ht.
    apply map_eq_app in Ht. destruct Ht as (s1 & s2' & Hseq & HT1' & Hcons).
    apply map_eq_cons in Hcons. destruct Hcons as (k & s2 & -> & Hk & _).
    subst T1.
    pose proof (seq_split _ _ _ _ _ Hseq) as (Hk1 & Hseq1 & _).
    cbn [Nat.add] in Hk1.
    assert (length (b1 ++ b2) = k) as Hlen.
    { rewrite <- Hk in Hst. cbn [seen set_mark advance] in Hst.
      apply (f_equal (@length char)) in Hst. rewrite !length_app, !length_rev in Hst.
      rewrite length_firstn in Hst. rewrite length_app.
      assert (k <= length (rest n)).
      { destruct (seq_split _ _ _ _ _ Hseq) as (_ & _ & Hlt). lia. }
      rewrite ?length_app in Hst. lia. }
    set (j := length b1).
    assert (In j s1) as Hj.
    { rewrite Hseq1. apply in_seq. rewrite length_app in Hlen.
      destruct b2; [contradiction|]. simpl in Hlen. unfold j. lia. }
    set (t' := set_mark "code_content" (consumed n (advance j n)) (advance j n)).
    assert (flat_map (after c1) (ways closing_fence t') = []) as Hno.
    { apply HT1.
      apply (in_map (fun k => set_mark "code_content"
                                (consumed n (advance k n)) (advance k n))).
      exact Hj. }
    revert Hno. apply (closes_continues isalnum c1 t') with (f := f).
    + exact Hstart.
    + unfold t'. cbn [rest set_mark advance]. rewrite Hrt, <- app_assoc.
      unfold j. rewrite skipn_app, skipn_all, Nat.sub_diag. exact Hcl.
Qed.

End FirstBlock.

(** ** One block between lines of prose *)

Lemma first_tick (a b c d : text) :
  ~ In TICK a -> ~ In TICK c -> a ++ TICK :: b = c ++ TICK :: d -> a = c.
Proof.
  revert c. induction a as [|x a IH]; intros [|y c] Ha Hc H; simpl in *.
  - reflexivity.
  - injection H as <- _. exfalso. apply Hc. now left.
  - injection H as -> _. exfalso. apply Ha. now left.
  - injection H as <- H. f_equal. apply IH with (c := c); auto.
Qed.

Lemma all_newlines_dec (v : text) : {Forall (eq LF) v} + {~ Forall (eq LF) v}.
Proof. apply Forall_dec. intros x. apply N.eq_dec. Qed.

Lemma lit_way isalnum x sn v mk :
  ways isalnum (lit x) (Cursor sn (x :: v) mk) = [Cursor (x :: sn) v mk].
Proof.
  unfold lit. rewrite ways_rep_eq. cbn [rest stretch below mem].
  change (0 <? 1) with true. rewrite N.eqb_refl. cbn [andb].
  assert (stretch isalnum (One x) (Some 1) 1 v = 1) as ->.
  { destruct v; [reflexivity|]. cbn [stretch below]. reflexivity. }
  reflexivity.
Qed.

(** No backtick ahead: no match. *)
Lemma scan_no_ticks isalnum before after :
  ~ In TICK after -> scan isalnum find_code_blocks before after = [].
Proof.
  intros Hticks.
  destruct (scan isalnum find_code_blocks before after) as [|m l] eqn:E;
    [reflexivity|exfalso].
  assert (In m (scan isalnum find_code_blocks before after)) as Hm
    by (rewrite E; now left).
  apply scan_first in Hm. destruct Hm as (sk & ah & c' & -> & Hw & _).
  apply hd_error_in in Hw. apply ways_find_code_blocks in Hw; [|reflexivity].
  destruct Hw as (lead & fence' & bl & line & ms & nl1 & body' & nl2 & tail & Hw).
  cbv zeta in Hw. destruct Hw as ((Hr & _) & _ & Hf & _). cbn [rest] in Hr.
  destruct Hf as (sp & tk & -> & _ & _ & Htk & Hlen).
  destruct tk as [|t0 tk]; [simpl in Hlen; lia|].
  apply Forall_inv in Htk. subst t0.
  apply Hticks. rewrite Hr. rewrite !in_app_iff. cbn [In].
  assert (TICK = TICK) by reflexivity. tauto.
Qed.

Section Embedded.
Variable isalnum : char -> bool.
Local Abbreviation ways := (ways isalnum).

Hypothesis Htable : plain_table isalnum.

Variable n : nat.
Variables tag body outro : text.
Hypothesis Hn : 3 <= n.
Hypothesis Htag : tag_chars isalnum tag.
Hypothesis Hbody : plain_body body.
Hypothesis Houtro : starts_line outro.

Let fence : text := repeat TICK n.

(** The block, and the text from its first line on. *)
Let block : text := fence ++ tag ++ LF :: body ++ LF :: fence.

Lemma tag_line_head cs more :
  mem isalnum cs LF = false ->
  (forall x, x <> LF -> x <> SP -> x <> TAB -> x <> TICK -> mem isalnum cs x = false) ->
  stops isalnum cs (tag ++ LF :: more).
Proof.
  intros HLF Hcs. pose proof (tag_char Htable Htag) as Hc.
  destruct tag as [|x t]; simpl; auto.
  destruct (Hc x) as (? & ? & ? & ?); [now left|]. auto.
Qed.

Lemma opening_first sn mk more :
  first_way isalnum code_start
    (Cursor sn (fence ++ tag ++ LF :: more) mk)
    (Cursor (rev fence ++ sn) (tag ++ LF :: more) (("code_start"%string, fence) :: mk)).
Proof.
  set (c := Cursor sn (fence ++ tag ++ LF :: more) mk).
  set (c1 := Cursor (rev fence ++ sn) (tag ++ LF :: more) mk).
  assert (first_way isalnum
            (Cat (Rep (Among [Lit SP]) 0 (Some 3) true) (Rep (One TICK) 3 None true))
            c c1) as H.
  { apply first_cat with (c1 := c).
    - apply first_of_single. apply rep_stays.
      destruct (fence_head Hn) as (f & Hf). unfold c, fence. rewrite Hf. reflexivity.
    - apply first_rep.
      + apply fence_ticks.
      + apply tag_line_head; [reflexivity|].
        intros x _ _ _ Hx. simpl. now apply N.eqb_neq.
      + unfold fence. rewrite repeat_length. exact Hn. }
  apply first_grp with (n := "code_start"%string) in H.
  rewrite (@span_consumed c fence c1) in H by (split; reflexivity).
  exact H.
Qed.

Lemma blanks_first sn mk more :
  ways blanks (Cursor sn (tag ++ LF :: more) mk) = [Cursor sn (tag ++ LF :: more) mk].
Proof.
  apply rep_stays. apply tag_line_head; [reflexivity|].
  intros x _ Hsp Htab _. simpl.
  apply N.eqb_neq in Hsp, Htab. now rewrite Hsp, Htab.
Qed.

Lemma info_first sn mk more :
  first_way isalnum info
    (Cursor sn (tag ++ LF :: more) mk)
    (Cursor (rev tag ++ sn) (LF :: more) (tag_marks tag ++ mk)).
Proof.
  unfold info. pose proof (tag_in_class Htag) as Hclass.
  destruct tag as [|x t]; cbn [app rev tag_marks].
  - apply first_opt_skip, no_alt.
    + apply no_cat_left, no_grp, no_rep; [|lia].
      apply newline_outside_class, Htable.
    + apply (no_braces isalnum Hn).
  - apply first_opt, first_alt_left.
    set (c := Cursor sn ((x :: t) ++ LF :: more) mk).
    set (c1 := Cursor (rev (x :: t) ++ sn) (LF :: more) mk).
    assert (first_way isalnum code_class c (set_mark "code_class" (x :: t) c1)) as H.
    { rewrite <- (@span_consumed c (x :: t) c1) by (split; reflexivity).
      apply first_grp. apply first_rep.
      - exact Hclass.
      - apply newline_outside_class, Htable.
      - simpl. lia. }
    eapply first_cat; [exact H|].
    apply first_opt_skip. apply (no_braces isalnum Hn).
Qed.

Lemma body_stops : stops isalnum (One LF) (body ++ LF :: fence ++ outro).
Proof.
  destruct Hbody as (Hne & _ & Hhd & _). destruct body as [|b0 b]; [contradiction|].
  simpl in *. now apply N.eqb_neq.
Qed.

Lemma outro_stops : stops isalnum (One TICK) outro.
Proof. destruct Houtro as [->|(o & ->)]; reflexivity. Qed.

Lemma closing_first sn mk :
  lookup "code_start" mk = Some fence ->
  first_way isalnum closing_fence
    (Cursor sn (LF :: fence ++ outro) mk) (Cursor (rev fence ++ LF :: sn) outro mk).
Proof.
  intros Hmk. unfold closing_fence.
  eapply first_cat.
  { apply first_newline. destruct (fence_head Hn) as (f & Hf).
    unfold fence. rewrite Hf. reflexivity. }
  eapply first_cat.
  { apply first_of_single. reflexivity. }
  eapply first_cat.
  { apply first_of_single.
    exact (@ref_way isalnum "code_start" fence outro (LF :: sn) mk Hmk). }
  apply first_of_single. apply not_ahead_way.
  apply no_rep; [exact outro_stops|lia].
Qed.

(** A shorter content cannot be closed: the closing fence is not there. *)
Lemma no_closing_before sn mk k :
  lookup "code_start" mk = Some fence ->
  k < length body ->
  ways closing_fence
    (set_mark "code_content"
       (consumed (Cursor sn (body ++ LF :: fence ++ outro) mk)
                 (advance k (Cursor sn (body ++ LF :: fence ++ outro) mk)))
       (advance k (Cursor sn (body ++ LF :: fence ++ outro) mk))) = [].
Proof.
  intros Hmk Hk.
  match goal with |- ways _ ?p = [] => set (p0 := p) end.
  destruct (ways closing_fence p0) as [|q l] eqn:E; [reflexivity|exfalso].
  assert (In q (ways closing_fence p0)) as Hq by (rewrite E; now left).
  unfold closing_fence in Hq.
  apply ways_cat in Hq. destruct Hq as (q1 & H1 & Hq).
  apply ways_cat in Hq. destruct Hq as (q2 & H2 & Hq).
  apply ways_cat in Hq. destruct Hq as (q3 & H3 & _).
  apply ways_newlines in H1. destruct H1 as (w & (Hrest & _) & Hm1 & _ & Hw).
  apply ways_not_behind in H2. destruct H2 as (-> & _).
  apply ways_ref in H3. destruct H3 as (f' & Hl & (Hr3 & _) & _).
  rewrite Hm1 in Hl. simpl in Hl. rewrite Hmk in Hl. injection Hl as <-.
  simpl in Hrest. rewrite skipn_app in Hrest.
  replace (k - length body) with 0 in Hrest by lia. simpl in Hrest.
  destruct Hbody as (_ & Hticks & _ & Hlast).
  destruct (@newline_run_inside w (rest q1) (fence ++ outro) (skipn k body))
    as (y & r' & Hy & Hin).
  - intros Hnil. apply (f_equal (@length char)) in Hnil.
    rewrite length_skipn in Hnil. simpl in Hnil. lia.
  - rewrite <- (firstn_skipn k body) in Hlast.
    rewrite last_of_app in Hlast; [exact Hlast|].
    intros Hnil. apply (f_equal (@length char)) in Hnil.
    rewrite length_skipn in Hnil. simpl in Hnil. lia.
  - exact Hw.
  - symmetry. exact Hrest.
  - rewrite Hr3 in Hy. destruct (fence_head Hn) as (f & Hf). fold fence in Hf.
    rewrite Hf in Hy. injection Hy as <- _. apply Hticks.
    rewrite <- (firstn_skipn k body). apply in_or_app. now right.
Qed.

Lemma content_first sn mk :
  lookup "code_start" mk = Some fence ->
  first_way isalnum (Cat code_content closing_fence)
    (Cursor sn (body ++ LF :: fence ++ outro) mk)
    (Cursor (rev fence ++ LF :: rev body ++ sn) outro
            (("code_content"%string, body) :: mk)).
Proof.
  intros Hmk.
  set (c := Cursor sn (body ++ LF :: fence ++ outro) mk).
  set (g := fun k => set_mark "code_content" (consumed c (advance k c)) (advance k c)).
  set (L := length (body ++ LF :: fence ++ outro)).
  assert (ways code_content c = map g (seq 0 (S L))) as Hways.
  { apply content_ways. }
  assert (S L = length body + S (L - length body)) as HL.
  { unfold L. rewrite length_app. simpl. lia. }
  rewrite HL, seq_app, map_app in Hways. cbn [Nat.add seq map] in Hways.
  eapply first_cat_after; [exact Hways| |].
  - intros p Hp. apply in_map_iff in Hp. destruct Hp as (k & <- & Hk).
    apply in_seq in Hk. apply no_closing_before; [exact Hmk|lia].
  - unfold g. unfold c at 2 3. rewrite advance_exact.
    rewrite (@span_consumed c body (Cursor (rev body ++ sn) (LF :: fence ++ outro) mk))
      by (split; reflexivity).
    apply (@closing_first (rev body ++ sn) (("code_content"%string, body) :: mk)).
    simpl. exact Hmk.
Qed.

(** The end of the pattern after the block. *)
Lemma end_first sn mk :
  exists c',
    first_way isalnum block_end (Cursor sn outro mk) c' /\
    marks c' = mk /\ rest c' = tl outro.
Proof.
  unfold block_end. destruct Houtro as [->|(o & ->)].
  - exists (Cursor sn [] mk). splits; auto.
    apply first_alt_right.
    + apply no_rep; [exact I|auto].
    + apply first_of_single. reflexivity.
  - exists (Cursor (LF :: sn) o mk). splits; auto.
    apply first_alt_left, first_of_single, lit_way.
Qed.

(** The first way of the pattern from the newlines before the block. *)
Lemma block_first sn lead :
  Forall (eq LF) lead ->
  exists c',
    first_way isalnum find_code_blocks (Cursor sn (lead ++ block ++ outro) []) c' /\
    rest c' = tl outro /\
    exists all,
      marks c' = ("code_all"%string, all) :: ("code_content"%string, body) ::
                 tag_marks tag ++ [("code_start"%string, fence)].
Proof.
  intros Hlead.
  set (c0 := Cursor sn (lead ++ block ++ outro) []).
  set (c1 := Cursor (rev lead ++ sn) (block ++ outro) []).
  set (mk := tag_marks tag ++ [("code_start"%string, fence)]).
  set (c9 := Cursor (rev fence ++ LF :: rev body ++ LF :: rev tag ++ rev fence ++
                     rev lead ++ sn)
                    outro (("code_content"%string, body) :: mk)).
  assert (block ++ outro = fence ++ tag ++ LF :: body ++ LF :: fence ++ outro) as Hblock.
  { unfold block. rewrite <- !app_assoc. cbn [app]. rewrite <- !app_assoc.
    reflexivity. }
  destruct (fence_head Hn) as (f & Hf). fold fence in Hf.
  assert (first_way isalnum block_lead c0 c1) as H0.
  { unfold block_lead, c0, c1. destruct lead as [|x lead'].
    - cbn [app rev]. rewrite Hblock, Hf. destruct sn as [|y sn'].
      + apply first_opt, first_alt_right.
        * apply no_rep; [reflexivity|lia].
        * apply first_of_single. reflexivity.
      + apply first_opt_skip, no_alt.
        * apply no_rep; [reflexivity|lia].
        * reflexivity.
    - apply first_opt, first_alt_left. apply first_rep.
      + revert Hlead. apply Forall_impl. intros a <-. reflexivity.
      + rewrite Hblock, Hf. reflexivity.
      + simpl. lia. }
  assert (first_way isalnum block_inside c1 c9) as H.
  { unfold block_inside, c1. rewrite Hblock.
    eapply first_cat; [apply opening_first|].
    eapply first_cat; [apply first_of_single, blanks_first|].
    eapply first_cat; [apply info_first|].
    eapply first_cat; [apply first_newline, body_stops|].
    apply content_first. destruct tag; reflexivity. }
  apply first_grp with (n := "code_all"%string) in H.
  destruct (end_first (seen c9) (("code_all"%string, consumed c1 c9) :: marks c9))
    as (c' & Hend & Hm & Hrest).
  exists c'. splits; auto.
  - rewrite pattern_parts.
    eapply first_cat; [exact H0|]. eapply first_cat; [exact H|]. exact Hend.
  - exists (consumed c1 c9). rewrite Hm. reflexivity.
Qed.

(** Before the last line of the text in front of the block, the pattern
    has no way. *)
Lemma no_way_before sn v :
  ~ In TICK v -> (exists v', v = v' ++ [LF]) -> ~ Forall (eq LF) v ->
  ways find_code_blocks (Cursor sn (v ++ block ++ outro) []) = [].
Proof.
  intros Hticks (v' & Hv) Hnot.
  destruct (ways find_code_blocks (Cursor sn (v ++ block ++ outro) [])) as [|c' l] eqn:E;
    [reflexivity|exfalso].
  assert (In c' (ways find_code_blocks (Cursor sn (v ++ block ++ outro) []))) as Hin
    by (rewrite E; now left).
  apply ways_find_code_blocks in Hin; [|reflexivity].
  destruct Hin as (lead & fence' & bl & line & ms & nl1 & body' & nl2 & tail & Hin).
  cbv zeta in Hin. destruct Hin as ((Hr & _) & Hlead & Hf & _).
  cbn [rest] in Hr.
  destruct Hf as (sp & tk & -> & Hsp & _ & Htk & Hlen).
  destruct tk as [|t0 tk]; [simpl in Hlen; lia|].
  apply Forall_inv in Htk. subst t0.
  destruct (fence_head Hn) as (f & Hf). fold fence in Hf.
  assert (v = lead ++ sp) as Hsplit.
  { apply first_tick with (b := f ++ tag ++ LF :: body ++ LF :: fence ++ outro)
                          (d := tk ++ bl ++ line ++ nl1 ++ body' ++ nl2 ++
                                (sp ++ TICK :: tk) ++ tail ++ rest c').
    - exact Hticks.
    - intros H. apply in_app_or in H. destruct H as [H|H].
      + rewrite Forall_forall in Hlead. apply Hlead in H. discriminate.
      + rewrite Forall_forall in Hsp. apply Hsp in H. discriminate.
    - transitivity (v ++ block ++ outro).
      + unfold block. rewrite Hf. rewrite <- !app_assoc. cbn [app].
        rewrite <- !app_assoc. reflexivity.
      + rewrite Hr. rewrite <- ?app_assoc. cbn [app].
        rewrite <- ?app_assoc. reflexivity. }
  apply Hnot. rewrite Hsplit.
  destruct sp as [|s0 sp]; [now rewrite app_nil_r|exfalso].
  rewrite Hsplit in Hv.
  assert (last (lead ++ s0 :: sp) TICK = LF) as Hl1.
  { rewrite Hv. rewrite last_of_app by discriminate. reflexivity. }
  rewrite last_of_app in Hl1 by discriminate.
  assert (In (last (s0 :: sp) TICK) (s0 :: sp)) as Hl2.
  { destruct (@exists_last _ (s0 :: sp)) as (u & z & Hu); [discriminate|].
    rewrite Hu. rewrite last_last. apply in_or_app. right. now left. }
  rewrite Hl1 in Hl2. rewrite Forall_forall in Hsp. apply Hsp in Hl2. discriminate.
Qed.

(** The scan of a text that starts with the lines before the block: the
    block is the first match, and the scan goes on behind it. *)
Lemma scan_block before intro :
  ~ In TICK intro -> ends_line intro ->
  exists m before',
    scan isalnum find_code_blocks before (intro ++ block ++ outro) =
      m :: scan isalnum find_code_blocks before' (tl outro) /\
    exists all,
      m_marks m = ("code_all"%string, all) :: ("code_content"%string, body) ::
                  tag_marks tag ++ [("code_start"%string, fence)].
Proof.
  assert (forall lead : text, length (tl outro) < length (lead ++ block ++ outro))
    as Hshorter.
  { intros lead. rewrite !length_app. unfold block. rewrite length_app.
    destruct (fence_head Hn) as (f & Hf). fold fence in Hf. rewrite Hf.
    destruct outro; simpl; lia. }
  intros Hticks Hends. revert before Hticks Hends.
  induction intro as [|x intro IH]; intros before Hticks Hends.
  - destruct (@block_first before [] (Forall_nil _)) as (c' & (l & Hw) & Hrest & all & Hm).
    cbn [app] in *. rewrite scan_step, Hw.
    destruct (lt_dec (length (rest c')) (length (block ++ outro))) as [_|Hge].
    + rewrite Hrest. eexists _, _. split; [reflexivity|]. exists all. exact Hm.
    + exfalso. apply Hge. rewrite Hrest. apply (Hshorter []).
  - destruct (all_newlines_dec (x :: intro)) as [Hall|Hnot].
    + destruct (@block_first before (x :: intro) Hall)
        as (c' & (l & Hw) & Hrest & all & Hm).
      rewrite scan_step, Hw.
      destruct (lt_dec (length (rest c')) (length ((x :: intro) ++ block ++ outro)))
        as [_|Hge].
      * rewrite Hrest. eexists _, _. split; [reflexivity|]. exists all. exact Hm.
      * exfalso. apply Hge. rewrite Hrest. apply Hshorter.
    + assert (exists v', x :: intro = v' ++ [LF]) as Hlast.
      { destruct Hends as [H|H]; [discriminate|exact H]. }
      rewrite scan_step. rewrite (@no_way_before before (x :: intro) Hticks Hlast Hnot).
      cbn [app]. apply IH.
      * intros H. apply Hticks. now right.
      * destruct intro as [|y intro']; [now left|]. right.
        destruct Hlast as (v' & Hv).
        destruct v' as [|z v'].
        -- discriminate.
        -- injection Hv as _ Hv. eauto.
Qed.

End Embedded.

Section Prose.
Variable isalnum : char -> bool.

(** A text with one block on lines of its own and no backtick elsewhere. *)
Lemma one_block_found n intro tag body outro :
  plain_table isalnum ->
  3 <= n -> tag_chars isalnum tag -> plain_body body ->
  ~ In TICK intro -> ends_line intro ->
  ~ In TICK outro -> starts_line outro ->
  let s := intro ++ repeat TICK n ++ tag ++ LF :: body ++ LF :: repeat TICK n ++ outro in
  (exists m,
     finditer isalnum find_code_blocks s = [m] /\
     group "code_start" m = Some (repeat TICK n) /\
     group "code_class" m = match tag with [] => None | _ :: _ => Some tag end /\
     group "code_content" m = Some body) /\
  (tag = python -> calls_in isalnum s = [VStr body]) /\
  (tag <> python -> calls_in isalnum s = []).
Proof.
  intros Htable Hn Htag Hbody Hintro Hends Houtro Hstarts s.
  destruct (@scan_block isalnum Htable n tag body outro Hn Htag Hbody Hstarts
              [] intro Hintro Hends) as (m & before' & Hscan & all & Hm).
  rewrite (@scan_no_ticks isalnum before' (tl outro)) in Hscan
    by (intros H; apply Houtro; destruct outro; [exact H|now right]).
  assert (finditer isalnum find_code_blocks s = [m]) as Hfind.
  { unfold finditer, s. rewrite <- Hscan. f_equal.
    rewrite <- !app_assoc. cbn [app]. rewrite <- !app_assoc. reflexivity. }
  assert (group "code_class" m = match tag with [] => None | _ :: _ => Some tag end)
    as Hclass.
  { unfold group. rewrite Hm. destruct tag; reflexivity. }
  assert (group "code_content" m = Some body) as Hcontent.
  { unfold group. rewrite Hm. reflexivity. }
  split; [|split].
  - exists m. splits; auto.
    unfold group. rewrite Hm. destruct tag; reflexivity.
  - intros ->. unfold calls_in, function_calls_of. rewrite Hfind. cbn [filter].
    assert (group "code_class" m = Some python) as Hp by (rewrite Hclass; reflexivity).
    apply equals_str_group in Hp. rewrite Hp. cbn [map].
    unfold group_value. now rewrite Hcontent.
  - intros Hne. unfold calls_in, function_calls_of. rewrite Hfind. cbn [filter].
    destruct (equals_str (group_value "code_class" m) python) eqn:E; [|reflexivity].
    exfalso. apply equals_str_group in E. rewrite Hclass in E.
    destruct tag as [|x t]; [discriminate|]. apply Hne.
    exact (f_equal (fun o => match o with Some u => u | None => [] end) E).
Qed.

End Prose.

(** ** Several blocks *)

Lemma document_cons b bs outro :
  document (b :: bs) outro =
  b_gap b ++ block_text b ++
  match bs with
  | [] => outro
  | _ :: _ => LF :: document bs outro
  end.
Proof. reflexivity. Qed.

Section Documents.
Variable isalnum : char -> bool.
Hypothesis Htable : plain_table isalnum.

Lemma scan_document bs outro :
  Forall (simple_block isalnum) bs ->
  ~ In TICK outro -> (bs <> [] -> starts_line outro) ->
  forall before,
    Forall2 matches_block
      (scan isalnum find_code_blocks before (document bs outro)) bs.
Proof.
  intros Hbs Houtro Hstarts.
  induction Hbs as [|b bs Hb Hbs IH]; intros before.
  - cbn [document]. rewrite scan_no_ticks by exact Houtro. constructor.
  - destruct Hb as (Hgap & Hends & Hn & Htag & Hbody).
    assert (starts_line match bs with
                        | [] => outro
                        | _ :: _ => LF :: document bs outro
                        end) as Hnext.
    { destruct bs; [apply Hstarts; discriminate|]. right. eauto. }
    destruct (@scan_block isalnum Htable (b_ticks b) (b_tag b) (b_body b) _
                Hn Htag Hbody Hnext before (b_gap b) Hgap Hends)
      as (m & before' & Hscan & all & Hm).
    rewrite document_cons. unfold block_text.
    match goal with |- Forall2 _ ?x _ =>
      replace x with (m :: scan isalnum find_code_blocks before'
                            (tl match bs with
                                | [] => outro
                                | _ :: _ => LF :: document bs outro
                                end))
        by (symmetry; exact Hscan)
    end.
    constructor.
    + unfold matches_block, group, class_of. rewrite Hm.
      destruct (b_tag b); splits; reflexivity.
    + destruct bs as [|b' bs'].
      * cbn [tl]. rewrite scan_no_ticks; [constructor|].
        intros H. apply Houtro. destruct outro; [exact H|now right].
      * cbn [tl]. apply IH. intros _. apply Hstarts. discriminate.
Qed.

Lemma class_is_python b : class_of b = Some python <-> b_tag b = python.
Proof.
  unfold class_of. split.
  - destruct (b_tag b) as [|x t]; [discriminate|]. intros H.
    exact (f_equal (fun o => match o with Some u => u | None => [] end) H).
  - intros ->. reflexivity.
Qed.

Lemma calls_of_blocks ms bs :
  Forall2 matches_block ms bs ->
  function_calls_of ms =
  map (fun b => VStr (b_body b)) (filter (fun b => text_eqb (b_tag b) python) bs).
Proof.
  unfold function_calls_of.
  induction 1 as [|m b ms bs (_ & Hclass & Hbody) _ IH]; [reflexivity|].
  cbn [filter].
  destruct (equals_str (group_value "code_class" m) python) eqn:E.
  - apply equals_str_group in E. rewrite Hclass in E.
    apply class_is_python, text_eqb_eq in E. rewrite E.
    cbn [map]. rewrite IH. unfold group_value. rewrite Hbody. reflexivity.
  - destruct (text_eqb (b_tag b) python) eqn:E2; [|exact IH].
    exfalso. apply text_eqb_eq, class_is_python in E2. rewrite <- Hclass in E2.
    apply equals_str_group in E2. congruence.
Qed.

End Documents.

Ltac not_in_text :=
  vm_compute;
  let H := fresh "H" in
  intros H; repeat (destruct H as [H|H]; [discriminate|]); exact H.

Ltac simple_block_here g :=
  unfold simple_block; cbn [b_gap b_ticks b_tag b_body]; splits;
  [ not_in_text
  | first [ left; reflexivity | right; exists g; reflexivity ]
  | lia
  | vm_compute; repeat constructor
  | vm_compute; splits; first [ discriminate | not_in_text ] ].

(** * Examples *)

(** The pattern on small texts; the engine of Python 3 gives the same
    matches. *)

Example python_block_found :
  tags_and_bodies first_answer = [(Some python, Some weather_call)].
Proof. vm_compute. reflexivity. Qed.

Example match_span : m_start weather_match = 20 /\ m_end weather_match = 63.
Proof. vm_compute. auto. Qed.

Example capital_tag_is_another_tag :
  tags_and_bodies (txt "```Python" ++ NL ++ weather_call ++ NL ++ txt "```") =
    [(Some (txt "Python"), Some weather_call)] /\
  calls_in ascii_alnum (txt "```Python" ++ NL ++ weather_call ++ NL ++ txt "```") = [].
Proof. vm_compute. auto. Qed.

Example untagged_block_is_not_called :
  tags_and_bodies (txt "```" ++ NL ++ weather_call ++ NL ++ txt "```") =
    [(None, Some weather_call)] /\
  calls_in ascii_alnum (txt "```" ++ NL ++ weather_call ++ NL ++ txt "```") = [].
Proof. vm_compute. auto. Qed.

Example blank_lines_are_not_body :
  tags_and_bodies (txt "```python" ++ NL ++ NL ++ txt "a" ++ NL ++ NL ++ txt "```") =
    [(Some python, Some (txt "a"))].
Proof. vm_compute. reflexivity. Qed.

Example empty_block_is_not_matched :
  tags_and_bodies (txt "```python" ++ NL ++ txt "```") = [].
Proof. vm_compute. reflexivity. Qed.

Example longer_opening_run :
  map m_start (finditer ascii_alnum find_code_blocks
                 (txt "````python" ++ NL ++ txt "a" ++ NL ++ txt "```")) = [1].
Proof. vm_compute. reflexivity. Qed.

Example indented_closing_fence :
  tags_and_bodies (txt "```python" ++ NL ++ txt "a" ++ NL ++ txt "  ```") = [].
Proof. vm_compute. reflexivity. Qed.

Example two_blocks_in_order :
  calls_in ascii_alnum
    (txt "```python" ++ NL ++ txt "a()" ++ NL ++ txt "```" ++ NL ++
     txt "```js" ++ NL ++ txt "b()" ++ NL ++ txt "```" ++ NL ++
     txt "```python" ++ NL ++ txt "c()" ++ NL ++ txt "```") =
  [VStr (txt "a()"); VStr (txt "c()")].
Proof. vm_compute. reflexivity. Qed.

(** The script in the three worlds. *)

Example demo_run_returns : ending ascii_alnum demo_world = Return tt.
Proof. vm_compute. reflexivity. Qed.

Example demo_run_calls :
  runs (trace (final ascii_alnum demo_world)) =
    [VStr function_code; VStr weather_call].
Proof. vm_compute. reflexivity. Qed.

Example demo_run_transcript :
  skipn 3 (messages (final ascii_alnum demo_world)) =
    [ message assistant (VStr first_answer);
      message user (VStr weather_report);
      message assistant (VStr last_answer) ].
Proof. vm_compute. reflexivity. Qed.

Example plain_run_transcript :
  skipn 3 (messages (final ascii_alnum plain_world)) =
    [ message assistant (VStr (txt "Pune is usually warm."));
      message user (VStr []);
      message assistant (VStr (txt "Pune is usually warm.")) ].
Proof. vm_compute. reflexivity. Qed.

Example failing_run :
  ending ascii_alnum failing_world = Raise (ClientResponseError 500) /\
  messages (final ascii_alnum failing_world) = initial_messages /\
  map step_of (trace (final ascii_alnum failing_world)) = [SPost].
Proof. vm_compute. auto. Qed.

(** An answer with two blocks: both are matched, one is a function call
    and is run. *)
Example mixed_run :
  tags_and_bodies mixed_answer =
    [(Some python, Some weather_call); (Some (txt "js"), Some (txt "alert(1)"))] /\
  ending ascii_alnum mixed_world = Return tt /\
  runs (trace (final ascii_alnum mixed_world)) =
    [VStr function_code; VStr weather_call].
Proof. vm_compute. auto. Qed.

(** * The claims *)

(** ** [chat] *)

Section ChatClaims.

Variable w : world.

(** C4.  When the reply to the request of [chat] has an error status (400
    or above), [chat] raises [ClientResponseError] to its caller; the
    transcript is left as it was, the body of the reply is not read
    (no [ReadJson] event) and no second request is sent: the request is the
    only new event of the trace. *)
Theorem chat_error_status_raises model server st r :
  session_post w (trace st) (server ++ txt "/api/chat")
               (payload model (messages st)) = Ok r ->
  (400 <= status r)%Z ->
  chat w model server st =
    (Raise (ClientResponseError (status r)),
     {| messages := messages st;
        trace := trace st ++
                 [Post (server ++ txt "/api/chat")
                       (payload model (messages st)) (Ok r)] |}).
Proof.
  intros Hreply Hstatus. rewrite chat_eq. cbv zeta. rewrite Hreply.
  unfold ok. destruct (status r <? 400)%Z eqn:E; [|reflexivity].
  apply Z.ltb_lt in E. lia.
Qed.

(** C8.  Every call of [chat] sends exactly one request: a POST to
    [server + "/api/chat"] whose body is the dict with the four keys
    [model], [messages] (the whole transcript), [stream] (false) and
    [options] (the two sampling options).  When [chat] returns, the value
    returned is the one found at [["message"]["content"]] of the JSON body
    of the reply. *)
Theorem chat_request_and_result model server st :
  exists reply evs,
    trace (snd (chat w model server st)) =
      trace st ++
      Post (server ++ txt "/api/chat")
           (VDict [ (txt "model", VStr model);
                    (txt "messages", VList (messages st));
                    (txt "stream", VBool false);
                    (txt "options", VDict [ (txt "num_ctx", VInt 8192);
                                            (txt "top_p", VFloat 95 (-2)) ]) ])
           reply :: evs /\
    posts evs = [] /\
    forall content,
      fst (chat w model server st) = Return content ->
      exists r body msg,
        reply = Ok r /\ json r = Ok body /\
        getitem body (txt "message") = Ok msg /\
        getitem msg (txt "content") = Ok content.
Proof.
  rewrite chat_eq. cbv zeta. fold (payload model (messages st)).
  destruct (session_post w (trace st) (server ++ txt "/api/chat")
              (payload model (messages st))) as [r|e].
  - destruct (ok r).
    + unfold reply_content.
      destruct (json r) as [body|e] eqn:Hj.
      * destruct (getitem body (txt "message")) as [msg|e] eqn:Hm.
        -- destruct (getitem msg (txt "content")) as [content|e] eqn:Hc.
           ++ exists (Ok r), [ReadJson]. cbn [fst snd trace].
              rewrite <- app_assoc. splits; auto.
              intros c [= <-]. exists r, body, msg. auto.
           ++ exists (Ok r), [ReadJson]. cbn [fst snd trace].
              rewrite <- app_assoc. splits; auto. discriminate.
        -- exists (Ok r), [ReadJson]. cbn [fst snd trace].
           rewrite <- app_assoc. splits; auto. discriminate.
      * exists (Ok r), [ReadJson]. cbn [fst snd trace].
        rewrite <- app_assoc. splits; auto. discriminate.
    + exists (Ok r), []. cbn [fst snd trace]. splits; auto. discriminate.
  - exists (Err e), []. cbn [fst snd trace]. splits; auto. discriminate.
Qed.

(** C10.  A call of [chat] that returns [content] has appended exactly one
    record, [{"role": "assistant", "content": content}], at the end of the
    transcript; the records that were there are unchanged and in the same
    order.  The only other component of the state, the trace of outside
    calls, has grown by the request and the reading of its body. *)
Theorem chat_appends_assistant_message model server st content st' :
  chat w model server st = (Return content, st') ->
  messages st' = messages st ++ [message assistant content] /\
  role_of (message assistant content) = Some (VStr assistant) /\
  content_of (message assistant content) = Some content /\
  exists reply,
    trace st' =
      trace st ++
      [Post (server ++ txt "/api/chat") (payload model (messages st)) reply;
       ReadJson].
Proof.
  intros H.
  destruct (chat_run w model server st)
    as [(e & evs & _ & Heq)|(r & c & Hr & _ & Heq)]; cbv zeta in *;
    rewrite Heq in H; [discriminate|].
  injection H as <- <-. cbn [messages trace]. splits; auto.
  eauto.
Qed.

End ChatClaims.

(** C4 at the failing server. *)
Lemma chat_error_status_raises_witness :
  chat failing_world model_name default_server
       {| messages := initial_messages; trace := [] |} =
  (Raise (ClientResponseError 500),
   {| messages := initial_messages;
      trace := [asked initial_messages
                  (reply_with 500 (VStr (txt "Internal Server Error")))] |}).
Proof.
  apply (@chat_error_status_raises failing_world model_name default_server
           {| messages := initial_messages; trace := [] |}
           {| status := 500;
              json := Ok (VDict [
                (txt "model", VStr model_name);
                (txt "message", VDict [(txt "role", VStr assistant);
                   (txt "content", VStr (txt "Internal Server Error"))]);
                (txt "done", VBool true) ]) |}).
  - reflexivity.
  - simpl. lia.
Defined.

(** ** [main] *)

Section MainClaims.

Variable isalnum : char -> bool.
Variable w : world.

(** C1, as amended.  The calls of a run follow one fixed order: the first
    chat request and the reading of its reply, the two prints, the start of
    the sandbox and the run of the function definitions, the run of every
    function call in the order of the reply, the print of the outputs, the
    second chat request, and the end.  Every run, also one cut short by an
    exception, is a beginning of that order: nothing is run before the
    first reply was read, and the follow-up request comes after every run.
    The function calls are not all the blocks the pattern extracts: they
    are the contents of the matches whose tag is exactly [python], in the
    order of the matches; a block with another tag, or with none, is
    extracted and never run.  A run that returns has the whole order: the
    function calls of the first reply are run in their order, the outputs
    are joined in the same order, and the one follow-up request carries
    them as the last message of its history. *)
Theorem linear_pipeline :
  (exists later,
     map step_of (trace (final isalnum w)) ++ later =
     pipeline (extracted isalnum (trace (final isalnum w)))) /\
  (forall s,
     first_reply (trace (final isalnum w)) = Some (VStr s) ->
     extracted isalnum (trace (final isalnum w)) =
       map (group_value "code_content")
           (filter (fun m => equals_str (group_value "code_class" m) python)
                   (finditer isalnum find_code_blocks s)) /\
     forall code,
       In code (extracted isalnum (trace (final isalnum w))) <->
       exists m, In m (finditer isalnum find_code_blocks s) /\
                 group "code_class" m = Some python /\
                 code = group_value "code_content" m) /\
  (ending isalnum w = Return tt ->
   exists r s ex0 exs r' answer,
     chat_gives r (VStr s) /\ chat_gives r' answer /\
     length exs = length (calls_in isalnum s) /\
     trace (final isalnum w) =
       [asked initial_messages (Ok r); ReadJson; Print (VStr s);
        Print (VList (calls_in isalnum s)); Start (Ok tt);
        Run (VStr function_code) (Ok ex0)] ++
       served (calls_in isalnum s) exs ++
       [Print (VStr (outputs_of exs));
        asked (initial_messages ++
               [message assistant (VStr s);
                message user (VStr (outputs_of exs))]) (Ok r');
        ReadJson; Print answer; Stop (Ok tt); Close (Ok tt)]).
Proof.
  assert (forall tr s,
            first_reply tr = Some (VStr s) ->
            extracted isalnum tr =
              map (group_value "code_content")
                  (filter (fun m => equals_str (group_value "code_class" m) python)
                          (finditer isalnum find_code_blocks s)) /\
            forall code,
              In code (extracted isalnum tr) <->
              exists m, In m (finditer isalnum find_code_blocks s) /\
                        group "code_class" m = Some python /\
                        code = group_value "code_content" m) as Hkept.
  { intros tr s Hs. unfold extracted. rewrite Hs. split; [reflexivity|].
    intros code. apply calls_in_python. }
  split; [|split; [intros s; apply Hkept|]].
  all: destruct (main_total isalnum w) as
    [reply e evs Hf | r r1 Hg Hn | r s e Hg | r s e Hg
    | r s ex0 done exs c later e Hg Hc Hlen
    | r s ex0 exs reply e evs Hg Hlen Hf
    | r s ex0 exs r' answer last out Hg Hlen Hg' Hlast ];
    cbn [trace app]; try discriminate.
  - destruct Hf; eexists; unfold pipeline; reflexivity.
  - eexists. unfold pipeline. reflexivity.
  - erewrite extracted_asked by exact Hg. eexists. unfold pipeline. reflexivity.
  - erewrite extracted_asked by exact Hg. eexists. unfold pipeline. reflexivity.
  - erewrite extracted_asked by exact Hg. rewrite Hc. unfold pipeline, asked.
    eexists. cbn [map step_of app].
    rewrite !map_app, (steps_served _ _ Hlen).
    cbn [map step_of app]. rewrite <- !app_assoc. cbn [app]. reflexivity.
  - cbv zeta. erewrite extracted_asked by exact Hg. unfold pipeline, asked.
    destruct Hf; eexists; cbn [map step_of app];
      rewrite !map_app, (steps_served _ _ Hlen);
      cbn [map step_of app]; rewrite <- ?app_assoc; cbn [app]; reflexivity.
  - cbv zeta. erewrite extracted_asked by exact Hg. unfold pipeline, asked.
    destruct Hlast; eexists; cbn [map step_of app];
      rewrite !map_app, (steps_served _ _ Hlen);
      cbn [map step_of app]; rewrite <- ?app_assoc; cbn [app]; reflexivity.
  - intros ->. inversion Hlast; subst.
    exists r, s, ex0, exs, r', answer. splits; auto.
Qed.

(** C3.  When the transcript of a run has a fifth message, it is the one
    user message [{"role": "user", "content": outputs}], where [outputs]
    joins with two newlines one string per function call, in the order of
    the calls; the string for a call is the stderr of its run when that is
    non-empty and its stdout otherwise.  No other message appended after
    the three initial ones has the role [user]. *)
Theorem outputs_message m :
  nth_error (messages (final isalnum w)) 4 = Some m ->
  exists strs,
    m = message user (VStr (join (NL ++ NL) strs)) /\
    Forall2 Spec.collects (tl (executions (trace (final isalnum w)))) strs /\
    tl (runs (trace (final isalnum w))) =
      extracted isalnum (trace (final isalnum w)) /\
    forall k m',
      nth_error (messages (final isalnum w)) k = Some m' ->
      3 <= k -> role_of m' = Some (VStr user) -> k = 4.
Proof.
  change 4 with (3 + 1).
  main_cases isalnum w; rewrite <- ?app_assoc, ?nth_initial, ?nth_initial_only;
    try discriminate.
  - intros [= <-]. exists (map collected exs).
    erewrite extracted_asked_app by exact Hg.
    rewrite executions_app, executions_app, runs_app, runs_app.
    rewrite (executions_served _ _ Hlen), (runs_served _ _ Hlen).
    rewrite executions_app, runs_app, (executions_fails Hf), (runs_fails Hf).
    cbn [flat_map app tl executions runs]. rewrite !app_nil_r.
    splits; auto using collects_all.
    intros k m' Hk Hge Hrole.
    destruct k as [|[|[|[|[|k]]]]]; try lia; cbn [nth_error initial_messages app] in Hk.
    + injection Hk as <-. now apply assistant_message_not_user in Hrole.
    + destruct k; discriminate.
  - intros [= <-]. exists (map collected exs).
    erewrite extracted_asked_app by exact Hg.
    rewrite executions_app, executions_app, runs_app, runs_app.
    rewrite (executions_served _ _ Hlen), (runs_served _ _ Hlen).
    rewrite executions_app, runs_app.
    rewrite (executions_closing Hlast), (runs_closing Hlast).
    cbn [flat_map app tl executions runs]. rewrite !app_nil_r.
    splits; auto using collects_all.
    intros k m' Hk Hge Hrole.
    destruct k as [|[|[|[|[|[|k]]]]]]; try lia; cbn [nth_error initial_messages app] in Hk.
    + injection Hk as <-. now apply assistant_message_not_user in Hrole.
    + injection Hk as <-. now apply assistant_message_not_user in Hrole.
    + destruct k; discriminate.
Qed.

(** C5.  The transcript only grows at its end.  A call of [chat] leaves
    the transcript it found as a prefix of the one it leaves, and the one
    request it sends carries that whole transcript under ["messages"].  In
    a run of [main] the transcript starts as the three initial messages and
    is only appended to; every request of the run carries, under
    ["messages"], a prefix of the final transcript: the transcript of the
    moment it was sent. *)
Theorem transcript_append_only :
  (forall model server st,
     exists appended reply evs,
       messages (snd (chat w model server st)) = messages st ++ appended /\
       trace (snd (chat w model server st)) =
         trace st ++
         Post (server ++ txt "/api/chat") (payload model (messages st)) reply
         :: evs /\
       posts evs = [] /\
       getitem (payload model (messages st)) (txt "messages") =
         Ok (VList (messages st))) /\
  (exists appended,
     messages (final isalnum w) = initial_messages ++ appended) /\
  Forall (fun request =>
            exists k,
              getitem (snd request) (txt "messages") =
                Ok (VList (firstn k (messages (final isalnum w)))))
         (posts (trace (final isalnum w))).
Proof.
  split; [|split].
  - intros model server st.
    destruct (chat_run w model server st)
      as [(e & evs & Hf & Heq)|(r & c & Hr & _ & Heq)]; cbv zeta in *;
      rewrite Heq; cbn [snd messages trace].
    + exists [], (session_post w (trace st) (server ++ txt "/api/chat")
                    (payload model (messages st))), evs.
      rewrite app_nil_r. splits; auto. now apply posts_fails in Hf.
    + exists [message assistant c],
        (session_post w (trace st) (server ++ txt "/api/chat")
           (payload model (messages st))), [ReadJson].
      splits; auto.
  - main_cases isalnum w; rewrite <- ?app_assoc; eauto.
    exists []. now rewrite app_nil_r.
  - main_cases isalnum w; unfold asked;
      try change (Post ?a ?b ?c :: evs) with ([Post a b c] ++ evs);
      rewrite ?posts_app, ?posts_served;
      try rewrite (posts_closing Hlast); try rewrite (posts_fails Hf);
      cbn [posts flat_map app]; rewrite <- ?app_assoc;
      repeat first [apply Forall_nil | apply Forall_cons].
    all: cbn [snd]; rewrite payload_messages.
    all: try (exists 3; reflexivity).
    all: exists 5; reflexivity.
Qed.

(** C7.  The roles of the transcript of a run are a beginning of
    user, user, user, assistant, user, assistant, and at least the first
    three: the three initial messages and the outputs message have the role
    ["user"], the two messages appended by [chat] the role ["assistant"],
    and no other role occurs. *)
Theorem transcript_roles :
  (exists later,
     map role_of (messages (final isalnum w)) ++ later =
     map (fun r => Some (VStr r)) [user; user; user; assistant; user; assistant]) /\
  3 <= length (messages (final isalnum w)) /\
  Forall Spec.known_role (messages (final isalnum w)).
Proof.
  assert (forall c, Spec.known_role (message user c)) as Hu by (intros; now left).
  assert (forall c, Spec.known_role (message assistant c)) as Ha by (intros; now right).
  main_cases isalnum w; unfold initial_messages; cbn [app map length];
    rewrite ?role_of_message; (split; [|split]).
  all: try (eexists; reflexivity).
  all: try lia.
  all: repeat first [apply Forall_nil | apply Forall_cons]; auto.
Qed.

(** The codes run after the function definitions are a beginning of the
    function calls of the first reply. *)
Lemma executed_prefix :
  exists later,
    tl (runs (trace (final isalnum w))) ++ later =
    extracted isalnum (trace (final isalnum w)).
Proof.
  main_cases isalnum w.
  - change (asked initial_messages reply :: evs)
      with ([asked initial_messages reply] ++ evs).
    rewrite runs_app, (runs_fails Hf). unfold asked.
    cbn [runs flat_map app tl]. eexists. reflexivity.
  - unfold asked. cbn [runs flat_map app tl]. eexists. reflexivity.
  - unfold asked. cbn [runs flat_map app tl]. eexists. reflexivity.
  - unfold asked. cbn [runs flat_map app tl]. eexists. reflexivity.
  - erewrite extracted_asked_app by exact Hg.
    rewrite !runs_app, (runs_served _ _ Hlen), Hc.
    unfold asked. cbn [runs flat_map app tl]. exists later. rewrite <- app_assoc. reflexivity.
  - erewrite extracted_asked_app by exact Hg.
    rewrite !runs_app, (runs_served _ _ Hlen), (runs_fails Hf).
    unfold asked. cbn [runs flat_map app tl]. exists []. now rewrite !app_nil_r.
  - erewrite extracted_asked_app by exact Hg.
    rewrite !runs_app, (runs_served _ _ Hlen), (runs_closing Hlast).
    unfold asked. cbn [runs flat_map app tl]. exists []. now rewrite !app_nil_r.
Qed.

(** C9.  Every code run in the sandbox after the function definitions is
    the content of a match of the pattern in the first reply whose
    [code_class] group is exactly ["python"]: in the reply, the opening
    fence of that block is followed, after optional blanks, by the text
    [python] and at most a braced attribute before the end of the line.
    The function calls of the reply are the contents of the matches with
    that tag and of no other: a block whose tag is anything else, or that
    has no tag, is not among them. *)
Theorem only_python_blocks_run code :
  In code (tl (runs (trace (final isalnum w)))) ->
  exists s m,
    first_reply (trace (final isalnum w)) = Some (VStr s) /\
    In m (finditer isalnum find_code_blocks s) /\
    group "code_class" m = Some python /\
    code = group_value "code_content" m /\
    (forall c,
       In c (calls_in isalnum s) <->
       exists m', In m' (finditer isalnum find_code_blocks s) /\
                  group "code_class" m' = Some python /\
                  c = group_value "code_content" m') /\
    exists pre fence bl attrs nl1 body nl2 post,
      code = VStr body /\
      s = pre ++ fence ++ bl ++ python ++ attrs ++ nl1 ++ body ++ nl2 ++
          fence ++ post /\
      fence_text fence /\ blank bl /\ newlines nl1 /\ newlines nl2 /\
      (attrs = [] \/ exists x, braces attrs x).
Proof.
  intros Hin.
  assert (exists s, first_reply (trace (final isalnum w)) = Some (VStr s) /\
                    In code (calls_in isalnum s)) as (s & Hfirst & Hcode).
  { destruct executed_prefix as (later & Hpre).
    assert (In code (extracted isalnum (trace (final isalnum w)))) as Hex.
    { rewrite <- Hpre. apply in_or_app. now left. }
    unfold extracted in Hex.
    destruct (first_reply (trace (final isalnum w))) as [[| | | |s| |]|];
      try contradiction.
    exists s. auto. }
  apply calls_in_python in Hcode. destruct Hcode as (m & Hm & Hp & ->).
  exists s, m. splits; auto.
  - intros c. apply calls_in_python.
  - apply finditer_block_at, block_groups in Hm.
    destruct Hm as (pre & lead & fence & bl & line & nl1 & body & nl2 & tail
                    & post & Hs & _ & Hf & Hbl & Ht & Hn1 & Hn2 & _ & _ & Hb & _).
    rewrite Hp in Ht. destruct Ht as [_ Ht].
    assert (exists attrs, line = python ++ attrs /\
              (attrs = [] \/ exists x, braces attrs x)) as (attrs & -> & Ha).
    { destruct Ht as [->|(a & x & Hx & ->)].
      - exists []. rewrite app_nil_r. auto.
      - exists a. eauto. }
    exists (pre ++ lead), fence, bl, attrs, nl1, body, nl2, (tail ++ post).
    unfold group_value. rewrite Hb. splits; auto.
    rewrite Hs. now rewrite <- !app_assoc.
Qed.

(** C6, as amended.  The three initial messages have non-empty text as
    content, and every message of the transcript has a content.  The
    content of the first appended message is the value the first reply
    holds at [["message"]["content"]], whatever it is, and the content of
    the outputs message is the join of one string per function call: a text
    that is empty when no function call was extracted. *)
Theorem transcript_contents :
  Forall Spec.nonempty_content (firstn 3 (messages (final isalnum w))) /\
  (forall m, In m (messages (final isalnum w)) -> exists v, content_of m = Some v) /\
  (forall m, nth_error (messages (final isalnum w)) 3 = Some m ->
     exists v, first_reply (trace (final isalnum w)) = Some v /\
               content_of m = Some v) /\
  (forall m, nth_error (messages (final isalnum w)) 4 = Some m ->
     exists exs,
       content_of m = Some (VStr (outputs_of exs)) /\
       length exs = length (extracted isalnum (trace (final isalnum w))) /\
       (extracted isalnum (trace (final isalnum w)) = [] ->
        content_of m = Some (VStr []))).
Proof.
  assert (forall l m, In m (initial_messages ++ l) ->
            (forall x, In x l -> exists v, content_of x = Some v) ->
            exists v, content_of m = Some v) as Hall.
  { intros l m Hin Hl. apply in_app_or in Hin. destruct Hin as [Hin|Hin]; auto.
    unfold initial_messages in Hin.
    destruct Hin as [<-|[<-|[<-|[]]]]; rewrite content_of_message; eauto. }
  assert (forall l, Forall Spec.nonempty_content (firstn 3 (initial_messages ++ l)))
    as Hinit by (intros; exact initial_messages_nonempty).
  split; [|split; [|split]].
  - main_cases isalnum w; rewrite <- ?app_assoc;
      first [apply Hinit | exact initial_messages_nonempty].
  - intros m Hin. revert Hin.
    main_cases isalnum w; rewrite <- ?app_assoc; intros Hin;
      try rewrite <- (app_nil_r initial_messages) in Hin;
      apply (Hall _ _ Hin); cbn [In app]; intros x Hx;
      repeat (destruct Hx as [<-|Hx]; [rewrite content_of_message; eauto|]);
      contradiction.
  - change 3 with (3 + 0).
    main_cases isalnum w; rewrite <- ?app_assoc, ?nth_initial, ?nth_initial_only;
      cbn [nth_error app]; try discriminate;
      intros m [= <-]; rewrite content_of_message; unfold first_reply, asked;
      cbn [app]; rewrite (proj2 Hg); eauto.
  - change 4 with (3 + 1).
    main_cases isalnum w; rewrite <- ?app_assoc, ?nth_initial, ?nth_initial_only;
      cbn [nth_error app]; try discriminate;
      intros m [= <-]; exists exs; rewrite content_of_message;
      erewrite extracted_asked by exact Hg; splits; auto;
      intros Hnil; rewrite Hnil in Hlen; (destruct exs; [reflexivity|discriminate]).
Qed.

End MainClaims.

(** ** The pattern, and the run of concrete worlds *)

(** C2, as amended.  Every match of the pattern in a text is a part of the
    text of this form: optional newlines; a fence of up to three spaces and
    three or more backticks; optional blanks; an optional tag of word
    characters, [-] and [.], with or without a braced attribute, or a
    braced attribute alone; one or more newlines; the body; one or more
    newlines; the very text of the opening fence again; then a newline or
    the end of the text.  The groups [code_start], [code_class] and
    [code_content] are the fence, the tag and the body.  In the other
    direction, from a text that is exactly one block in its simplest form
    (three or more backticks, a tag or none, a newline, a body without
    backtick and without newline at either end, a newline, the same
    backticks) exactly one match is found, with that tag and that body. *)
Theorem extracted_block_shape isalnum :
  (forall s m,
     In m (finditer isalnum find_code_blocks s) ->
     exists pre lead fence bl line nl1 body nl2 tail post,
       s = pre ++ lead ++ fence ++ bl ++ line ++ nl1 ++ body ++ nl2 ++ fence ++
           tail ++ post /\
       Forall (eq LF) lead /\ fence_text fence /\ blank bl /\
       tagged isalnum (group "code_class" m) line /\
       newlines nl1 /\ newlines nl2 /\ line_end tail post /\
       group "code_start" m = Some fence /\
       group "code_content" m = Some body /\
       m_start m = length pre /\ m_end m + length post = length s) /\
  (plain_table isalnum ->
   forall n tag body,
     3 <= n -> tag_chars isalnum tag -> plain_body body ->
     exists m,
       finditer isalnum find_code_blocks
         (repeat TICK n ++ tag ++ LF :: body ++ LF :: repeat TICK n) = [m] /\
       group "code_start" m = Some (repeat TICK n) /\
       group "code_class" m = match tag with [] => None | _ :: _ => Some tag end /\
       group "code_content" m = Some body).
Proof.
  split.
  - intros s m H. now apply block_groups, finditer_block_at.
  - intros Htable n tag body Hn Htag Hbody. now apply single_block_found.
Qed.

(** C2, as amended, at the first answer of the demo server and at the
    weather block alone. *)
Lemma extracted_block_shape_witness :
  (exists pre lead fence bl line nl1 body nl2 tail post,
     first_answer =
       pre ++ lead ++ fence ++ bl ++ line ++ nl1 ++ body ++ nl2 ++ fence ++
       tail ++ post /\
     Forall (eq LF) lead /\ fence_text fence /\ blank bl /\
     tagged ascii_alnum (group "code_class" weather_match) line /\
     newlines nl1 /\ newlines nl2 /\ line_end tail post /\
     group "code_start" weather_match = Some fence /\
     group "code_content" weather_match = Some body /\
     m_start weather_match = length pre /\
     m_end weather_match + length post = length first_answer) /\
  (exists m,
     finditer ascii_alnum find_code_blocks
       (repeat TICK 3 ++ python ++ LF :: weather_call ++ LF :: repeat TICK 3) = [m] /\
     group "code_start" m = Some (repeat TICK 3) /\
     group "code_class" m = Some python /\
     group "code_content" m = Some weather_call).
Proof.
  split.
  - apply (proj1 (extracted_block_shape ascii_alnum) first_answer weather_match).
    vm_compute. left. reflexivity.
  - apply (proj2 (extracted_block_shape ascii_alnum)) with (tag := python).
    + vm_compute. auto.
    + lia.
    + vm_compute. repeat constructor.
    + vm_compute. repeat split; try discriminate.
      intros H. repeat (destruct H as [H|H]; [discriminate|]). exact H.
Defined.

(** C2 as stated fails: the weather block followed by one blank is a fenced
    block with the body [weather_call], and nothing is extracted from it. *)
Lemma extraction_not_exact : ~ Spec.extraction_exact ascii_alnum trailing_blank.
Proof.
  intros H. destruct (H weather_call) as [Hlr _].
  assert (In (VStr weather_call)
            (map (group_value "code_content")
                 (finditer ascii_alnum find_code_blocks trailing_blank))) as Hin.
  { apply Hlr. exists python, [], (txt "```"), [SP]. splits.
    - reflexivity.
    - vm_compute. lia.
    - vm_compute. repeat constructor.
    - vm_compute. repeat constructor; discriminate.
    - intros [|x p]; discriminate.
    - discriminate. }
  vm_compute in Hin. exact Hin.
Qed.

(** C6 as stated fails: when the reply has no code block, the outputs
    message is appended with the empty string as content. *)
Lemma empty_outputs_message :
  ~ Forall Spec.nonempty_content (messages (final ascii_alnum plain_world)).
Proof.
  intros H. rewrite Forall_forall in H.
  destruct (H (message user (VStr []))) as (s & Hs & Hne).
  - apply nth_error_In with (n := 4). vm_compute. reflexivity.
  - rewrite content_of_message in Hs. injection Hs as <-. now apply Hne.
Qed.

(** C1 as stated fails: from an answer with a [python] block and a [js]
    block the pattern extracts both, and the run, which returns, has run
    the first only. *)
Lemma not_every_block_run : ~ Spec.runs_every_block ascii_alnum mixed_world.
Proof.
  intros H. specialize (H mixed_answer). vm_compute in H.
  specialize (H eq_refl eq_refl). discriminate H.
Qed.

(** C1, as amended, at the run of the demo world, which returns. *)
Lemma linear_pipeline_witness :
  exists r s ex0 exs r' answer,
    chat_gives r (VStr s) /\ chat_gives r' answer /\
    length exs = length (calls_in ascii_alnum s) /\
    trace (final ascii_alnum demo_world) =
      [asked initial_messages (Ok r); ReadJson; Print (VStr s);
       Print (VList (calls_in ascii_alnum s)); Start (Ok tt);
       Run (VStr function_code) (Ok ex0)] ++
      served (calls_in ascii_alnum s) exs ++
      [Print (VStr (outputs_of exs));
       asked (initial_messages ++
              [message assistant (VStr s);
               message user (VStr (outputs_of exs))]) (Ok r');
       ReadJson; Print answer; Stop (Ok tt); Close (Ok tt)].
Proof.
  apply (proj2 (proj2 (linear_pipeline ascii_alnum demo_world))).
  vm_compute. reflexivity.
Defined.

(** C3 at the run of the demo world. *)
Lemma outputs_message_witness :
  exists strs,
    message user (VStr weather_report) = message user (VStr (join (NL ++ NL) strs)) /\
    Forall2 Spec.collects
      (tl (executions (trace (final ascii_alnum demo_world)))) strs /\
    tl (runs (trace (final ascii_alnum demo_world))) =
      extracted ascii_alnum (trace (final ascii_alnum demo_world)) /\
    forall k m',
      nth_error (messages (final ascii_alnum demo_world)) k = Some m' ->
      3 <= k -> role_of m' = Some (VStr user) -> k = 4.
Proof.
  apply (@outputs_message ascii_alnum demo_world (message user (VStr weather_report))).
  vm_compute. reflexivity.
Defined.

(** C9 at the one function call of the demo run. *)
Lemma only_python_blocks_run_witness :
  exists s m,
    first_reply (trace (final ascii_alnum demo_world)) = Some (VStr s) /\
    In m (finditer ascii_alnum find_code_blocks s) /\
    group "code_class" m = Some python /\
    VStr weather_call = group_value "code_content" m.
Proof.
  destruct (@only_python_blocks_run ascii_alnum demo_world (VStr weather_call))
    as (s & m & H1 & H2 & H3 & H4 & _).
  - vm_compute. left. reflexivity.
  - exists s, m. auto.
Defined.

(** C10 at the first call of [chat] in the demo world. *)
Lemma chat_appends_assistant_message_witness :
  messages (snd (chat demo_world model_name default_server
                   {| messages := initial_messages; trace := [] |})) =
  initial_messages ++ [message assistant (VStr first_answer)].
Proof.
  apply (@chat_appends_assistant_message demo_world model_name default_server
           {| messages := initial_messages; trace := [] |}
           (VStr first_answer)
           (snd (chat demo_world model_name default_server
                   {| messages := initial_messages; trace := [] |}))).
  vm_compute. reflexivity.
Defined.

(** C8 at the first call of [chat] in the demo world. *)
Lemma chat_request_and_result_witness :
  exists r body msg,
    json r = Ok body /\
    getitem body (txt "message") = Ok msg /\
    getitem msg (txt "content") = Ok (VStr first_answer).
Proof.
  destruct (chat_request_and_result demo_world model_name default_server
              {| messages := initial_messages; trace := [] |})
    as (reply & evs & _ & _ & H).
  destruct (H (VStr first_answer)) as (r & body & msg & _ & H1 & H2 & H3).
  - vm_compute. reflexivity.
  - exists r, body, msg. auto.
Defined.

(** C6, as amended, at the outputs message of the plain world. *)
Lemma transcript_contents_witness :
  exists exs,
    content_of (message user (VStr [])) = Some (VStr (outputs_of exs)) /\
    length exs = length (extracted ascii_alnum (trace (final ascii_alnum plain_world))) /\
    (extracted ascii_alnum (trace (final ascii_alnum plain_world)) = [] ->
     content_of (message user (VStr [])) = Some (VStr [])).
Proof.
  apply (proj2 (proj2 (proj2 (transcript_contents ascii_alnum plain_world)))).
  vm_compute. reflexivity.
Defined.

(** * Further properties *)

(** ** [chat] *)

Section ChatExtras.
Variable w : world.

(** X1.  A reply that has not the expected form.  When the request was
    answered with a status below 400 and a JSON body, and the body is not a
    dict, or is a dict without the key ["message"], or its ["message"] is
    not a dict or is a dict without the key ["content"], then [chat]
    raises: [TypeError] where a value that is not a dict is indexed,
    [KeyError] with the missing key otherwise.  In each of these cases the
    transcript is left as it was and the trace has grown by the request
    and the reading of the body. *)
Theorem chat_reply_without_content model server st r body :
  session_post w (trace st) (server ++ txt "/api/chat")
               (payload model (messages st)) = Ok r ->
  (status r < 400)%Z ->
  json r = Ok body ->
  let failed e :=
    chat w model server st =
      (Raise e,
       {| messages := messages st;
          trace := trace st ++
                   [Post (server ++ txt "/api/chat")
                         (payload model (messages st)) (Ok r);
                    ReadJson] |}) in
  ((forall items, body <> VDict items) -> failed TypeError) /\
  (forall items,
     body = VDict items ->
     (dict_get (txt "message") items = None ->
      failed (KeyError (txt "message"))) /\
     (forall msg,
        dict_get (txt "message") items = Some msg ->
        ((forall fields, msg <> VDict fields) -> failed TypeError) /\
        (forall fields,
           msg = VDict fields -> dict_get (txt "content") fields = None ->
           failed (KeyError (txt "content"))))).
Proof.
  intros Hreply Hstatus Hjson failed.
  assert (forall e, reply_content r = Err e -> failed e) as Hfail.
  { intros e He. unfold failed. rewrite chat_eq. cbv zeta. rewrite Hreply.
    unfold ok. apply Z.ltb_lt in Hstatus. rewrite Hstatus, He.
    now rewrite <- app_assoc. }
  unfold reply_content in Hfail. rewrite Hjson in Hfail.
  split.
  - intros Hbody. apply Hfail.
    destruct body; try reflexivity. now destruct (Hbody items).
  - intros items ->. cbn [getitem] in Hfail. split.
    + intros Hnone. apply Hfail. now rewrite Hnone.
    + intros msg Hmsg. rewrite Hmsg in Hfail. split.
      * intros Hm. apply Hfail. destruct msg; try reflexivity.
        now destruct (Hm items0).
      * intros fields -> Hnone. apply Hfail. cbn [getitem]. now rewrite Hnone.
Qed.

(** X2.  A call of [chat] that raises, for whatever reason (no reply, an
    error status, a body that cannot be read or has not the expected
    form), leaves the transcript as it was: nothing is appended.  The
    request has been sent all the same, and the body was read at most
    once. *)
Theorem chat_raise_keeps_transcript model server st e :
  fst (chat w model server st) = Raise e ->
  messages (snd (chat w model server st)) = messages st /\
  exists reply evs,
    trace (snd (chat w model server st)) =
      trace st ++
      Post (server ++ txt "/api/chat") (payload model (messages st)) reply :: evs /\
    (evs = [] \/ evs = [ReadJson]).
Proof.
  rewrite chat_eq. cbv zeta.
  destruct (session_post w (trace st) (server ++ txt "/api/chat")
              (payload model (messages st))) as [r|e0].
  - destruct (ok r).
    + destruct (reply_content r) as [c|e0]; cbn [fst snd messages trace].
      * discriminate.
      * intros _. split; [reflexivity|]. rewrite <- app_assoc.
        exists (Ok r), [ReadJson]. auto.
    + cbn [fst snd messages trace]. intros _. split; [reflexivity|].
      exists (Ok r), []. auto.
  - cbn [fst snd messages trace]. intros _. split; [reflexivity|].
    exists (Err e0), []. auto.
Qed.

(** X3.  [chat] reads the body of the reply exactly when the request was
    answered with a status below 400: a reply with status 204 or 302 is
    treated like one with status 200, and no body is read after a status of
    400 or above or when the request itself raised. *)
Theorem body_read_iff_status_below_400 model server st :
  In ReadJson (skipn (length (trace st)) (trace (snd (chat w model server st)))) <->
  exists r,
    session_post w (trace st) (server ++ txt "/api/chat")
                 (payload model (messages st)) = Ok r /\
    (status r < 400)%Z.
Proof.
  rewrite chat_eq. cbv zeta.
  destruct (session_post w (trace st) (server ++ txt "/api/chat")
              (payload model (messages st))) as [r|e0].
  - unfold ok. destruct (status r <? 400)%Z eqn:E.
    + apply Z.ltb_lt in E.
      assert (forall o m, In ReadJson
                (skipn (length (trace st))
                   (trace (snd (o : outcome value,
                                {| messages := m;
                                   trace := (trace st ++
                                     [Post (server ++ txt "/api/chat")
                                        (payload model (messages st)) (Ok r)]) ++
                                     [ReadJson] |}))))) as Hin.
      { intros o m. cbn [snd trace]. rewrite <- app_assoc.
        rewrite skipn_app, skipn_all, Nat.sub_diag. simpl. auto. }
      destruct (reply_content r); split; eauto.
    + apply Z.ltb_ge in E. cbn [snd trace].
      rewrite skipn_app, skipn_all, Nat.sub_diag. simpl. split.
      * intros [H|[]]; discriminate.
      * intros (r' & [= <-] & H). lia.
  - cbn [snd trace]. rewrite skipn_app, skipn_all, Nat.sub_diag. simpl. split.
    + intros [H|[]]; discriminate.
    + intros (r' & H & _). discriminate.
Qed.

End ChatExtras.

(** ** [main] *)

Section MainExtras.
Variable isalnum : char -> bool.
Variable w : world.

(** X4.  When the first request fails, the run ends at once with the
    exception of the request: the one raised by [session.post], or
    [ClientResponseError] for a status of 400 or above.  The request is the
    only event: nothing is printed, the sandbox is not started, the session
    is not closed, and the transcript is the three initial messages. *)
Theorem first_request_failure :
  (forall e,
     session_post w [] (chat_endpoint default_server)
                  (payload model_name initial_messages) = Err e ->
     ending isalnum w = Raise e /\
     final isalnum w =
       {| messages := initial_messages;
          trace := [asked initial_messages (Err e)] |}) /\
  (forall r,
     session_post w [] (chat_endpoint default_server)
                  (payload model_name initial_messages) = Ok r ->
     (400 <= status r)%Z ->
     ending isalnum w = Raise (ClientResponseError (status r)) /\
     final isalnum w =
       {| messages := initial_messages;
          trace := [asked initial_messages (Ok r)] |}).
Proof.
  destruct (first_request isalnum w) as (evs0 & Hfirst). revert Hfirst.
  assert (forall r, (400 <= status r)%Z -> ok r = true -> False) as Hok.
  { unfold ok. intros r H1 H2. apply Z.ltb_lt in H2. lia. }
  main_cases isalnum w; cbn [app]; intros [= Hreply _]; (split; [intros e0|intros r0]);
    rewrite <- Hreply; try discriminate; try intros [= ->].
  all: try (intros Hst; exfalso; apply (Hok _ Hst), Hg).
  - inversion Hf; subst. auto.
  - intros Hst. inversion Hf; subst.
    + auto.
    + exfalso. eauto.
Qed.

(** X5.  When the content of the first reply is not text (null, a number,
    a list, ...), [chat] has appended it to the transcript and [main] has
    printed it, and the run ends with the [TypeError] of [finditer]: the
    sandbox is not started and nothing follows. *)
Theorem reply_without_text rep val :
  session_post w [] (chat_endpoint default_server)
               (payload model_name initial_messages) = Ok rep ->
  (status rep < 400)%Z ->
  reply_content rep = Ok val ->
  (forall s, val <> VStr s) ->
  ending isalnum w = Raise TypeError /\
  final isalnum w =
    {| messages := initial_messages ++ [message assistant val];
       trace := [asked initial_messages (Ok rep); ReadJson; Print val] |}.
Proof.
  intros Hreply Hstatus Hcontent Hv.
  destruct (first_request isalnum w) as (evs0 & Hfirst). revert Hfirst. rewrite Hreply.
  apply Z.ltb_lt in Hstatus. fold (ok rep) in Hstatus.
  main_cases isalnum w; cbn [app]; intros [= Hr _]; subst.
  - inversion Hf; subst; congruence.
  - destruct Hg as [_ Hg]. rewrite Hcontent in Hg. injection Hg as <-. auto.
  - destruct Hg as [_ Hg]. rewrite Hcontent in Hg. injection Hg as ->.
    now destruct (Hv s).
  - destruct Hg as [_ Hg]. rewrite Hcontent in Hg. injection Hg as ->.
    now destruct (Hv s).
  - destruct Hg as [_ Hg]. rewrite Hcontent in Hg. injection Hg as ->.
    now destruct (Hv s).
  - destruct Hg as [_ Hg]. rewrite Hcontent in Hg. injection Hg as ->.
    now destruct (Hv s).
  - destruct Hg as [_ Hg]. rewrite Hcontent in Hg. injection Hg as ->.
    now destruct (Hv s).
Qed.

(** X6.  No failure of an outside call is caught or retried: when a call
    of [session.post], [sandbox.start], [sandbox.run], [sandbox.stop] or
    [session.close] raises, that call is the last event of the run and its
    exception is the exception the run ends with. *)
Theorem failure_ends_run k ev e :
  nth_error (trace (final isalnum w)) k = Some ev ->
  failure_of ev = Some e ->
  S k = length (trace (final isalnum w)) /\ ending isalnum w = Raise e.
Proof.
  intros Hk He. destruct (run_failures isalnum w) as [Hq|(e0 & Hend & Hl)].
  - exfalso. eapply quiet_nth; eauto.
  - destruct (fails_last_nth Hl k Hk He) as [H ->]. auto.
Qed.

(** X7.  [sandbox.stop] is reached only in a run whose two calls of [chat]
    returned (the transcript has then its six messages), and
    [session.close] only after a [sandbox.stop] that succeeded.  A run that
    ends with an exception has not closed the session: the script has no
    [finally]. *)
Theorem cleanup_only_at_the_end :
  (forall reply,
     In (Stop reply) (trace (final isalnum w)) ->
     length (messages (final isalnum w)) = 6) /\
  (forall reply,
     In (Close reply) (trace (final isalnum w)) ->
     In (Stop (Ok tt)) (trace (final isalnum w))) /\
  (forall e,
     ending isalnum w = Raise e ->
     ~ In (Close (Ok tt)) (trace (final isalnum w))).
Proof.
  assert (forall ev calls exs,
            In ev (served calls exs) ->
            (forall c ex, ev <> Run c (Ok ex)) -> False) as Hs.
  { intros ev calls exs H Hne. apply in_served in H.
    destruct H as (c & ex & ->). now apply (Hne c ex). }
  assert (forall A (x y : A) l, In x (y :: l) <-> y = x \/ In x l) as Hcons
    by (intros; reflexivity).
  split; [|split].
  - intros answer0. main_cases isalnum w; unfold asked; intros H.
    all: try (destruct Hf); try (destruct Hlast).
    all: rewrite ?in_app_iff, ?Hcons in H; cbn [In] in H.
    all: repeat match goal with
           | H : _ \/ _ |- _ => destruct H as [H|H]
           | H : False |- _ => destruct H
           | H : In _ (served _ _) |- _ =>
               exfalso; apply (Hs _ _ _ H); discriminate
           | H : _ = _ |- _ => discriminate H
           end.
    all: rewrite !length_app; reflexivity.
  - intros answer0. main_cases isalnum w; unfold asked; intros H.
    all: try (destruct Hf); try (destruct Hlast).
    all: rewrite ?in_app_iff, ?Hcons in H; cbn [In] in H.
    all: repeat match goal with
           | H : _ \/ _ |- _ => destruct H as [H|H]
           | H : False |- _ => destruct H
           | H : In _ (served _ _) |- _ =>
               exfalso; apply (Hs _ _ _ H); discriminate
           | H : _ = _ |- _ => discriminate H
           end.
    all: rewrite ?in_app_iff; cbn [In]; auto 20.
  - intros e0. main_cases isalnum w; unfold asked; intros Hend H.
    all: try (destruct Hf); try (destruct Hlast).
    all: rewrite ?in_app_iff, ?Hcons in H; cbn [In] in H.
    all: repeat match goal with
           | H : _ \/ _ |- _ => destruct H as [H|H]
           | H : False |- _ => destruct H
           | H : In _ (served _ _) |- _ =>
               exfalso; apply (Hs _ _ _ H); discriminate
           | H : _ = _ |- _ => discriminate H
           end.
Qed.

(** X8.  In a world where every request of [chat] is answered with a
    status below 400 and a reply whose content is text, and where the
    sandbox and the session never fail, the run returns: [chat] has sent
    its two requests, the transcript has six messages, and the last two
    events are the stop of the sandbox and the closing of the session. *)
Theorem run_completes :
  (forall tr ep body,
     exists r s, session_post w tr ep body = Ok r /\ (status r < 400)%Z /\
                 reply_content r = Ok (VStr s)) ->
  (forall tr, sandbox_start w tr = Ok tt) ->
  (forall tr code, exists ex, sandbox_run w tr code = Ok ex) ->
  (forall tr, sandbox_stop w tr = Ok tt) ->
  (forall tr, session_close w tr = Ok tt) ->
  ending isalnum w = Return tt /\
  length (messages (final isalnum w)) = 6 /\
  length (posts (trace (final isalnum w))) = 2 /\
  exists later, trace (final isalnum w) = later ++ [Stop (Ok tt); Close (Ok tt)].
Proof.
  intros Hpost Hstart Hrun Hstop Hclose.
  destruct (@complete_run isalnum w Hpost Hstart Hrun Hstop Hclose)
    as (r & s & ex0 & exs & r' & answer & _ & _ & Hlen & Hend & Hfinal).
  rewrite Hfinal. cbn [messages trace].
  split; [exact Hend|]. split; [rewrite !length_app; reflexivity|]. split.
  - unfold asked. rewrite !posts_app, posts_served. reflexivity.
  - eexists. rewrite !app_assoc. reflexivity.
Qed.

End MainExtras.

Section RequestExtras.
Variable isalnum : char -> bool.
Variable w : world.

(** X16.  In every run [chat] sends one or two requests, and every request
    that [chat] sends goes to [http://localhost:11434/api/chat] (the
    default of the parameter [server] of [chat], which [main] never
    passes), with the model [gemma3:27b], [stream] false and the two
    options; the first of them carries the three initial messages.  This
    speaks of the requests of [chat] only ([posts] lists the [Post]
    events): what the sandbox sends over the same session is not among
    them. *)
Theorem chat_requests_of_a_run :
  1 <= length (posts (trace (final isalnum w))) <= 2 /\
  nth_error (posts (trace (final isalnum w))) 0 =
    Some (txt "http://localhost:11434/api/chat",
          VDict [ (txt "model", VStr (txt "gemma3:27b"));
                  (txt "messages", VList initial_messages);
                  (txt "stream", VBool false);
                  (txt "options", VDict [ (txt "num_ctx", VInt 8192);
                                          (txt "top_p", VFloat 95 (-2)) ]) ]) /\
  Forall (fun request =>
            fst request = txt "http://localhost:11434/api/chat" /\
            exists history,
              snd request =
                VDict [ (txt "model", VStr (txt "gemma3:27b"));
                        (txt "messages", VList history);
                        (txt "stream", VBool false);
                        (txt "options", VDict [ (txt "num_ctx", VInt 8192);
                                                (txt "top_p", VFloat 95 (-2)) ]) ])
         (posts (trace (final isalnum w))).
Proof.
  assert (chat_endpoint default_server = txt "http://localhost:11434/api/chat")
    as Hep by (vm_compute; reflexivity).
  assert (forall history,
            payload model_name history =
            VDict [ (txt "model", VStr (txt "gemma3:27b"));
                    (txt "messages", VList history);
                    (txt "stream", VBool false);
                    (txt "options", VDict [ (txt "num_ctx", VInt 8192);
                                            (txt "top_p", VFloat 95 (-2)) ]) ])
    as Hpay by reflexivity.
  main_cases isalnum w; unfold asked;
    try change (Post ?a ?b ?c :: evs) with ([Post a b c] ++ evs);
    rewrite ?posts_app, ?posts_served;
    try rewrite (posts_closing Hlast); try rewrite (posts_fails Hf);
    cbn [posts flat_map app length nth_error]; rewrite ?Hep, ?Hpay.
  all: split; [lia|]; split; [reflexivity|].
  all: repeat first [apply Forall_nil | apply Forall_cons]; cbn [fst snd]; eauto.
Qed.

End RequestExtras.

(** ** The pattern *)

Section PatternExtras.
Variable isalnum : char -> bool.

(** X9.  The matches [finditer] returns lie in the text from left to right
    and do not overlap: each starts at or after the end of the one before
    it and the last ends inside the text.  Each is at least eight
    characters long (two fences of three backticks and two newlines). *)
Theorem matches_laid_out s :
  laid_out 0 (finditer isalnum find_code_blocks s) (length s).
Proof.
  unfold finditer. apply (@scan_laid_out isalnum (length s) [] s). lia.
Qed.

(** X10.  A text with fewer than six backticks or fewer than two newlines
    holds no block: [finditer] returns nothing and no function call is
    extracted. *)
Theorem too_few_for_a_block s :
  occurrences TICK s < 6 \/ occurrences LF s < 2 ->
  finditer isalnum find_code_blocks s = [] /\ calls_in isalnum s = [].
Proof.
  intros Hcount.
  assert (finditer isalnum find_code_blocks s = []) as Hnone.
  { destruct (finditer isalnum find_code_blocks s) as [|m l] eqn:E; [reflexivity|].
    exfalso.
    assert (In m (finditer isalnum find_code_blocks s)) as Hm by (rewrite E; now left).
    apply finditer_block_at in Hm.
    destruct Hm as (pre & lead & fence & bl & line & ms & nl1 & body & nl2 & tail
                    & post & Hm).
    cbv zeta in Hm. destruct Hm as (Hs & _ & _ & _ & Hf & _ & _ & Hn1 & Hn2 & _).
    apply fence_backticks in Hf. apply newlines_count in Hn1, Hn2.
    rewrite Hs in Hcount. repeat rewrite occurrences_app in Hcount. lia. }
  split; [exact Hnone|]. unfold calls_in. rewrite Hnone. reflexivity.
Qed.

(** X12.  Every match ends at the first place that can close it.  The
    text splits into what is before the content, the content, and what is
    behind it; what is behind closes the block (newlines, the text of the
    opening fence, then a newline or the end of the text), and no end part
    of the content followed by it does. *)
Theorem block_ends_at_first_closing s m :
  In m (finditer isalnum find_code_blocks s) ->
  exists before fence body behind,
    s = before ++ body ++ behind /\
    group "code_start" m = Some fence /\
    group "code_content" m = Some body /\
    closes fence behind /\
    forall b1 b2, body = b1 ++ b2 -> b2 <> [] -> ~ closes fence (b2 ++ behind).
Proof.
  unfold finditer. intros H. apply scan_first in H.
  destruct H as (pre & ahead & c' & -> & Hw & ->).
  apply first_block_shape in Hw; [|reflexivity].
  destruct Hw as (before & fence & body & behind & Hr & Hf & Hb & Hcl & _ & Hmin).
  cbn [rest] in Hr.
  exists (pre ++ before), fence, body, behind. splits; auto.
  rewrite Hr. now rewrite <- app_assoc.
Qed.

(** X11.  The content of a match neither begins nor ends with a newline:
    the newlines after the opening line and before the closing fence are
    never part of it.  The same holds of every function call extracted
    from a text. *)
Theorem content_without_newline_at_ends s :
  (forall m body,
     In m (finditer isalnum find_code_blocks s) ->
     group "code_content" m = Some body ->
     (forall b, body <> LF :: b) /\ (forall b, body <> b ++ [LF])) /\
  (forall code,
     In code (calls_in isalnum s) ->
     exists body,
       code = VStr body /\
       (forall b, body <> LF :: b) /\ (forall b, body <> b ++ [LF])).
Proof.
  assert (forall m body,
     In m (finditer isalnum find_code_blocks s) ->
     group "code_content" m = Some body ->
     (forall b, body <> LF :: b) /\ (forall b, body <> b ++ [LF])) as Hall.
  { unfold finditer. intros m body H Hg. apply scan_first in H.
    destruct H as (pre & ahead & c' & -> & Hw & ->).
    apply first_block_shape in Hw; [|reflexivity].
    destruct Hw as (before & fence & body' & behind & _ & _ & Hb & Hcl & Hhd & Hmin).
    unfold group, found in Hg. cbn [m_marks] in Hg. rewrite Hb in Hg.
    injection Hg as <-. split; [exact Hhd|].
    intros b ->. apply (Hmin b [LF] eq_refl); [discriminate|].
    destruct Hcl as (nl & tail & post & -> & [Hne Hnl] & Hend).
    exists (LF :: nl), tail, post. splits; auto.
    split; [discriminate|]. now constructor. }
  split; [exact Hall|].
  intros code Hc. apply calls_in_python in Hc. destruct Hc as (m & Hm & _ & ->).
  pose proof Hm as Hshape. apply finditer_block_at, block_groups in Hshape.
  destruct Hshape as (pre & lead & fence & bl & line & nl1 & body & nl2 & tail & post
                      & _ & _ & _ & _ & _ & _ & _ & _ & _ & Hb & _).
  exists body. unfold group_value. rewrite Hb. split; [reflexivity|].
  apply Hall with (m := m); assumption.
Qed.

End PatternExtras.

Section ProseExtras.
Variable isalnum : char -> bool.

(** X13.  A text with one block in its simplest form on lines of its own
    (what is before it is empty or ends with a newline, what is after it is
    empty or starts with a newline) and no backtick outside the block:
    exactly one match is found, with the fence, the tag and the body of the
    block.  The body is the one function call when the tag is [python];
    with any other tag, or none, there is no function call. *)
Theorem block_in_prose n intro tag body outro :
  plain_table isalnum ->
  3 <= n -> tag_chars isalnum tag -> plain_body body ->
  ~ In TICK intro -> ends_line intro ->
  ~ In TICK outro -> starts_line outro ->
  let s := intro ++ repeat TICK n ++ tag ++ LF :: body ++ LF :: repeat TICK n ++ outro in
  (exists m,
     finditer isalnum find_code_blocks s = [m] /\
     group "code_start" m = Some (repeat TICK n) /\
     group "code_class" m = match tag with [] => None | _ :: _ => Some tag end /\
     group "code_content" m = Some body) /\
  (tag = python -> calls_in isalnum s = [VStr body]) /\
  (tag <> python -> calls_in isalnum s = []).
Proof. apply one_block_found. Qed.

End ProseExtras.

Section DocumentExtras.
Variable isalnum : char -> bool.

(** X15.  A text made of blocks in their simplest form, each on lines of
    its own after lines without backtick, and followed after the last by
    nothing or by a new line without backtick: [finditer] returns one match
    for each block, in the order of the text, with the fence, the tag and
    the body of that block.  The function calls are the bodies of the
    blocks whose tag is [python], in that order. *)
Theorem blocks_in_order bs outro :
  plain_table isalnum ->
  Forall (simple_block isalnum) bs ->
  ~ In TICK outro -> (bs <> [] -> starts_line outro) ->
  Forall2 matches_block (finditer isalnum find_code_blocks (document bs outro)) bs /\
  calls_in isalnum (document bs outro) =
    map (fun b => VStr (b_body b)) (filter (fun b => text_eqb (b_tag b) python) bs).
Proof.
  intros Htable Hbs Houtro Hstarts.
  assert (Forall2 matches_block
            (finditer isalnum find_code_blocks (document bs outro)) bs) as H.
  { unfold finditer. now apply scan_document. }
  split; [exact H|]. unfold calls_in. now apply calls_of_blocks.
Qed.

End DocumentExtras.


(** ** From the reply to the sandbox and back *)

Section RoundTrip.
Variable isalnum : char -> bool.
Variable w : world.

(** X14.  From the reply to the sandbox and back.  When the first reply is
    such a text with a [python] block, every reply carries text and no
    outside call fails, the run returns; the codes run in the sandbox are
    the function definitions and then the body of the block; and the fifth
    message of the transcript is the user message whose content is the
    stderr of that second run when it is non-empty and its stdout
    otherwise. *)
Theorem python_block_round_trip n intro body outro first :
  plain_table isalnum -> tag_chars isalnum python ->
  3 <= n -> plain_body body ->
  ~ In TICK intro -> ends_line intro ->
  ~ In TICK outro -> starts_line outro ->
  (forall tr ep payload,
     exists r s, session_post w tr ep payload = Ok r /\ (status r < 400)%Z /\
                 reply_content r = Ok (VStr s)) ->
  (forall tr, sandbox_start w tr = Ok tt) ->
  (forall tr code, exists ex, sandbox_run w tr code = Ok ex) ->
  (forall tr, sandbox_stop w tr = Ok tt) ->
  (forall tr, session_close w tr = Ok tt) ->
  session_post w [] (chat_endpoint default_server)
               (payload model_name initial_messages) = Ok first ->
  reply_content first =
    Ok (VStr (intro ++ repeat TICK n ++ python ++ LF :: body ++
              LF :: repeat TICK n ++ outro)) ->
  ending isalnum w = Return tt /\
  runs (trace (final isalnum w)) = [VStr function_code; VStr body] /\
  exists ex0 ex,
    executions (trace (final isalnum w)) = [ex0; ex] /\
    nth_error (messages (final isalnum w)) 4 =
      Some (message user (VStr (if truthy (error ex) then error ex else output ex))).
Proof.
  intros Htable Hpython Hn Hbody Hintro Hends Houtro Hstarts
         Hpost Hstart Hrun Hstop Hclose Hfirst Hcontent.
  destruct (@complete_run isalnum w Hpost Hstart Hrun Hstop Hclose)
    as (r & s & ex0 & exs & r' & answer & Hr & Hs & Hlen & Hend & Hfinal).
  rewrite Hfirst in Hr. injection Hr as <-.
  rewrite Hcontent in Hs.
  assert (s = intro ++ repeat TICK n ++ python ++ LF :: body ++
              LF :: repeat TICK n ++ outro) as ->.
  { exact (f_equal (fun o => match o with Ok (VStr u) => u | _ => [] end)
                   (eq_sym Hs)). }
  destruct (@one_block_found isalnum n intro python body outro
              Htable Hn Hpython Hbody Hintro Hends Houtro Hstarts)
    as (_ & Hcalls & _).
  cbv zeta in Hcalls. specialize (Hcalls eq_refl).
  rewrite Hcalls in Hfinal, Hlen.
  destruct exs as [|ex [|ex' exs]]; try discriminate.
  split; [exact Hend|]. rewrite Hfinal. cbn [trace messages]. split.
  - reflexivity.
  - exists ex0, ex. split; reflexivity.
Qed.

End RoundTrip.

(** ** At concrete runs *)

(** X1 at a server that answers with an error object. *)
Lemma chat_reply_without_content_witness :
  chat keyless_world model_name default_server
       {| messages := initial_messages; trace := [] |} =
  (Raise (KeyError (txt "message")),
   {| messages := initial_messages;
      trace := [asked initial_messages
                  (Ok {| status := 200;
                         json := Ok (VDict [(txt "error",
                                             VStr (txt "model not loaded"))]) |});
                ReadJson] |}).
Proof.
  pose proof (@chat_reply_without_content keyless_world model_name default_server
                {| messages := initial_messages; trace := [] |}
                {| status := 200;
                   json := Ok (VDict [(txt "error", VStr (txt "model not loaded"))]) |}
                (VDict [(txt "error", VStr (txt "model not loaded"))])
                eq_refl eq_refl eq_refl) as H.
  cbv zeta in H.
  exact (proj1 (proj2 H [(txt "error", VStr (txt "model not loaded"))] eq_refl) eq_refl).
Defined.

(** X2 at the failing server. *)
Lemma chat_raise_keeps_transcript_witness :
  messages (snd (chat failing_world model_name default_server
                   {| messages := initial_messages; trace := [] |})) =
  initial_messages.
Proof.
  apply (@chat_raise_keeps_transcript failing_world model_name default_server
           {| messages := initial_messages; trace := [] |}
           (ClientResponseError 500)).
  vm_compute. reflexivity.
Defined.

(** X4 at the failing server. *)
Lemma first_request_failure_witness :
  ending ascii_alnum failing_world = Raise (ClientResponseError 500) /\
  messages (final ascii_alnum failing_world) = initial_messages /\
  length (trace (final ascii_alnum failing_world)) = 1.
Proof.
  destruct (proj2 (first_request_failure ascii_alnum failing_world)
              {| status := 500;
                 json := Ok (VDict [
                   (txt "model", VStr model_name);
                   (txt "message", VDict [(txt "role", VStr assistant);
                      (txt "content", VStr (txt "Internal Server Error"))]);
                   (txt "done", VBool true) ]) |}) as [H1 H2].
  - reflexivity.
  - simpl. lia.
  - rewrite H1, H2. auto.
Defined.

(** X5 at a server that answers with [null]. *)
Lemma reply_without_text_witness :
  ending ascii_alnum null_world = Raise TypeError /\
  messages (final ascii_alnum null_world) =
    initial_messages ++ [message assistant VNone].
Proof.
  destruct (@reply_without_text ascii_alnum null_world
              {| status := 200;
                 json := Ok (VDict [
                   (txt "model", VStr model_name);
                   (txt "message", VDict [(txt "role", VStr assistant);
                                          (txt "content", VNone)]);
                   (txt "done", VBool true) ]) |} VNone) as [H1 H2].
  - reflexivity.
  - reflexivity.
  - reflexivity.
  - discriminate.
  - rewrite H1, H2. auto.
Defined.

(** X6 at a sandbox that cannot be started. *)
Lemma failure_ends_run_witness :
  5 = length (trace (final ascii_alnum no_sandbox_world)) /\
  ending ascii_alnum no_sandbox_world =
    Raise (Failure (txt "sandbox server not reachable")).
Proof.
  apply (@failure_ends_run ascii_alnum no_sandbox_world 4
           (Start (Err (Failure (txt "sandbox server not reachable"))))).
  - vm_compute. reflexivity.
  - reflexivity.
Defined.

(** X7 at the demo run, which stops the sandbox, and at the failing server. *)
Lemma cleanup_only_at_the_end_witness :
  length (messages (final ascii_alnum demo_world)) = 6 /\
  ~ In (Close (Ok tt)) (trace (final ascii_alnum failing_world)).
Proof.
  split.
  - apply (proj1 (cleanup_only_at_the_end ascii_alnum demo_world) (Ok tt)).
    vm_compute. repeat (try (left; reflexivity); right).
  - apply (proj2 (proj2 (cleanup_only_at_the_end ascii_alnum failing_world))
             (ClientResponseError 500)).
    vm_compute. reflexivity.
Defined.

(** X8 at the demo world. *)
Lemma run_completes_witness :
  ending ascii_alnum demo_world = Return tt /\
  length (messages (final ascii_alnum demo_world)) = 6 /\
  length (posts (trace (final ascii_alnum demo_world))) = 2 /\
  exists later,
    trace (final ascii_alnum demo_world) = later ++ [Stop (Ok tt); Close (Ok tt)].
Proof.
  apply (@run_completes ascii_alnum demo_world).
  - intros tr ep body. simpl. destruct (posts tr).
    + eexists _, _. split; [reflexivity|]. split; reflexivity.
    + eexists _, _. split; [reflexivity|]. split; reflexivity.
  - reflexivity.
  - intros tr code. simpl. destruct (runs tr); eexists; reflexivity.
  - reflexivity.
  - reflexivity.
Defined.

(** X10 at a reply in plain words. *)
Lemma too_few_for_a_block_witness :
  finditer ascii_alnum find_code_blocks (txt "Pune is usually warm.") = [] /\
  calls_in ascii_alnum (txt "Pune is usually warm.") = [].
Proof.
  apply (@too_few_for_a_block ascii_alnum (txt "Pune is usually warm.")).
  left. vm_compute. lia.
Defined.

(** X11 at the first answer of the demo server. *)
Lemma content_without_newline_at_ends_witness :
  (forall b, weather_call <> LF :: b) /\ (forall b, weather_call <> b ++ [LF]).
Proof.
  apply (proj1 (@content_without_newline_at_ends ascii_alnum first_answer)
           weather_match weather_call).
  - vm_compute. left. reflexivity.
  - reflexivity.
Defined.

(** X12 at the first answer of the demo server. *)
Lemma block_ends_at_first_closing_witness :
  exists before fence body behind,
    first_answer = before ++ body ++ behind /\
    group "code_start" weather_match = Some fence /\
    group "code_content" weather_match = Some body /\
    closes fence behind /\
    forall b1 b2, body = b1 ++ b2 -> b2 <> [] -> ~ closes fence (b2 ++ behind).
Proof.
  apply (@block_ends_at_first_closing ascii_alnum first_answer weather_match).
  vm_compute. left. reflexivity.
Defined.

(** X13 at the first answer of the demo server. *)
Lemma block_in_prose_witness :
  calls_in ascii_alnum
    ((txt "I will look that up." ++ NL ++ NL) ++ repeat TICK 3 ++ python ++
     LF :: weather_call ++ LF :: repeat TICK 3 ++ []) = [VStr weather_call].
Proof.
  destruct (@block_in_prose ascii_alnum 3 (txt "I will look that up." ++ NL ++ NL)
              python weather_call []) as (_ & H & _).
  - vm_compute. auto.
  - lia.
  - vm_compute. repeat constructor.
  - vm_compute. repeat split; try discriminate.
    intros H. repeat (destruct H as [H|H]; [discriminate|]). exact H.
  - vm_compute. intros H. repeat (destruct H as [H|H]; [discriminate|]). exact H.
  - right. exists (txt "I will look that up." ++ NL). reflexivity.
  - intros [].
  - left. reflexivity.
  - exact (H eq_refl).
Defined.

(** X14 at the demo world. *)
Lemma python_block_round_trip_witness :
  ending ascii_alnum demo_world = Return tt /\
  runs (trace (final ascii_alnum demo_world)) = [VStr function_code; VStr weather_call] /\
  exists ex0 ex,
    executions (trace (final ascii_alnum demo_world)) = [ex0; ex] /\
    nth_error (messages (final ascii_alnum demo_world)) 4 =
      Some (message user (VStr (if truthy (error ex) then error ex else output ex))).
Proof.
  apply (@python_block_round_trip ascii_alnum demo_world 3
           (txt "I will look that up." ++ NL ++ NL) weather_call []
           {| status := 200;
              json := Ok (VDict [
                (txt "model", VStr model_name);
                (txt "message", VDict [(txt "role", VStr assistant);
                                       (txt "content", VStr first_answer)]);
                (txt "done", VBool true) ]) |}).
  - vm_compute. auto.
  - vm_compute. repeat constructor.
  - lia.
  - vm_compute. repeat split; try discriminate.
    intros H. repeat (destruct H as [H|H]; [discriminate|]). exact H.
  - vm_compute. intros H. repeat (destruct H as [H|H]; [discriminate|]). exact H.
  - right. exists (txt "I will look that up." ++ NL). reflexivity.
  - intros [].
  - left. reflexivity.
  - intros tr ep body. simpl. destruct (posts tr).
    + eexists _, _. split; [reflexivity|]. split; reflexivity.
    + eexists _, _. split; [reflexivity|]. split; reflexivity.
  - reflexivity.
  - intros tr code. simpl. destruct (runs tr); eexists; reflexivity.
  - reflexivity.
  - reflexivity.
  - reflexivity.
  - reflexivity.
Defined.

(** X15 at a text with two calls and a block in another language. *)
Lemma blocks_in_order_witness :
  calls_in ascii_alnum (document three_blocks (NL ++ txt "Done.")) =
  [VStr (txt "a()"); VStr (txt "c(1)" ++ NL ++ txt "d(2)")].
Proof.
  refine (proj2 (@blocks_in_order ascii_alnum three_blocks (NL ++ txt "Done.") _ _ _ _)).
  - vm_compute. auto.
  - unfold three_blocks. repeat apply Forall_cons; try apply Forall_nil.
    + simple_block_here (txt "First:").
    + simple_block_here (@nil char).
    + simple_block_here (txt "Then:" ++ NL).
  - not_in_text.
  - intros _. right. eexists. reflexivity.
Defined.
